(** * JianpuRender: the block segmentation engine and the pitch mapper

    A shallow embedding of [src/jianpu_info.ts], [src/model_constants.ts],
    [src/measure_info.ts], [src/jianpu_block.ts] and [src/jianpu_model.ts],
    and the properties of the engine stated in the specification.

    Conventions of the embedding.
    - A JavaScript [number] that holds a MIDI pitch, an intensity, a key, a
      scale degree or a count is a [Z]; the integer arithmetic of the source
      on such values is exact in IEEE doubles.
    - A JavaScript [number] that holds a time or a duration in quarter notes
      is an exact rational [Q]; [Math.floor] is [Qfloor], [Math.round x] is
      [Qfloor (x + 1/2)].  Rounding errors of IEEE doubles are outside the
      model: where the source computes [a - b + b] the model gets [a] back.
    - JavaScript objects that are shared and mutated (the notes, which the
      tie links [tiedFrom]/[tiedTo] point at) live in an explicit store, and
      a reference is an index into it.
    - The [while] and [do ... while] loops of [infoToBlocks] take fuel. *)

From Stdlib Require Import ZArith QArith Qround Qabs List Bool Lia Lqa.
Import ListNotations.

Local Open Scope Z_scope.

(** ** [model_constants.ts] *)

Definition MIDDLE_C_MIDI : Z := 60.

(** The table [MAJOR_SCALE_INTERVALS]; a key that the object does not hold
    reads as [undefined], here [None]. *)
Definition MAJOR_SCALE_INTERVALS (interval : Z) : option Z :=
  match interval with
  | 0 => Some 1
  | 2 => Some 2
  | 4 => Some 3
  | 5 => Some 4
  | 7 => Some 5
  | 9 => Some 6
  | 11 => Some 7
  | _ => None
  end.

(** ** The pitch mapper, [mapMidiToJianpu] of [jianpu_model.ts] *)

Module Pitch.

Record JianpuDetails : Set := mkDetails {
  jianpuNumber : Z;
  octaveDot : Z;
  accidental : Z
}.

(** [Math.round (n / d)] for integers [n] and [d > 0]: the nearest integer,
    a half rounded up. *)
Definition Math_round_div (n d : Z) : Z := (2 * n + d) / (2 * d).

(** [Math.floor (n / d)] for integers [n] and [d > 0]. *)
Definition Math_floor_div (n d : Z) : Z := n / d.

(** The reference tonic: [MIDDLE_C_MIDI + keyPitchClass], an octave lower
    when the pitch class of the key is above that of middle C. *)
Definition tonicMidiRef (key : Z) : Z :=
  let keyPitchClass := Z.rem key 12 in
  let ref := MIDDLE_C_MIDI + keyPitchClass in
  if Z.rem MIDDLE_C_MIDI 12 <? keyPitchClass then ref - 12 else ref.

Definition tonicMidi (midiPitch key : Z) : Z :=
  let octaveOffsetForIntervalCalc :=
    Math_round_div (midiPitch - tonicMidiRef key) 12 in
  tonicMidiRef key + octaveOffsetForIntervalCalc * 12.

Definition interval (midiPitch key : Z) : Z :=
  Z.rem (midiPitch - tonicMidi midiPitch key + 12) 12.

(** The [switch] on a chromatic interval, with its [default] branch. *)
Definition chromatic (i : Z) : option Z * Z :=
  match i with
  | 1 => (MAJOR_SCALE_INTERVALS 0, 1)
  | 3 => (MAJOR_SCALE_INTERVALS 4, 2)
  | 6 => (MAJOR_SCALE_INTERVALS 5, 1)
  | 8 => (MAJOR_SCALE_INTERVALS 9, 2)
  | 10 => (MAJOR_SCALE_INTERVALS 11, 2)
  | _ =>
      let lowerIntervalFallback := Z.rem (i - 1 + 12) 12 in
      let upperIntervalFallback := Z.rem (i + 1 + 12) 12 in
      match MAJOR_SCALE_INTERVALS lowerIntervalFallback with
      | Some d => (Some d, 1)
      | None =>
          match MAJOR_SCALE_INTERVALS upperIntervalFallback with
          | Some d => (Some d, 2)
          | None => (Some 1, 1)
          end
      end
  end.

Definition mapMidiToJianpu (midiPitch key : Z) : JianpuDetails :=
  let i := interval midiPitch key in
  let '(number, acc) :=
    match MAJOR_SCALE_INTERVALS i with
    | Some d => (d, 0)
    | None =>
        match chromatic i with
        | (Some d, a) => (d, a)
        | (None, _) => (1, 1)
        end
    end in
  mkDetails number (Math_floor_div (midiPitch - tonicMidiRef key) 12) acc.

(** The degree and accidental of a pitch, as a pair. *)
Definition spelling (midiPitch key : Z) : Z * Z :=
  let d := mapMidiToJianpu midiPitch key in (jianpuNumber d, accidental d).

(** The claim C7 as the specification words it: the reference is the
    occurrence of the tonic pitch class nearest to middle C, and the octave
    offset is the floor of the distance to it in octaves. *)
Definition nearest_tonic_occurrence (ref key : Z) : Prop :=
  ref mod 12 = key /\
  forall r, r mod 12 = key ->
    Z.abs (ref - MIDDLE_C_MIDI) <= Z.abs (r - MIDDLE_C_MIDI).

Definition tonic_reference_as_specified (key : Z) : Prop :=
  nearest_tonic_occurrence (tonicMidiRef key) key /\
  forall p, octaveDot (mapMidiToJianpu p key) = (p - tonicMidiRef key) / 12.

End Pitch.

(** ** Properties of the pitch mapper *)

Module PitchFacts.
Import Pitch.

Lemma tonicMidiRef_range (k : Z) :
  0 <= k <= 11 -> tonicMidiRef k = 60 - (12 - k) mod 12.
Proof.
  intros Hk. unfold tonicMidiRef, MIDDLE_C_MIDI.
  assert (Hc : k = 0 \/ k = 1 \/ k = 2 \/ k = 3 \/ k = 4 \/ k = 5 \/ k = 6 \/
               k = 7 \/ k = 8 \/ k = 9 \/ k = 10 \/ k = 11) by lia.
  repeat (destruct Hc as [-> | Hc]; [reflexivity |]). subst k. reflexivity.
Qed.

(** The interval computed by the source is the residue of [p - k]. *)
Lemma interval_mod (p k : Z) :
  0 <= k <= 11 -> interval p k = (p - k) mod 12.
Proof.
  intros Hk. unfold interval, tonicMidi, Math_round_div.
  rewrite (tonicMidiRef_range k Hk).
  set (r := 60 - (12 - k) mod 12).
  assert (Hr : r mod 12 = k).
  { unfold r.
    assert (Hc : k = 0 \/ k = 1 \/ k = 2 \/ k = 3 \/ k = 4 \/ k = 5 \/ k = 6 \/
                 k = 7 \/ k = 8 \/ k = 9 \/ k = 10 \/ k = 11) by lia.
    repeat (destruct Hc as [-> | Hc]; [reflexivity |]). subst k. reflexivity. }
  set (n := p - r).
  replace (2 * n + 12) with ((n + 6) * 2) by lia.
  replace (2 * 12) with (12 * 2) by lia.
  rewrite Z.div_mul_cancel_r by lia.
  set (o := (n + 6) / 12).
  assert (Hn : 12 * o <= n + 6 < 12 * o + 12).
  { unfold o. pose proof (Z.mul_div_le (n + 6) 12).
    pose proof (Z.mul_succ_div_gt (n + 6) 12). lia. }
  replace (p - (r + o * 12) + 12) with (n - 12 * o + 12) by (unfold n; lia).
  rewrite Z.rem_mod_nonneg by lia.
  replace (n - 12 * o + 12) with (p - k + (1 - o - r / 12) * 12).
  - apply Z.mod_add. lia.
  - pose proof (Z.div_mod r 12). unfold n. lia.
Qed.

Lemma interval_bounds (p k : Z) : 0 <= k <= 11 -> 0 <= interval p k <= 11.
Proof.
  intros Hk. rewrite interval_mod by exact Hk.
  pose proof (Z.mod_pos_bound (p - k) 12). lia.
Qed.

(** C4: for every integer pitch [p] and key [k] in 0..11, with [i] the
    interval from the octave-adjusted tonic to [p] (the residue of [p - k]
    modulo 12), the diatonic intervals 0, 2, 4, 5, 7, 9, 11 give the degrees
    1..7 with no accidental, and the chromatic intervals give: 1 -> degree 1
    sharp, 6 -> degree 4 sharp, 3 -> degree 3 flat, 8 -> degree 6 flat,
    10 -> degree 7 flat. *)
Theorem mapMidiToJianpu_interval_table (p k : Z) :
  0 <= k <= 11 ->
  let i := interval p k in
  i = (p - k) mod 12 /\
  (i = 0 -> spelling p k = (1, 0)) /\
  (i = 2 -> spelling p k = (2, 0)) /\
  (i = 4 -> spelling p k = (3, 0)) /\
  (i = 5 -> spelling p k = (4, 0)) /\
  (i = 7 -> spelling p k = (5, 0)) /\
  (i = 9 -> spelling p k = (6, 0)) /\
  (i = 11 -> spelling p k = (7, 0)) /\
  (i = 1 -> spelling p k = (1, 1)) /\
  (i = 6 -> spelling p k = (4, 1)) /\
  (i = 3 -> spelling p k = (3, 2)) /\
  (i = 8 -> spelling p k = (6, 2)) /\
  (i = 10 -> spelling p k = (7, 2)) /\
  (i = 0 \/ i = 1 \/ i = 2 \/ i = 3 \/ i = 4 \/ i = 5 \/ i = 6 \/ i = 7 \/
   i = 8 \/ i = 9 \/ i = 10 \/ i = 11).
Proof.
  intros Hk i.
  split; [exact (interval_mod p k Hk) |].
  unfold spelling, mapMidiToJianpu. fold i.
  repeat (split; [intros ->; reflexivity |]).
  pose proof (interval_bounds p k Hk) as Hb. fold i in Hb. lia.
Qed.

Lemma mapMidiToJianpu_interval_table_witness :
  spelling 66 7 = (7, 0).
Proof.
  assert (Hk : 0 <= 7 <= 11) by lia.
  pose proof (mapMidiToJianpu_interval_table 66 7 Hk) as H.
  cbv zeta in H.
  destruct H as (_ & _ & _ & _ & _ & _ & _ & H & _).
  apply H. reflexivity.
Defined.

(** The twelve pitches of the octave above middle C. *)
Definition chromatic_octave : list Z :=
  [60; 61; 62; 63; 64; 65; 66; 67; 68; 69; 70; 71].

(** C5, as stated: in the key of C every chromatic pitch is spelled as a
    sharp on the lower degree.  The code spells 63, 68 and 70 as flats of the
    upper degree. *)
Lemma chromatic_octave_not_all_sharps :
  map (fun p => spelling p 0) chromatic_octave <>
  [(1, 0); (1, 1); (2, 0); (2, 1); (3, 0); (4, 0); (4, 1); (5, 0); (5, 1);
   (6, 0); (6, 1); (7, 0)].
Proof. vm_compute. discriminate. Qed.

(** C5, amended: with key 0 the pitches 60..71 yield 1, 1-sharp, 2, 3-flat,
    3, 4, 4-sharp, 5, 6-flat, 6, 7-flat, 7: the chromatic pitches at the
    intervals 1 and 6 are sharps of the lower degree, those at 3, 8 and 10
    flats of the upper degree. *)
Theorem chromatic_octave_spelling :
  map (fun p => spelling p 0) chromatic_octave =
  [(1, 0); (1, 1); (2, 0); (3, 2); (3, 0); (4, 0); (4, 1); (5, 0); (6, 2);
   (6, 0); (7, 2); (7, 0)].
Proof. reflexivity. Qed.

(** C6: raising the pitch by an octave keeps the degree and the accidental
    and adds one to the octave offset. *)
Theorem mapMidiToJianpu_octave_up (p k : Z) :
  0 <= k <= 11 ->
  jianpuNumber (mapMidiToJianpu (p + 12) k) = jianpuNumber (mapMidiToJianpu p k) /\
  accidental (mapMidiToJianpu (p + 12) k) = accidental (mapMidiToJianpu p k) /\
  octaveDot (mapMidiToJianpu (p + 12) k) = octaveDot (mapMidiToJianpu p k) + 1.
Proof.
  intros Hk.
  assert (Hi : interval (p + 12) k = interval p k).
  { rewrite !interval_mod by exact Hk.
    replace (p + 12 - k) with (p - k + 1 * 12) by lia.
    apply Z.mod_add. lia. }
  unfold mapMidiToJianpu. rewrite Hi.
  destruct (MAJOR_SCALE_INTERVALS (interval p k)) as [d |];
    [| destruct (chromatic (interval p k)) as [[d |] a]];
    cbn [jianpuNumber accidental octaveDot];
    (split; [reflexivity | split; [reflexivity |]]);
    unfold Math_floor_div;
    replace (p + 12 - tonicMidiRef k) with (p - tonicMidiRef k + 1 * 12) by lia;
    apply Z.div_add; lia.
Qed.

Lemma mapMidiToJianpu_octave_up_witness :
  jianpuNumber (mapMidiToJianpu (61 + 12) 7) = jianpuNumber (mapMidiToJianpu 61 7) /\
  accidental (mapMidiToJianpu (61 + 12) 7) = accidental (mapMidiToJianpu 61 7) /\
  octaveDot (mapMidiToJianpu (61 + 12) 7) = octaveDot (mapMidiToJianpu 61 7) + 1.
Proof. apply (mapMidiToJianpu_octave_up 61 7). lia. Defined.

(** C7, as stated, fails in the key of F (and likewise for the keys 1..4):
    the reference is F3 = 53, seven semitones from middle C, while F4 = 65
    is five semitones from it. *)
Lemma tonic_reference_not_nearest : ~ tonic_reference_as_specified 5.
Proof.
  intros [[_ Hnear] _].
  specialize (Hnear 65 eq_refl). vm_compute in Hnear. apply Hnear. reflexivity.
Qed.

(** C7, amended: for every key [k] in 0..11 the reference is the highest
    occurrence of the tonic pitch class that is not above middle C (C4 for
    C, G3 for G, F3 for F), the tonic at the reference has degree 1 and
    octave offset 0, and for every pitch [p] the octave offset is
    [floor ((p - reference) / 12)]. *)
Theorem tonic_reference_at_or_below_middle_C (k : Z) :
  0 <= k <= 11 ->
  (tonicMidiRef k mod 12 = k /\ 48 < tonicMidiRef k <= 60) /\
  mapMidiToJianpu (tonicMidiRef k) k = mkDetails 1 0 0 /\
  forall p, octaveDot (mapMidiToJianpu p k) = (p - tonicMidiRef k) / 12.
Proof.
  intros Hk.
  assert (Hc : k = 0 \/ k = 1 \/ k = 2 \/ k = 3 \/ k = 4 \/ k = 5 \/ k = 6 \/
               k = 7 \/ k = 8 \/ k = 9 \/ k = 10 \/ k = 11) by lia.
  split; [| split].
  - repeat (destruct Hc as [-> | Hc]; [vm_compute; intuition discriminate |]).
    subst k. vm_compute. intuition discriminate.
  - repeat (destruct Hc as [-> | Hc]; [reflexivity |]). subst k. reflexivity.
  - intros p. unfold mapMidiToJianpu.
    destruct (MAJOR_SCALE_INTERVALS (interval p k)) as [d |];
      [| destruct (chromatic (interval p k)) as [[d |] a]]; reflexivity.
Qed.

Lemma tonic_reference_at_or_below_middle_C_witness :
  tonicMidiRef 7 = 55 /\ octaveDot (mapMidiToJianpu 54 7) = -1.
Proof.
  destruct (tonic_reference_at_or_below_middle_C 7) as (_ & _ & H); [lia |].
  split; [reflexivity |]. rewrite H. reflexivity.
Defined.

End PitchFacts.

(** ** Numbers *)

Local Open Scope Q_scope.

(** Comparisons of [number]s as booleans. *)
Definition Qltb (x y : Q) : bool := negb (Qle_bool y x).
Definition Qleb (x y : Q) : bool := Qle_bool x y.

Definition Math_max (x y : Q) : Q := if Qleb x y then y else x.
Definition Math_min (x y : Q) : Q := if Qleb x y then x else y.

(** [Math.floor] and [Math.round] (a half rounds up), as rationals. *)
Definition Math_floor (x : Q) : Q := inject_Z (Qfloor x).
Definition Math_round (x : Q) : Q := inject_Z (Qfloor (x + (1 # 2))).

(** [x % 1] of JavaScript: the fractional part, with the sign of [x]. *)
Definition rem1 (x : Q) : Q :=
  if Qltb x 0 then x + inject_Z (Qfloor (- x)) else x - inject_Z (Qfloor x).

(** The tolerance [1e-6] that the source writes out at each comparison. *)
Definition eps : Q := 1 # 1000000.

(** [MIN_RESOLUTION] of [model_constants.ts]: a sixty-fourth note. *)
Definition MIN_RESOLUTION : Q := 1 # 16.

(** [isSafeZero] of [jianpu_block.ts]. *)
Definition isSafeZero (n : Q) : bool := Qltb (Qabs n) eps.

(** ** Arrays and maps *)

(** [a[i] = f(a[i])]; nothing happens out of range (the source never
    writes out of range). *)
Fixpoint list_update {A : Type} (l : list A) (i : nat) (f : A -> A) : list A :=
  match l, i with
  | [], _ => []
  | x :: l', O => f x :: l'
  | x :: l', S i' => x :: list_update l' i' f
  end.

(** [Array.prototype.sort] with the comparator [(a, b) => key a - key b]:
    a stable sort by ascending key. *)
Fixpoint insert_by {A : Type} (key : A -> Q) (x : A) (l : list A) : list A :=
  match l with
  | [] => [x]
  | y :: l' => if Qltb (key x) (key y) then x :: l else y :: insert_by key x l'
  end.

Definition sort_by {A : Type} (key : A -> Q) (l : list A) : list A :=
  fold_left (fun acc x => insert_by key x acc) l [].

(** A [Map<number, V>]: the entries in insertion order; a key is found by
    numeric equality. *)
Module NumMap.
Section WithValue.
Context {V : Type}.

Definition t : Type := list (Q * V).

Fixpoint get (m : t) (k : Q) : option V :=
  match m with
  | [] => None
  | (k', v) :: m' => if Qeq_bool k' k then Some v else get m' k
  end.

Definition has (m : t) (k : Q) : bool :=
  match get m k with Some _ => true | None => false end.

(** [set] keeps the place of a key that is present and appends a new one. *)
Fixpoint set (m : t) (k : Q) (v : V) : t :=
  match m with
  | [] => [(k, v)]
  | (k', v') :: m' =>
      if Qeq_bool k' k then (k', v) :: m' else (k', v') :: set m' k v
  end.

Definition keys (m : t) : list Q := map fst m.
Definition values (m : t) : list V := map snd m.
End WithValue.
Arguments t : clear implicits.
End NumMap.

(** ** [jianpu_info.ts] *)

Record NoteInfo : Type := mkNoteInfo {
  ni_start : Q;
  ni_length : Q;
  ni_pitch : Z;
  ni_intensity : Z
}.

Record TempoInfo : Type := mkTempo { tempo_start : Q; qpm : Q }.

Record KeySignatureInfo : Type := mkKey { key_start : Q; key : Z }.

Record TimeSignatureInfo : Type := mkTime {
  time_start : Q;
  numerator : Z;
  denominator : Z
}.

(** An optional list that is absent is the empty list here: the source
    treats both alike. *)
Record JianpuInfo : Type := mkInfo {
  notes : list NoteInfo;
  tempos : list TempoInfo;
  keySignatures : list KeySignatureInfo;
  timeSignatures : list TimeSignatureInfo
}.

Definition DEFAULT_TEMPO : TempoInfo := mkTempo 0 60.
Definition DEFAULT_KEY_SIGNATURE : KeySignatureInfo := mkKey 0 0%Z.
Definition DEFAULT_TIME_SIGNATURE : TimeSignatureInfo := mkTime 0 4%Z 4%Z.

Definition getMeasureLength (timeSignature : TimeSignatureInfo) : Q :=
  inject_Z (numerator timeSignature) * (4 / inject_Z (denominator timeSignature)).

(** ** [measure_info.ts] *)

Record MeasureInfo : Type := mkMeasureInfo {
  mi_start : Q;
  mi_measureNumber : Q;
  mi_measureLength : Q;
  mi_tempo : TempoInfo;
  mi_keySignature : KeySignatureInfo;
  mi_timeSignature : TimeSignatureInfo;
  mi_tempoChange : bool;
  mi_keyChange : bool;
  mi_timeChange : bool
}.

Record MeasuresInfo : Type := mkMeasuresInfo {
  measuresInfo : list MeasureInfo;
  allowDottedRests : bool
}.

Module MeasuresInfoBuild.

(** The variables of the constructor's loop. *)
Record LoopState : Type := mkLoop {
  tempoIndex : nat;
  keyIndex : nat;
  timeIndex : nat;
  currentTempo : TempoInfo;
  currentKeySignature : KeySignatureInfo;
  currentTimeSignature : TimeSignatureInfo;
  measureNumberAtCurrentTimeSignature : Q;
  currentMeasureLength : Q;
  timeOfLastTimeSigChange : Q
}.

Definition resolutionStep : Q := MIN_RESOLUTION.

(** One turn of the loop at [quarters]: the chunk pushed and the state for
    the next turn. *)
Definition step (info : JianpuInfo) (quarters : Q) (s : LoopState)
  : MeasureInfo * LoopState :=
  let timeSinceLastSigChange := quarters - timeOfLastTimeSigChange s in
  let measuresPassedSinceSigChange :=
    timeSinceLastSigChange / currentMeasureLength s in
  let currentMeasureNumber :=
    measureNumberAtCurrentTimeSignature s + measuresPassedSinceSigChange in
  (* tempo *)
  let tempoHit :=
    match nth_error (tempos info) (tempoIndex s) with
    | Some t => if Qltb (Qabs (tempo_start t - quarters)) (resolutionStep / 2)
                then Some t else None
    | None => None
    end in
  let '(tempo1, tempoIndex1, tempoChange1) :=
    match tempoHit with
    | Some t => (t, S (tempoIndex s), true)
    | None => (currentTempo s, tempoIndex s, false)
    end in
  (* key signature *)
  let keyHit :=
    match nth_error (keySignatures info) (keyIndex s) with
    | Some k => if Qltb (Qabs (key_start k - quarters)) (resolutionStep / 2)
                then Some k else None
    | None => None
    end in
  let '(key1, keyIndex1, keyChange1) :=
    match keyHit with
    | Some k => (k, S (keyIndex s), true)
    | None => (currentKeySignature s, keyIndex s, false)
    end in
  (* time signature *)
  let timeHit :=
    match nth_error (timeSignatures info) (timeIndex s) with
    | Some t => if Qltb (Qabs (time_start t - quarters)) (resolutionStep / 2)
                then Some t else None
    | None => None
    end in
  match timeHit with
  | Some t =>
      let timeAtChange := time_start t in
      let timeSincePrevSigChange := timeAtChange - timeOfLastTimeSigChange s in
      let number1 :=
        measureNumberAtCurrentTimeSignature s
        + timeSincePrevSigChange / currentMeasureLength s in
      let number2 := Math_round (number1 * 1000) / 1000 in
      let length1 := getMeasureLength t in
      (mkMeasureInfo quarters number2 length1 tempo1 key1 t
         tempoChange1 keyChange1 true,
       mkLoop tempoIndex1 keyIndex1 (S (timeIndex s)) tempo1 key1 t
         number2 length1 quarters)
  | None =>
      (mkMeasureInfo quarters currentMeasureNumber (currentMeasureLength s)
         tempo1 key1 (currentTimeSignature s) tempoChange1 keyChange1 false,
       mkLoop tempoIndex1 keyIndex1 (timeIndex s) tempo1 key1
         (currentTimeSignature s) (measureNumberAtCurrentTimeSignature s)
         (currentMeasureLength s) (timeOfLastTimeSigChange s))
  end.

(** [for (quarters = 0; quarters < lastQ; quarters += resolutionStep)]. *)
Fixpoint loop (turns : nat) (info : JianpuInfo) (lastQ quarters : Q)
    (s : LoopState) : list MeasureInfo :=
  match turns with
  | O => []
  | S turns' =>
      if Qltb quarters lastQ then
        let '(chunk, s') := step info quarters s in
        chunk :: loop turns' info lastQ (Qred (quarters + resolutionStep)) s'
      else []
  end.

(** The number of turns the loop takes: the multiples of the step below
    [lastQ]. *)
Definition turns (lastQ : Q) : nat :=
  Z.to_nat (Qceiling (lastQ / resolutionStep)).

Definition init (info : JianpuInfo) : LoopState :=
  let tempo0 := nth 0 (tempos info) DEFAULT_TEMPO in
  let key0 := nth 0 (keySignatures info) DEFAULT_KEY_SIGNATURE in
  let time0 := nth 0 (timeSignatures info) DEFAULT_TIME_SIGNATURE in
  mkLoop 0 0 0 tempo0 key0 time0 1 (getMeasureLength time0) (time_start time0).

(** [new MeasuresInfo(jianpuInfo, lastQ)]; [allowDottedRests] starts [true]. *)
Definition create (info : JianpuInfo) (lastQ : Q) : MeasuresInfo :=
  mkMeasuresInfo (loop (turns lastQ) info lastQ 0 (init info)) true.

End MeasuresInfoBuild.

Definition findIndex (m : MeasuresInfo) (start : Q) : nat :=
  Z.to_nat
    (Z.max 0
       (Z.min (Z.of_nat (List.length (measuresInfo m)) - 1)
              (Qfloor (start / MIN_RESOLUTION)))).

Definition measureNumberAtQ (m : MeasuresInfo) (start : Q) : Q :=
  match nth_error (measuresInfo m) (findIndex m start) with
  | None => 1
  | Some reference =>
      let quartersAdvance := start - mi_start reference in
      let measureAdvanceSinceReference :=
        quartersAdvance / mi_measureLength reference in
      mi_measureNumber reference + measureAdvanceSinceReference
      + (1 # 1000000000)
  end.

Definition measureLengthAtQ (m : MeasuresInfo) (start : Q) : Q :=
  match nth_error (measuresInfo m) (findIndex m start) with
  | None => getMeasureLength DEFAULT_TIME_SIGNATURE
  | Some chunk => mi_measureLength chunk
  end.

Definition keySignatureAtQ (m : MeasuresInfo) (start : Q) (onlyChanges : bool)
  : Z :=
  match nth_error (measuresInfo m) (findIndex m start) with
  | None => key DEFAULT_KEY_SIGNATURE
  | Some chunk =>
      let isExactStart :=
        Qltb (Qabs (mi_start chunk - start)) (MIN_RESOLUTION / 2) in
      if negb onlyChanges || (mi_keyChange chunk && isExactStart)
      then key (mi_keySignature chunk) else (-1)%Z
  end.

Definition timeSignatureAtQ (m : MeasuresInfo) (start : Q) (onlyChanges : bool)
  : option TimeSignatureInfo :=
  match nth_error (measuresInfo m) (findIndex m start) with
  | None => Some DEFAULT_TIME_SIGNATURE
  | Some chunk =>
      let isExactStart :=
        Qltb (Qabs (mi_start chunk - start)) (MIN_RESOLUTION / 2) in
      if negb onlyChanges || (mi_timeChange chunk && isExactStart)
      then Some (mi_timeSignature chunk) else None
  end.

(** ** [jianpu_block.ts]: notes *)

(** A [JianpuNote].  The links [tiedFrom] and [tiedTo] are references to
    other notes: indices into the store. *)
Module Note.
Record t : Type := mk {
  start : Q;
  length : Q;
  pitch : Z;
  intensity : Z;
  jianpuNumber : Z;
  octaveDot : Z;
  accidental : Z;
  tiedFrom : option nat;
  tiedTo : option nat
}.

Definition set_length (v : Q) (n : t) : t :=
  mk (start n) v (pitch n) (intensity n) (jianpuNumber n) (octaveDot n)
     (accidental n) (tiedFrom n) (tiedTo n).
Definition set_tiedFrom (v : option nat) (n : t) : t :=
  mk (start n) (length n) (pitch n) (intensity n) (jianpuNumber n)
     (octaveDot n) (accidental n) v (tiedTo n).
Definition set_tiedTo (v : option nat) (n : t) : t :=
  mk (start n) (length n) (pitch n) (intensity n) (jianpuNumber n)
     (octaveDot n) (accidental n) (tiedFrom n) v.

(** What a reference that points nowhere reads as; the engine never follows
    such a reference. *)
Definition none : t := mk 0 0 0 0 0 0 0 None None.
End Note.

(** The store of the notes allocated so far; a new note gets the next
    index. *)
Definition Store : Type := list Note.t.

Definition deref (st : Store) (r : nat) : Note.t := nth r st Note.none.

Definition alloc (st : Store) (n : Note.t) : Store * nat :=
  (st ++ [n], List.length st).

(** [splitJianpuNote]: the note at [r] keeps the part before [quarters]; the
    rest is a new note, tied from it. *)
Definition splitJianpuNote (st : Store) (r : nat) (quarters : Q)
  : Store * option nat :=
  let jianpuNote := deref st r in
  let originalEnd := Note.start jianpuNote + Note.length jianpuNote in
  if Qleb quarters (Note.start jianpuNote)
     || Qleb originalEnd quarters
     || isSafeZero (originalEnd - quarters)
  then (st, None)
  else
    let remainLength := originalEnd - quarters in
    let st1 :=
      list_update st r (Note.set_length (quarters - Note.start jianpuNote)) in
    let '(st2, splitted) :=
      alloc st1
        (Note.mk quarters remainLength (Note.pitch jianpuNote)
           (Note.intensity jianpuNote) (Note.jianpuNumber jianpuNote)
           (Note.octaveDot jianpuNote) 0 (Some r) None) in
    let st3 :=
      match Note.tiedTo (deref st2 r) with
      | Some next =>
          let st' := list_update st2 splitted (Note.set_tiedTo (Some next)) in
          list_update st' next (Note.set_tiedFrom (Some splitted))
      | None => st2
      end in
    (list_update st3 r (Note.set_tiedTo (Some splitted)), Some splitted).

(** ** [jianpu_block.ts]: blocks *)

Module Block.
Record t : Type := mk {
  start : Q;
  length : Q;
  notes : list nat;
  measureNumber : Q;
  durationLines : option Z;
  augmentationDots : option Z;
  augmentationDash : option bool;
  beatBegin : option bool;
  beatEnd : option bool;
  isTieStart : option bool;
  isTieEnd : option bool
}.

(** [new JianpuBlock(start, length, notes, measureNumber)]. *)
Definition create (start length : Q) (notes : list nat) (measureNumber : Q) : t :=
  mk start length notes measureNumber None None None None None None None.

Definition set_start (v : Q) (b : t) : t :=
  mk v (length b) (notes b) (measureNumber b) (durationLines b)
     (augmentationDots b) (augmentationDash b) (beatBegin b) (beatEnd b)
     (isTieStart b) (isTieEnd b).
Definition set_length (v : Q) (b : t) : t :=
  mk (start b) v (notes b) (measureNumber b) (durationLines b)
     (augmentationDots b) (augmentationDash b) (beatBegin b) (beatEnd b)
     (isTieStart b) (isTieEnd b).
Definition set_notes (v : list nat) (b : t) : t :=
  mk (start b) (length b) v (measureNumber b) (durationLines b)
     (augmentationDots b) (augmentationDash b) (beatBegin b) (beatEnd b)
     (isTieStart b) (isTieEnd b).
Definition set_measureNumber (v : Q) (b : t) : t :=
  mk (start b) (length b) (notes b) v (durationLines b)
     (augmentationDots b) (augmentationDash b) (beatBegin b) (beatEnd b)
     (isTieStart b) (isTieEnd b).
Definition set_render (lines dots : option Z) (dash : option bool) (b : t) : t :=
  mk (start b) (length b) (notes b) (measureNumber b) lines dots dash
     (beatBegin b) (beatEnd b) (isTieStart b) (isTieEnd b).
Definition set_beatBegin (v : option bool) (b : t) : t :=
  mk (start b) (length b) (notes b) (measureNumber b) (durationLines b)
     (augmentationDots b) (augmentationDash b) v (beatEnd b)
     (isTieStart b) (isTieEnd b).
Definition set_beatEnd (v : option bool) (b : t) : t :=
  mk (start b) (length b) (notes b) (measureNumber b) (durationLines b)
     (augmentationDots b) (augmentationDash b) (beatBegin b) v
     (isTieStart b) (isTieEnd b).
Definition set_isTieStart (v : option bool) (b : t) : t :=
  mk (start b) (length b) (notes b) (measureNumber b) (durationLines b)
     (augmentationDots b) (augmentationDash b) (beatBegin b) (beatEnd b)
     v (isTieEnd b).
Definition set_isTieEnd (v : option bool) (b : t) : t :=
  mk (start b) (length b) (notes b) (measureNumber b) (durationLines b)
     (augmentationDots b) (augmentationDash b) (beatBegin b) (beatEnd b)
     (isTieStart b) v.
End Block.

(** An optional boolean property read as a condition. *)
Definition truthy (o : option bool) : bool :=
  match o with Some true => true | _ => false end.

Definition is_some {A : Type} (o : option A) : bool :=
  match o with Some _ => true | None => false end.

(** The index of the first note of [l] whose pitch is [p]. *)
Fixpoint find_pitch (st : Store) (l : list nat) (p : Z) : option nat :=
  match l with
  | [] => None
  | r :: l' =>
      if Z.eqb (Note.pitch (deref st r)) p then Some O
      else option_map S (find_pitch st l' p)
  end.

(** The least length among the notes of [l]; [None] stands for the
    [Infinity] the loop starts from. *)
Fixpoint minLength (st : Store) (l : list nat) (acc : option Q) : option Q :=
  match l with
  | [] => acc
  | r :: l' =>
      let len := Note.length (deref st r) in
      minLength st l'
        (Some (match acc with Some m => Math_min m len | None => len end))
  end.

(** The tie links of the note at [old], taken over by the note at [new]. *)
Definition relink (st : Store) (old new : nat) : Store :=
  let st1 :=
    match Note.tiedFrom (deref st old) with
    | Some prev =>
        let st' := list_update st new (Note.set_tiedFrom (Some prev)) in
        list_update st' prev (Note.set_tiedTo (Some new))
    | None => st
    end in
  match Note.tiedTo (deref st1 old) with
  | Some next =>
      let st' := list_update st1 new (Note.set_tiedTo (Some next)) in
      list_update st' next (Note.set_tiedFrom (Some new))
  | None => st1
  end.

(** [JianpuBlock.addNote]. *)
Definition addNote (st : Store) (b : Block.t) (r : nat)
  : Store * Block.t * bool :=
  let jianpuNote := deref st r in
  match Block.notes b with
  | [] =>
      (st,
       Block.set_notes [r]
         (Block.set_length (Note.length jianpuNote)
            (Block.set_start (Note.start jianpuNote) b)),
       true)
  | _ :: _ =>
      if negb (isSafeZero (Block.start b - Note.start jianpuNote))
      then (st, b, false)
      else
        let '(st1, notes1, isDuplicate, replacedDuplicate) :=
          match find_pitch st (Block.notes b) (Note.pitch jianpuNote) with
          | Some i =>
              let old := nth i (Block.notes b) O in
              if Qltb (Note.length jianpuNote) (Note.length (deref st old))
              then (relink st old r,
                    list_update (Block.notes b) i (fun _ => r), true, true)
              else (st, Block.notes b, true, false)
          | None => (st, Block.notes b ++ [r], false, false)
          end in
        let b1 := Block.set_notes notes1 b in
        let b2 :=
          match minLength st1 notes1 None with
          | Some m => Block.set_length m b1
          | None => b1
          end in
        (st1, b2, negb isDuplicate || replacedDuplicate)
  end.

(** [notes.forEach(note => block.addNote(note))]. *)
Fixpoint addNotes (st : Store) (b : Block.t) (l : list nat) : Store * Block.t :=
  match l with
  | [] => (st, b)
  | r :: l' => let '(st1, b1, _) := addNote st b r in addNotes st1 b1 l'
  end.

(** The loop of [JianpuBlock.split] over the notes of the block: a note
    that ends after the split point is split there. *)
Fixpoint splitNotes (st : Store) (l : list nat) (quarters : Q)
  : Store * list nat :=
  match l with
  | [] => (st, [])
  | r :: l' =>
      let note := deref st r in
      let noteEnd := Note.start note + Note.length note in
      let '(st1, part) :=
        if Qltb (quarters + eps) noteEnd then splitJianpuNote st r quarters
        else (st, None) in
      let '(st2, parts) := splitNotes st1 l' quarters in
      (st2, match part with Some p => p :: parts | None => parts end)
  end.

(** [JianpuBlock.split]. *)
Definition split (st : Store) (b : Block.t) (quarters : Q) (m : MeasuresInfo)
  : Store * Block.t * option Block.t :=
  let originalEnd := Block.start b + Block.length b in
  if Qleb quarters (Block.start b)
     || Qleb originalEnd quarters
     || isSafeZero (originalEnd - quarters)
  then (st, b, None)
  else
    let remainLength := originalEnd - quarters in
    let newBlockLength := quarters - Block.start b in
    let splittedBlock :=
      Block.create quarters remainLength [] (measureNumberAtQ m quarters) in
    let '(st1, notesForNewBlock) := splitNotes st (Block.notes b) quarters in
    let '(st2, splittedBlock1) := addNotes st1 splittedBlock notesForNewBlock in
    let b1 := Block.set_render None None None (Block.set_length newBlockLength b) in
    let '(b2, splittedBlock2) :=
      if truthy (Block.beatEnd b1)
      then (Block.set_beatEnd None b1, Block.set_beatEnd (Some true) splittedBlock1)
      else (b1, splittedBlock1) in
    let '(b3, splittedBlock3) :=
      if truthy (Block.isTieEnd b2)
      then (Block.set_isTieEnd None b2,
            Block.set_isTieStart (Some true) splittedBlock2)
      else (b2, splittedBlock2) in
    (st2, b3, Some splittedBlock3).

(** [this.notes.some(n => n.tiedFrom)] and [this.notes.some(n => n.tiedTo)]. *)
Definition some_tiedFrom (st : Store) (l : list nat) : bool :=
  existsb (fun r => is_some (Note.tiedFrom (deref st r))) l.
Definition some_tiedTo (st : Store) (l : list nat) : bool :=
  existsb (fun r => is_some (Note.tiedTo (deref st r))) l.

(** The split point that [splitToBeat] chooses: the next beat or the end of
    the measure, whichever comes first inside the block; with the position
    of the block in its measure and the length of a beat. *)
Record BeatContext : Type := mkBeat {
  timeInMeasure : Q;
  beatLength : Q;
  measureEndTime : Q;
  splitTime : option Q
}.

Definition beatContext (b : Block.t) (m : MeasuresInfo)
    (timeSignature : TimeSignatureInfo) : BeatContext :=
  let measureLength := measureLengthAtQ m (Block.start b) in
  let measureNum := measureNumberAtQ m (Block.start b) in
  let measureStart :=
    Block.start b - (measureNum - Math_floor measureNum) * measureLength in
  let timeInMeasure := Block.start b - measureStart in
  let beatLength := 4 / inject_Z (denominator timeSignature) in
  let startBeatFraction := timeInMeasure / beatLength in
  let currentBeatNumber := Math_floor (startBeatFraction + eps) in
  let nextBeatTimeInMeasure := (currentBeatNumber + 1) * beatLength in
  let nextBeatTimeAbsolute := measureStart + nextBeatTimeInMeasure in
  let measureEndTime := measureStart + measureLength in
  let blockEndTime := Block.start b + Block.length b in
  let splitTime1 :=
    if Qltb nextBeatTimeAbsolute (blockEndTime - eps)
       && Qltb (Block.start b + eps) nextBeatTimeAbsolute
    then Some nextBeatTimeAbsolute else None in
  let splitTime2 :=
    if Qltb measureEndTime (blockEndTime - eps)
       && Qltb (Block.start b + eps) measureEndTime
    then
      match splitTime1 with
      | None => Some measureEndTime
      | Some t => if Qltb measureEndTime t then Some measureEndTime else Some t
      end
    else splitTime1 in
  mkBeat timeInMeasure beatLength measureEndTime splitTime2.

(** [JianpuBlock.splitToBeat]. *)
Definition splitToBeat (st : Store) (b : Block.t) (m : MeasuresInfo)
  : Store * Block.t * option Block.t :=
  match timeSignatureAtQ m (Block.start b) false with
  | None => (st, b, None)
  | Some timeSignature =>
      let c := beatContext b m timeSignature in
      let startBeatFraction := timeInMeasure c / beatLength c in
      let b1 :=
        Block.set_beatBegin
          (Some (isSafeZero (startBeatFraction - Math_round startBeatFraction)))
          b in
      let blockEndTime := Block.start b1 + Block.length b1 in
      let '(st2, b2, splittedBlock) :=
        match splitTime c with
        | Some t =>
            let '(st', b', splitted) := split st b1 t m in
            (st',
             match splitted with
             | Some _ => Block.set_beatEnd (Some true) b'
             | None => b'
             end,
             splitted)
        | None =>
            let endBeatFraction :=
              (timeInMeasure c + Block.length b1) / beatLength c in
            let onBeat :=
              isSafeZero (endBeatFraction - Math_round endBeatFraction) in
            let beatEnd :=
              if onBeat then true
              else isSafeZero (blockEndTime - measureEndTime c) in
            (st, Block.set_beatEnd (Some beatEnd) b1, None)
        end in
      let b3 :=
        Block.set_isTieEnd (Some (some_tiedTo st2 (Block.notes b2)))
          (Block.set_isTieStart (Some (some_tiedFrom st2 (Block.notes b2))) b2) in
      match splittedBlock, splitTime c with
      | Some sb, Some t =>
          let sb1 :=
            Block.set_isTieEnd (Some (some_tiedTo st2 (Block.notes sb)))
              (Block.set_isTieStart
                 (Some (some_tiedFrom st2 (Block.notes sb))) sb) in
          let crossing :=
            existsb
              (fun r =>
                 let n := deref st2 r in
                 is_some (Note.tiedTo n)
                 && Qltb t (Note.start n + Note.length n))
              (Block.notes b3) in
          (st2, if crossing then Block.set_isTieEnd None b3 else b3, Some sb1)
      | _, _ => (st2, b3, splittedBlock)
      end
  end.

(** The underlines of a block by its length, the chain of comparisons of
    [calculateRenderProperties]. *)
Definition durationLinesOf (blockLength : Q) : Z :=
  if Qleb (4 - eps) blockLength then 0
  else if Qleb (2 - eps) blockLength then 0
  else if Qleb (1 - eps) blockLength then 0
  else if Qleb ((1 # 2) - eps) blockLength then 1
  else if Qleb ((1 # 4) - eps) blockLength then 2
  else if Qleb ((1 # 8) - eps) blockLength then 3
  else if Qleb ((1 # 16) - eps) blockLength then 4
  else 4.

(** The continuation dash of a block that holds the single note at [r]. *)
Definition continuationDash (st : Store) (b : Block.t) (m : MeasuresInfo)
    (timeSignature : TimeSignatureInfo) (r : nat) : bool :=
  let currentNote := deref st r in
  let beatLength := Math_max (4 / inject_Z (denominator timeSignature)) 1 in
  let isFirstBlock := Qleb (rem1 (Block.measureNumber b)) eps in
  match Note.tiedFrom currentNote with
  | Some prev =>
      if negb isFirstBlock
         && isSafeZero (Note.length (deref st prev) - beatLength)
         && Z.eqb (Note.pitch (deref st prev)) (Note.pitch currentNote)
         && Qleb 1 (Note.length currentNote)
      then
        match Note.tiedTo currentNote with
        | Some next =>
            let nextNoteStart :=
              Note.start currentNote + Note.length currentNote in
            let currentMeasure :=
              Math_floor (measureNumberAtQ m (Block.start b)) in
            let nextNoteMeasure :=
              Math_floor (measureNumberAtQ m nextNoteStart) in
            Qeq_bool currentMeasure nextNoteMeasure
            && Qleb 1 (Note.length (deref st next))
        | None => true
        end
      else false
  | None => false
  end.

(** [JianpuBlock.calculateRenderProperties]. *)
Definition calculateRenderProperties (st : Store) (b : Block.t)
    (m : MeasuresInfo) : Block.t :=
  let b0 := Block.set_render None None None b in
  let blockLength := Block.length b in
  if isSafeZero blockLength || Qltb blockLength 0 then b0
  else
    let dotted := allowDottedRests m || negb (Nat.eqb (List.length (Block.notes b)) 0) in
    if dotted && isSafeZero (blockLength - (3 # 2))
    then Block.set_render None (Some 1%Z) None b0
    else if dotted && isSafeZero (blockLength - (3 # 4))
    then Block.set_render (Some 1%Z) (Some 1%Z) None b0
    else if dotted && isSafeZero (blockLength - (3 # 8))
    then Block.set_render (Some 2%Z) (Some 1%Z) None b0
    else
      let dots :=
        if dotted && isSafeZero (blockLength - 3) then Some 1%Z else None in
      let lines := Some (durationLinesOf blockLength) in
      match Block.notes b with
      | [r] =>
          match timeSignatureAtQ m (Block.start b) false with
          | None => Block.set_render lines dots (Some false) b0
          | Some timeSignature =>
              Block.set_render lines dots
                (Some (continuationDash st b m timeSignature r)) b0
          end
      | _ => Block.set_render lines dots (Some false) b0
      end.

(** The standard lengths of [splitToStandardSymbol], longest first. *)
Definition standardLengths (dotted : bool) : list Q :=
  if dotted
  then [6; 4; 3; 2; 3 # 2; 1; 3 # 4; 1 # 2; 3 # 8; 1 # 4; 1 # 8; 1 # 16]
  else [4; 2; 1; 1 # 2; 1 # 4; 1 # 8; 1 # 16].

(** The first standard length that the block length reaches; 0 when there
    is none. *)
Fixpoint bestFit (l : list Q) (blockLength : Q) : Q :=
  match l with
  | [] => 0
  | standardLen :: l' =>
      if Qleb (standardLen - eps) blockLength then standardLen
      else bestFit l' blockLength
  end.

(** [JianpuBlock.splitToStandardSymbol]. *)
Definition splitToStandardSymbol (st : Store) (b : Block.t) (m : MeasuresInfo)
  : Store * Block.t * option Block.t :=
  let blockLength := Block.length b in
  if isSafeZero blockLength || Qltb blockLength (MIN_RESOLUTION - eps)
  then (st, b, None)
  else
    let dotted := allowDottedRests m || negb (Nat.eqb (List.length (Block.notes b)) 0) in
    let fit := bestFit (standardLengths dotted) blockLength in
    let bestFitLength := if isSafeZero fit then MIN_RESOLUTION else fit in
    if Qltb (bestFitLength + eps) blockLength
    then
      let '(st1, b1, splittedBlock) :=
        split st b (Block.start b + bestFitLength) m in
      (st1,
       if Qeq_bool (Block.length b1) bestFitLength then b1
       else Block.set_length bestFitLength b1,
       splittedBlock)
    else (st, Block.set_length bestFitLength b, None).

(** A [JianpuBlockMap]. *)
Definition JianpuBlockMap : Type := NumMap.t Block.t.

(** [JianpuBlock.mergeToMap]. *)
Definition mergeToMap (st : Store) (b : Block.t) (map : JianpuBlockMap)
  : Store * JianpuBlockMap :=
  match NumMap.get map (Block.start b) with
  | Some existingBlock =>
      let '(st1, existing1) := addNotes st existingBlock (Block.notes b) in
      let existing2 :=
        if Qeq_bool (Block.measureNumber b) 0 then existing1
        else Block.set_measureNumber (Block.measureNumber b) existing1 in
      (st1, NumMap.set map (Block.start b) existing2)
  | None => (st, NumMap.set map (Block.start b) b)
  end.

(** ** [jianpu_model.ts] *)

(** [createJianpuNote]: the note of the score with its degree, octave dots
    and accidental in the key, as a new note of the store. *)
Definition createJianpuNote (st : Store) (note : NoteInfo) (key : Z)
  : Store * nat :=
  let details := Pitch.mapMidiToJianpu (ni_pitch note) key in
  alloc st
    (Note.mk (ni_start note) (ni_length note) (ni_pitch note)
       (ni_intensity note) (Pitch.jianpuNumber details)
       (Pitch.octaveDot details) (Pitch.accidental details) None None).

(** The variables of the first loop of [infoToBlocks]. *)
Record Grouping : Type := mkGrouping {
  g_store : Store;
  rawBlocks : NumMap.t Block.t;
  lastNoteEndTime : Q
}.

(** The body of [this.jianpuInfo.notes.forEach(note => ...)]. *)
Definition groupNote (m : MeasuresInfo) (g : Grouping) (note : NoteInfo)
  : Grouping :=
  let noteStart := ni_start note in
  let measureNumber := measureNumberAtQ m noteStart in
  let raw1 :=
    if Qltb (lastNoteEndTime g + eps) noteStart
    then
      let restStart := lastNoteEndTime g in
      let restLength := noteStart - restStart in
      NumMap.set (rawBlocks g) restStart
        (Block.create restStart restLength [] (measureNumberAtQ m restStart))
    else rawBlocks g in
  let keySignatureKey := keySignatureAtQ m noteStart false in
  let '(st1, jianpuNote) := createJianpuNote (g_store g) note keySignatureKey in
  let '(block, raw2) :=
    match NumMap.get raw1 noteStart with
    | Some b => (b, raw1)
    | None =>
        let b := Block.create noteStart 0 [] measureNumber in
        (b, NumMap.set raw1 noteStart b)
    end in
  let '(st2, block1, _) := addNote st1 block jianpuNote in
  mkGrouping st2 (NumMap.set raw2 noteStart block1)
    (Math_max (lastNoteEndTime g) (noteStart + Block.length block1)).

(** The rest that fills the score after the last note. *)
Definition finalRest (m : MeasuresInfo) (lastQ : Q) (g : Grouping)
  : NumMap.t Block.t :=
  if Qltb (lastNoteEndTime g + eps) lastQ
  then
    let restStart := lastNoteEndTime g in
    let restLength := lastQ - restStart in
    if Qltb eps restLength
    then
      NumMap.set (rawBlocks g) restStart
        (Block.create restStart restLength [] (measureNumberAtQ m restStart))
    else rawBlocks g
  else rawBlocks g.

(** The queue: the raw blocks by ascending start. *)
Definition blockProcessingQueue (raw : NumMap.t Block.t) : list Block.t :=
  let sortedStartsFromRaw := sort_by (fun k => k) (NumMap.keys raw) in
  flat_map
    (fun start =>
       match NumMap.get raw start with Some b => [b] | None => [] end)
    sortedStartsFromRaw.

(** The [do ... while] loop: a block is cut into standard symbols, each
    merged into the map. *)
Fixpoint symbolLoop (fuel : nat) (m : MeasuresInfo) (st : Store)
    (map : JianpuBlockMap) (blockToSymbolSplit : Block.t)
  : option (Store * JianpuBlockMap) :=
  match fuel with
  | O => None
  | S fuel' =>
      let '(st1, b1, remainingSymbolSplit) :=
        splitToStandardSymbol st blockToSymbolSplit m in
      let '(st2, map2) := mergeToMap st1 b1 map in
      match remainingSymbolSplit with
      | Some r => symbolLoop fuel' m st2 map2 r
      | None => Some (st2, map2)
      end
  end.

(** The [while] loop over the queue: a block that is split at a beat is
    merged and its remainder goes back to the front of the queue; a block
    that is not goes through the symbol loop. *)
Fixpoint processQueue (fuel : nat) (m : MeasuresInfo) (st : Store)
    (map : JianpuBlockMap) (queue : list Block.t)
  : option (Store * JianpuBlockMap) :=
  match fuel with
  | O => None
  | S fuel' =>
      match queue with
      | [] => Some (st, map)
      | currentBlock :: queue' =>
          let '(st1, current1, remainingBeatSplit) :=
            splitToBeat st currentBlock m in
          match remainingBeatSplit with
          | Some r =>
              let '(st2, map2) := mergeToMap st1 current1 map in
              processQueue fuel' m st2 map2 (r :: queue')
          | None =>
              match symbolLoop fuel' m st1 map current1 with
              | Some (st2, map2) => processQueue fuel' m st2 map2 queue'
              | None => None
              end
          end
      end
  end.

(** The state of a [JianpuModel] after [update]; the store holds the notes
    that the blocks refer to. *)
Record JianpuModel : Type := mkModel {
  jianpuInfo : JianpuInfo;
  model_measuresInfo : MeasuresInfo;
  jianpuBlockMap : JianpuBlockMap;
  lastQ : Q;
  store : Store
}.

(** [infoToBlocks], given the notes in start order. *)
Definition infoToBlocks (fuel : nat) (m : MeasuresInfo) (lastQ : Q)
    (sorted : list NoteInfo) : option (Store * JianpuBlockMap) :=
  let g := fold_left (groupNote m) sorted (mkGrouping [] [] 0) in
  let raw := finalRest m lastQ g in
  match processQueue fuel m (g_store g) [] (blockProcessingQueue raw) with
  | Some (st, map) =>
      Some (st,
            List.map (fun kb => (fst kb, calculateRenderProperties st (snd kb) m))
              map)
  | None => None
  end.

(** [this.lastQ] as [update] computes it. *)
Definition scoreEnd (sorted : list NoteInfo) : Q :=
  fold_left (fun acc note => Math_max acc (ni_start note + ni_length note))
    sorted 0
  + eps.

(** The lists of changes, sorted, with a default when empty and a default
    at time 0 when the first change comes later. *)
Definition normalize {A : Type} (start : A -> Q) (default0 : A) (l : list A)
  : list A :=
  let l1 := match l with [] => [default0] | _ => l end in
  let l2 := sort_by start l1 in
  match l2 with
  | first :: _ => if Qltb eps (start first) then default0 :: l2 else l2
  | [] => l2
  end.

(** [JianpuModel.update], that the constructor calls. *)
Definition update (fuel : nat) (info : JianpuInfo) (defaultKey : option Z)
  : option JianpuModel :=
  let sorted := sort_by ni_start (notes info) in
  let lastQ := scoreEnd sorted in
  let startingKey :=
    match defaultKey with
    | Some k => mkKey 0 k
    | None => DEFAULT_KEY_SIGNATURE
    end in
  let info1 :=
    mkInfo sorted
      (normalize tempo_start DEFAULT_TEMPO (tempos info))
      (normalize key_start startingKey (keySignatures info))
      (normalize time_start DEFAULT_TIME_SIGNATURE (timeSignatures info)) in
  let m := MeasuresInfoBuild.create info1 lastQ in
  match infoToBlocks fuel m lastQ sorted with
  | Some (st, map) => Some (mkModel info1 m map lastQ st)
  | None => None
  end.

Definition getTotalDuration (model : JianpuModel) : Q := lastQ model.

(** The blocks of a model in the order of the map. *)
Definition blocks (model : JianpuModel) : list Block.t :=
  NumMap.values (jianpuBlockMap model).

(** ** Comparisons and stores: basic facts *)

Lemma Qleb_iff (x y : Q) : Qleb x y = true <-> x <= y.
Proof. unfold Qleb. apply Qle_bool_iff. Qed.

Lemma Qleb_false (x y : Q) : Qleb x y = false <-> y < x.
Proof.
  rewrite <- not_true_iff_false, Qleb_iff. split.
  - apply Qnot_le_lt.
  - apply Qlt_not_le.
Qed.

Lemma Qltb_iff (x y : Q) : Qltb x y = true <-> x < y.
Proof.
  unfold Qltb. rewrite negb_true_iff. apply (Qleb_false y x).
Qed.

Lemma Qltb_false (x y : Q) : Qltb x y = false <-> y <= x.
Proof.
  unfold Qltb. rewrite negb_false_iff. apply (Qleb_iff y x).
Qed.

Lemma isSafeZero_iff (n : Q) : isSafeZero n = true <-> - eps < n /\ n < eps.
Proof.
  unfold isSafeZero. rewrite Qltb_iff. apply Qabs_Qlt_condition.
Qed.

Lemma isSafeZero_false (n : Q) : isSafeZero n = false <-> n <= - eps \/ eps <= n.
Proof.
  rewrite <- not_true_iff_false, isSafeZero_iff. split.
  - intros H. destruct (Qlt_le_dec (- eps) n) as [H1 | H1]; [| now left].
    destruct (Qlt_le_dec n eps) as [H2 | H2]; [| now right].
    exfalso. apply H. split; assumption.
  - intros [H | H] [H1 H2]; lra.
Qed.

(** Turns the boolean comparisons among the hypotheses into inequalities. *)
Ltac qprop :=
  repeat match goal with
  | H : Qleb _ _ = true |- _ => apply Qleb_iff in H
  | H : Qleb _ _ = false |- _ => apply Qleb_false in H
  | H : Qltb _ _ = true |- _ => apply Qltb_iff in H
  | H : Qltb _ _ = false |- _ => apply Qltb_false in H
  | H : isSafeZero _ = true |- _ => apply isSafeZero_iff in H
  | H : isSafeZero _ = false |- _ => apply isSafeZero_false in H
  | H : (_ || _)%bool = true |- _ => apply orb_true_iff in H
  | H : (_ || _)%bool = false |- _ => apply orb_false_iff in H; destruct H
  | H : (_ && _)%bool = true |- _ => apply andb_true_iff in H; destruct H
  | H : (_ && _)%bool = false |- _ => apply andb_false_iff in H
  end.

Lemma eps_pos : 0 < eps.
Proof. reflexivity. Qed.

Section ListUpdate.
Context {A : Type}.
Implicit Types (l : list A) (f : A -> A).

Lemma list_update_length l i f :
  List.length (list_update l i f) = List.length l.
Proof.
  revert i. induction l as [| x l IH]; intros [| i]; cbn; auto.
Qed.

Lemma nth_list_update l i j f d :
  nth j (list_update l i f) d =
  if Nat.eqb j i && Nat.ltb i (List.length l) then f (nth j l d) else nth j l d.
Proof.
  revert i j.
  induction l as [| x l IH]; intros [| i] [| j]; cbn;
    rewrite ?andb_false_r; auto.
Qed.

Lemma nth_list_update_same l i f d :
  (i < List.length l)%nat -> nth i (list_update l i f) d = f (nth i l d).
Proof.
  intros H. rewrite nth_list_update, Nat.eqb_refl.
  apply Nat.ltb_lt in H. rewrite H. reflexivity.
Qed.

Lemma nth_list_update_other l i j f d :
  j <> i -> nth j (list_update l i f) d = nth j l d.
Proof.
  intros H. rewrite nth_list_update.
  apply Nat.eqb_neq in H. rewrite H. reflexivity.
Qed.

Lemma list_update_app_l l l' i f :
  (i < List.length l)%nat ->
  list_update (l ++ l') i f = list_update l i f ++ l'.
Proof.
  revert i. induction l as [| x l IH]; intros [| i] H; cbn in *; try lia; auto.
  rewrite IH by lia. reflexivity.
Qed.
End ListUpdate.

(** A field that an update leaves alone reads the same after it. *)
Lemma deref_update_field {B : Type} (field : Note.t -> B) (f : Note.t -> Note.t)
    (st : Store) (i j : nat) :
  (forall n, field (f n) = field n) ->
  field (deref (list_update st i f) j) = field (deref st j).
Proof.
  intros Hf. unfold deref. rewrite nth_list_update.
  destruct (Nat.eqb j i && Nat.ltb i (List.length st)); auto.
Qed.

Lemma deref_alloc_old (st : Store) (n : Note.t) (j : nat) :
  (j < List.length st)%nat -> deref (st ++ [n]) j = deref st j.
Proof. intros H. unfold deref. apply app_nth1. exact H. Qed.

Lemma deref_alloc_new (st : Store) (n : Note.t) :
  deref (st ++ [n]) (List.length st) = n.
Proof. unfold deref. rewrite app_nth2, Nat.sub_diag by lia. reflexivity. Qed.

(** A reference that reads a note of positive length points into the store. *)
Lemma deref_positive_in_store (st : Store) (r : nat) :
  0 < Note.length (deref st r) -> (r < List.length st)%nat.
Proof.
  intros H. destruct (Nat.lt_ge_cases r (List.length st)) as [| Hge]; [assumption |].
  unfold deref in H. rewrite nth_overflow in H by exact Hge.
  cbn in H. lra.
Qed.

(** ** Splits that do nothing, and what a split note keeps *)

(** C9: a split point at or before the start of a block, or at or after its
    end, makes [split] return no block and leave the block and every note as
    they were; likewise [splitJianpuNote] for a point that is not strictly
    inside the span of the note. *)
Theorem split_outside_span_is_noop (st : Store) (b : Block.t) (r : nat)
    (quarters : Q) (m : MeasuresInfo) :
  (quarters <= Block.start b \/ Block.start b + Block.length b <= quarters ->
   split st b quarters m = (st, b, None)) /\
  (quarters <= Note.start (deref st r) \/
   Note.start (deref st r) + Note.length (deref st r) <= quarters ->
   splitJianpuNote st r quarters = (st, None)).
Proof.
  split; intros H.
  - unfold split.
    destruct H as [H | H]; apply Qleb_iff in H; rewrite H;
      rewrite ?orb_true_r; reflexivity.
  - unfold splitJianpuNote.
    destruct H as [H | H]; apply Qleb_iff in H; rewrite H;
      rewrite ?orb_true_r; reflexivity.
Qed.

Lemma split_outside_span_is_noop_witness :
  split [Note.mk 1 2 60 100 1 0 1 None None]
        (Block.create 1 2 [0%nat] 1) 3 (mkMeasuresInfo [] true)
  = ([Note.mk 1 2 60 100 1 0 1 None None], Block.create 1 2 [0%nat] 1, None) /\
  splitJianpuNote [Note.mk 1 2 60 100 1 0 1 None None] 0 1
  = ([Note.mk 1 2 60 100 1 0 1 None None], None).
Proof.
  pose (st := [Note.mk 1 2 60 100 1 0 1 None None]).
  split.
  - apply (split_outside_span_is_noop st (Block.create 1 2 [0%nat] 1) 0 3
             (mkMeasuresInfo [] true)).
    right. cbn. lra.
  - apply (split_outside_span_is_noop st (Block.create 1 2 [0%nat] 1) 0 1
             (mkMeasuresInfo [] true)).
    left. cbn. lra.
Defined.

Lemma deref_update_same (st : Store) (i : nat) (f : Note.t -> Note.t) :
  (i < List.length st)%nat -> deref (list_update st i f) i = f (deref st i).
Proof. intros H. unfold deref. apply nth_list_update_same. exact H. Qed.

Lemma deref_update_other (st : Store) (i j : nat) (f : Note.t -> Note.t) :
  j <> i -> deref (list_update st i f) j = deref st j.
Proof. intros H. unfold deref. apply nth_list_update_other. exact H. Qed.

(** The store that [splitJianpuNote] leaves when it splits the note at [r],
    step by step as the function builds it. *)
Definition splitted_note (n : Note.t) (r : nat) (quarters : Q) : Note.t :=
  Note.mk quarters (Note.start n + Note.length n - quarters) (Note.pitch n)
    (Note.intensity n) (Note.jianpuNumber n) (Note.octaveDot n) 0 (Some r) None.

Definition store_after_split (st : Store) (r : nat) (quarters : Q) : Store :=
  let n := deref st r in
  let new := List.length st in
  let st2 :=
    list_update st r (Note.set_length (quarters - Note.start n))
    ++ [splitted_note n r quarters] in
  let st3 :=
    match Note.tiedTo n with
    | Some next =>
        list_update (list_update st2 new (Note.set_tiedTo (Some next))) next
          (Note.set_tiedFrom (Some new))
    | None => st2
    end in
  list_update st3 r (Note.set_tiedTo (Some new)).

(** [splitJianpuNote] splits exactly when the point is after the start of
    the note and at least the tolerance before its end. *)
Lemma splitJianpuNote_inside (st : Store) (r : nat) (quarters : Q) :
  Note.start (deref st r) < quarters ->
  quarters + eps <= Note.start (deref st r) + Note.length (deref st r) ->
  splitJianpuNote st r quarters
  = (store_after_split st r quarters, Some (List.length st)).
Proof.
  intros H1 H2. pose proof eps_pos as He.
  assert (Hr : (r < List.length st)%nat).
  { apply deref_positive_in_store. lra. }
  unfold splitJianpuNote.
  destruct (Qleb quarters _) eqn:E1; [qprop; lra |].
  destruct (Qleb _ quarters) eqn:E2; [qprop; lra |].
  destruct (isSafeZero _) eqn:E3; [qprop; lra |].
  cbn [orb]. unfold alloc, store_after_split, splitted_note.
  rewrite list_update_length.
  replace (Note.tiedTo
             (deref (list_update st r (Note.set_length _) ++ [_]) r))
    with (Note.tiedTo (deref st r)).
  - reflexivity.
  - rewrite deref_alloc_old by (rewrite list_update_length; exact Hr).
    rewrite deref_update_same by exact Hr. reflexivity.
Qed.

Lemma splitJianpuNote_none_or_inside (st : Store) (r : nat) (quarters : Q) :
  (splitJianpuNote st r quarters = (st, None)) \/
  (Note.start (deref st r) < quarters /\
   quarters + eps <= Note.start (deref st r) + Note.length (deref st r)).
Proof.
  unfold splitJianpuNote.
  destruct (Qleb quarters _) eqn:E1; [now left |].
  destruct (Qleb _ quarters) eqn:E2; [now left |].
  destruct (isSafeZero _) eqn:E3; [now left |].
  right. qprop. lra.
Qed.

Lemma store_after_split_length (st : Store) (r : nat) (quarters : Q) :
  List.length (store_after_split st r quarters) = S (List.length st).
Proof.
  unfold store_after_split.
  destruct (Note.tiedTo (deref st r));
    rewrite ?list_update_length, length_app, list_update_length; cbn; lia.
Qed.

(** The new note, up to its links. *)
Lemma store_after_split_new (st : Store) (r : nat) (quarters : Q) :
  (r < List.length st)%nat ->
  let n := deref st r in
  let f := deref (store_after_split st r quarters) (List.length st) in
  Note.start f = quarters /\
  Note.length f = Note.start n + Note.length n - quarters /\
  Note.pitch f = Note.pitch n /\
  Note.intensity f = Note.intensity n /\
  Note.jianpuNumber f = Note.jianpuNumber n /\
  Note.octaveDot f = Note.octaveDot n /\
  Note.accidental f = 0%Z.
Proof.
  intros Hr n f.
  assert (Hnew : forall {B : Type} (field : Note.t -> B),
             (forall v x, field (Note.set_tiedTo v x) = field x) ->
             (forall v x, field (Note.set_tiedFrom v x) = field x) ->
             field f = field (splitted_note n r quarters)).
  { intros B field Hto Hfrom. unfold f, store_after_split. fold n.
    rewrite deref_update_field by apply Hto.
    destruct (Note.tiedTo n).
    - rewrite deref_update_field by apply Hfrom.
      rewrite deref_update_field by apply Hto.
      rewrite <- (list_update_length st r (Note.set_length (quarters - Note.start n))).
      rewrite deref_alloc_new. reflexivity.
    - rewrite <- (list_update_length st r (Note.set_length (quarters - Note.start n))).
      rewrite deref_alloc_new. reflexivity. }
  repeat split; (rewrite Hnew; [reflexivity | reflexivity | reflexivity]).
Qed.

(** C10: when [splitJianpuNote] splits a note (the point is after its start
    and at least the tolerance before its end), the continuation has no
    accidental, whatever the accidental of the note, and the pitch, the
    intensity, the degree and the octave dots of the note. *)
Theorem splitJianpuNote_continuation_fields (st : Store) (r : nat) (quarters : Q) :
  Note.start (deref st r) < quarters ->
  quarters + eps <= Note.start (deref st r) + Note.length (deref st r) ->
  exists st' f,
    splitJianpuNote st r quarters = (st', Some f) /\
    Note.accidental (deref st' f) = 0%Z /\
    Note.pitch (deref st' f) = Note.pitch (deref st r) /\
    Note.intensity (deref st' f) = Note.intensity (deref st r) /\
    Note.jianpuNumber (deref st' f) = Note.jianpuNumber (deref st r) /\
    Note.octaveDot (deref st' f) = Note.octaveDot (deref st r).
Proof.
  intros H1 H2. pose proof eps_pos as He.
  assert (Hr : (r < List.length st)%nat).
  { apply deref_positive_in_store. lra. }
  exists (store_after_split st r quarters), (List.length st).
  split; [apply splitJianpuNote_inside; assumption |].
  destruct (store_after_split_new st r quarters Hr)
    as (_ & _ & Hp & Hi & Hj & Ho & Ha).
  auto.
Qed.

Lemma splitJianpuNote_continuation_fields_witness :
  exists st' f,
    splitJianpuNote [Note.mk 0 2 61 100 1 0 1 None None] 0 1 = (st', Some f) /\
    Note.accidental (deref st' f) = 0%Z /\
    Note.pitch (deref st' f) = 61%Z /\
    Note.intensity (deref st' f) = 100%Z /\
    Note.jianpuNumber (deref st' f) = 1%Z /\
    Note.octaveDot (deref st' f) = 0%Z.
Proof.
  apply (splitJianpuNote_continuation_fields
           [Note.mk 0 2 61 100 1 0 1 None None] 0 1).
  - cbn. lra.
  - cbn. unfold eps. lra.
Defined.

(** ** Fuel *)





(** ** The blocks of a model, in start order *)

Definition blocks_by_start (model : JianpuModel) : list Block.t :=
  sort_by Block.start (blocks model).


(** ** The scenario of the dotted half note *)

Definition dotted_half_score : JianpuInfo :=
  mkInfo [mkNoteInfo 0 3 67 127; mkNoteInfo (15 # 4) (1 # 4) 67 127] [] [] [].





(** ** The store after a split, note by note *)

Lemma deref_overflow (st : Store) (x : nat) :
  (List.length st <= x)%nat -> deref st x = Note.none.
Proof. intros H. unfold deref. apply nth_overflow. exact H. Qed.

Lemma deref_update (st : Store) (i x : nat) (f : Note.t -> Note.t) :
  deref (list_update st i f) x =
  if Nat.eqb x i && Nat.ltb i (List.length st) then f (deref st x) else deref st x.
Proof. unfold deref. apply nth_list_update. Qed.

Lemma deref_alloc (st : Store) (n : Note.t) (x : nat) :
  deref (st ++ [n]) x =
  if Nat.ltb x (List.length st) then deref st x
  else if Nat.eqb x (List.length st) then n else Note.none.
Proof.
  destruct (Nat.ltb x (List.length st)) eqn:E1.
  - apply Nat.ltb_lt in E1. apply deref_alloc_old. exact E1.
  - apply Nat.ltb_ge in E1.
    destruct (Nat.eqb x (List.length st)) eqn:E2.
    + apply Nat.eqb_eq in E2. subst x. apply deref_alloc_new.
    + apply Nat.eqb_neq in E2. apply deref_overflow.
      rewrite length_app. cbn. lia.
Qed.

(** Decides the comparisons of references that the lemmas above leave. *)
Ltac nat_cases :=
  repeat match goal with
  | |- context [Nat.eqb ?a ?b] =>
      let E := fresh "E" in
      destruct (Nat.eqb a b) eqn:E;
      [apply Nat.eqb_eq in E | apply Nat.eqb_neq in E]
  | |- context [Nat.ltb ?a ?b] =>
      let E := fresh "E" in
      destruct (Nat.ltb a b) eqn:E;
      [apply Nat.ltb_lt in E | apply Nat.ltb_ge in E]
  end.

(** Every note of the store after the split of the note at [r]: the new
    note, the note at [r], the note that [r] was tied to, and the others. *)
Lemma deref_store_after_split (st : Store) (r : nat) (quarters : Q) (x : nat) :
  (r < List.length st)%nat ->
  (forall next, Note.tiedTo (deref st r) = Some next ->
                (next < List.length st)%nat) ->
  let n := deref st r in
  let new := List.length st in
  deref (store_after_split st r quarters) x =
  if Nat.eqb x new then
    Note.set_tiedTo (Note.tiedTo n) (splitted_note n r quarters)
  else if Nat.eqb x r then
    Note.set_tiedTo (Some new)
      ((if match Note.tiedTo n with
            | Some next => Nat.eqb next r
            | None => false
            end
        then Note.set_tiedFrom (Some new) else fun y => y)
         (Note.set_length (quarters - Note.start n) n))
  else if match Note.tiedTo n with
          | Some next => Nat.eqb next x
          | None => false
          end
  then Note.set_tiedFrom (Some new) (deref st x)
  else deref st x.
Proof.
  intros Hr Hnext n new. unfold store_after_split. fold n. fold new.
  destruct (Note.tiedTo n) as [next |] eqn:En.
  - specialize (Hnext next En).
    rewrite !deref_update, deref_alloc, deref_update.
    rewrite !list_update_length, length_app, list_update_length.
    cbn [List.length]. fold new. fold n.
    nat_cases; subst; try lia; try reflexivity;
      try (rewrite deref_overflow by lia; reflexivity).
  - rewrite !deref_update, deref_alloc, deref_update.
    rewrite ?list_update_length, length_app, list_update_length.
    cbn [List.length]. fold new. fold n.
    nat_cases; subst; try lia; try reflexivity;
      try (rewrite deref_overflow by lia; reflexivity).
Qed.

(** ** What the splitting functions return, case by case *)

(** [split] either does nothing or cuts the block at [quarters]: the notes
    that cross are split and their continuations added to the new block. *)
Lemma split_cases (st : Store) (b : Block.t) (quarters : Q) (m : MeasuresInfo)
    (st' : Store) (h : Block.t) (ot : option Block.t) :
  split st b quarters m = (st', h, ot) ->
  (ot = None /\ st' = st /\ h = b) \/
  (Block.start b < quarters /\
   quarters + eps <= Block.start b + Block.length b /\
   exists st1 frags t0 t,
     ot = Some t /\
     splitNotes st (Block.notes b) quarters = (st1, frags) /\
     addNotes st1
       (Block.create quarters (Block.start b + Block.length b - quarters) []
          (measureNumberAtQ m quarters)) frags = (st', t0) /\
     Block.start h = Block.start b /\
     Block.length h = quarters - Block.start b /\
     Block.notes h = Block.notes b /\
     Block.start t = Block.start t0 /\
     Block.length t = Block.length t0 /\
     Block.notes t = Block.notes t0).
Proof.
  unfold split. intros Hres.
  destruct (Qleb quarters (Block.start b)) eqn:E1;
    [left; inversion Hres; auto |].
  destruct (Qleb (Block.start b + Block.length b) quarters) eqn:E2;
    [left; inversion Hres; auto |].
  destruct (isSafeZero (Block.start b + Block.length b - quarters)) eqn:E3;
    [left; inversion Hres; auto |].
  cbn [orb] in Hres. right. qprop.
  split; [lra |]. split; [destruct E3; lra |].
  destruct (splitNotes st (Block.notes b) quarters) as [st1 frags] eqn:Esn.
  destruct (addNotes st1 _ frags) as [st2 t0] eqn:Ea.
  exists st1, frags, t0.
  destruct (truthy (Block.beatEnd _)); destruct (truthy (Block.isTieEnd _));
    inversion Hres; subst; eexists; repeat split; first [reflexivity | assumption].
Qed.

(** The split point that [splitToBeat] chooses lies inside the block, more
    than the tolerance away from both ends. *)
Lemma beatContext_splitTime (b : Block.t) (m : MeasuresInfo)
    (ts : TimeSignatureInfo) (t : Q) :
  splitTime (beatContext b m ts) = Some t ->
  Block.start b + eps < t /\ t < Block.start b + Block.length b - eps.
Proof.
  unfold beatContext. cbn [splitTime].
  set (nb := _ + _ * _). set (me := _ + measureLengthAtQ m (Block.start b)).
  destruct (Qltb nb _ && Qltb _ nb)%bool eqn:E1;
    destruct (Qltb me _ && Qltb _ me)%bool eqn:E2;
    try destruct (Qltb me nb) eqn:E3;
    intros Hres; inversion Hres; subst; qprop; split; assumption.
Qed.

Lemma splitToBeat_none (st : Store) (c : Block.t) (m : MeasuresInfo)
    (st' : Store) (c' : Block.t) :
  splitToBeat st c m = (st', c', None) ->
  st' = st /\
  Block.start c' = Block.start c /\
  Block.length c' = Block.length c /\
  Block.notes c' = Block.notes c.
Proof.
  unfold splitToBeat.
  destruct (timeSignatureAtQ m (Block.start c) false) as [ts |];
    [| intros Hres; inversion Hres; auto].
  destruct (splitTime (beatContext c m ts)) as [t |] eqn:Et.
  - destruct (split st _ t m) as [[st1 h] ot] eqn:Es.
    destruct (split_cases _ _ _ _ _ _ _ Es) as [(-> & -> & ->) | (_ & _ & Hx)].
    + intros Hres. inversion Hres. auto.
    + destruct Hx as (st2 & frags & t0 & tl & -> & _).
      destruct (existsb _ _); intros Hres; inversion Hres.
  - intros Hres. inversion Hres. auto.
Qed.

Lemma splitToBeat_some (st : Store) (c : Block.t) (m : MeasuresInfo)
    (st' : Store) (c' r : Block.t) :
  splitToBeat st c m = (st', c', Some r) ->
  exists quarters c1 h t,
    Block.start c + eps < quarters /\
    quarters < Block.start c + Block.length c - eps /\
    Block.start c1 = Block.start c /\
    Block.length c1 = Block.length c /\
    Block.notes c1 = Block.notes c /\
    split st c1 quarters m = (st', h, Some t) /\
    Block.start c' = Block.start h /\
    Block.length c' = Block.length h /\
    Block.notes c' = Block.notes h /\
    Block.start r = Block.start t /\
    Block.length r = Block.length t /\
    Block.notes r = Block.notes t.
Proof.
  unfold splitToBeat.
  destruct (timeSignatureAtQ m (Block.start c) false) as [ts |];
    [| intros Hres; inversion Hres].
  destruct (splitTime (beatContext c m ts)) as [t |] eqn:Et;
    [| intros Hres; inversion Hres].
  destruct (beatContext_splitTime _ _ _ _ Et) as [Ht1 Ht2].
  destruct (split st _ t m) as [[st1 h] ot] eqn:Es.
  destruct ot as [tl |]; [| intros Hres; inversion Hres].
  intros Hres.
  exists t, (Block.set_beatBegin
               (Some (isSafeZero
                        (timeInMeasure (beatContext c m ts)
                         / beatLength (beatContext c m ts)
                         - Math_round
                             (timeInMeasure (beatContext c m ts)
                              / beatLength (beatContext c m ts))))) c), h, tl.
  destruct (existsb _ _); inversion Hres; subst;
    repeat split; try reflexivity; try assumption.
Qed.

Lemma bestFit_bounds (l : list Q) (blockLength : Q) :
  Forall (fun x => MIN_RESOLUTION <= x) l ->
  bestFit l blockLength = 0 \/
  (MIN_RESOLUTION <= bestFit l blockLength /\
   bestFit l blockLength - eps <= blockLength).
Proof.
  induction 1 as [| x l Hx Hl IH]; cbn; [now left |].
  destruct (Qleb (x - eps) blockLength) eqn:E; [| exact IH].
  right. qprop. split; assumption.
Qed.

Lemma standardLengths_min (dotted : bool) :
  Forall (fun x => MIN_RESOLUTION <= x) (standardLengths dotted).
Proof.
  destruct dotted; cbn; repeat constructor; unfold MIN_RESOLUTION; lra.
Qed.

(** The length that [splitToStandardSymbol] settles on. *)
Definition bestFitLength (b : Block.t) (m : MeasuresInfo) : Q :=
  let dotted :=
    (allowDottedRests m || negb (Nat.eqb (List.length (Block.notes b)) 0))%bool in
  let fit := bestFit (standardLengths dotted) (Block.length b) in
  if isSafeZero fit then MIN_RESOLUTION else fit.

Lemma bestFitLength_bounds (b : Block.t) (m : MeasuresInfo) :
  MIN_RESOLUTION - eps <= Block.length b ->
  MIN_RESOLUTION <= bestFitLength b m /\
  bestFitLength b m - eps <= Block.length b.
Proof.
  intros Hlen. unfold bestFitLength.
  set (l := standardLengths _).
  destruct (bestFit_bounds l (Block.length b) (standardLengths_min _))
    as [E | [H1 H2]].
  - rewrite E. cbn. split; [lra | exact Hlen].
  - destruct (isSafeZero (bestFit l (Block.length b))) eqn:Ez.
    + qprop. unfold MIN_RESOLUTION, eps in *. lra.
    + split; assumption.
Qed.

Lemma splitToStandardSymbol_none (st : Store) (c : Block.t) (m : MeasuresInfo)
    (st' : Store) (c' : Block.t) :
  splitToStandardSymbol st c m = (st', c', None) ->
  st' = st /\
  Block.start c' = Block.start c /\
  Block.notes c' = Block.notes c /\
  (Block.length c' = Block.length c \/
   (MIN_RESOLUTION <= Block.length c' /\
    Block.length c - eps <= Block.length c' /\
    Block.length c' <= Block.length c + eps)).
Proof.
  unfold splitToStandardSymbol. fold (bestFitLength c m).
  destruct (isSafeZero (Block.length c) || Qltb (Block.length c) _)%bool eqn:E0;
    [intros Hres; inversion Hres; auto |].
  qprop.
  assert (Hmin : MIN_RESOLUTION - eps <= Block.length c) by lra.
  destruct (bestFitLength_bounds c m Hmin) as [Hb1 Hb2].
  destruct (Qltb (bestFitLength c m + eps) (Block.length c)) eqn:E1.
  - destruct (split st c _ m) as [[st1 h] ot] eqn:Es.
    destruct (split_cases _ _ _ _ _ _ _ Es) as [(-> & -> & ->) | (_ & _ & Hx)].
    + exfalso. qprop. unfold split in Es.
      destruct (Qleb _ (Block.start c)) eqn:G1;
        [qprop; unfold MIN_RESOLUTION in *; lra |].
      destruct (Qleb (Block.start c + Block.length c) _) eqn:G2;
        [qprop; lra |].
      destruct (isSafeZero _) eqn:G3; [qprop; lra |].
      cbn [orb] in Es.
      destruct (splitNotes _ _ _), (addNotes _ _ _).
      destruct (truthy _), (truthy _); inversion Es.
    + destruct Hx as (st2 & frags & t0 & tl & -> & _).
      destruct (Qeq_bool _ _); intros Hres; inversion Hres.
  - intros Hres. inversion Hres. subst. cbn.
    repeat split; try reflexivity.
    right. qprop. repeat split; lra.
Qed.

Lemma splitToStandardSymbol_some (st : Store) (c : Block.t) (m : MeasuresInfo)
    (st' : Store) (c' r : Block.t) :
  splitToStandardSymbol st c m = (st', c', Some r) ->
  exists quarters h,
    Block.start c + MIN_RESOLUTION <= quarters /\
    quarters < Block.start c + Block.length c - eps /\
    split st c quarters m = (st', h, Some r) /\
    Block.start c' = Block.start h /\
    Block.length c' == Block.length h /\
    Block.notes c' = Block.notes h.
Proof.
  unfold splitToStandardSymbol. fold (bestFitLength c m).
  destruct (isSafeZero (Block.length c) || Qltb (Block.length c) _)%bool eqn:E0;
    [intros Hres; inversion Hres |].
  qprop.
  assert (Hmin : MIN_RESOLUTION - eps <= Block.length c) by lra.
  destruct (bestFitLength_bounds c m Hmin) as [Hb1 Hb2].
  destruct (Qltb (bestFitLength c m + eps) (Block.length c)) eqn:E1;
    [| intros Hres; inversion Hres].
  destruct (split st c _ m) as [[st1 h] ot] eqn:Es.
  intros Hres.
  exists (Block.start c + bestFitLength c m), h.
  qprop.
  split; [lra |]. split; [lra |].
  destruct (split_cases _ _ _ _ _ _ _ Es) as [(-> & -> & ->) | (_ & _ & Hx)];
    [destruct (Qeq_bool _ _); inversion Hres |].
  destruct Hx as (st2 & frags & t0 & tl & -> & _ & _ & Hs & Hl & Hn & _).
  destruct (Qeq_bool (Block.length h) (bestFitLength c m)) eqn:Eq;
    inversion Hres; subst; cbn [Block.start Block.length Block.notes Block.set_length];
    (split; [exact Es | split; [reflexivity | split; [| reflexivity]]]).
  - reflexivity.
  - rewrite Hl. ring.
Qed.

(** ** Starts, lengths and pitches in the store *)

(** Two stores with the same notes up to their tie links. *)
Definition same_shape (st st' : Store) : Prop :=
  List.length st' = List.length st /\
  forall x,
    Note.start (deref st' x) = Note.start (deref st x) /\
    Note.length (deref st' x) = Note.length (deref st x) /\
    Note.pitch (deref st' x) = Note.pitch (deref st x).

Lemma same_shape_refl (st : Store) : same_shape st st.
Proof. split; auto. Qed.

Lemma same_shape_trans (st1 st2 st3 : Store) :
  same_shape st1 st2 -> same_shape st2 st3 -> same_shape st1 st3.
Proof.
  intros [L1 H1] [L2 H2]. split; [congruence |].
  intros x. destruct (H1 x) as (? & ? & ?), (H2 x) as (? & ? & ?).
  repeat split; congruence.
Qed.

Lemma same_shape_update_links (st : Store) (i : nat) (f : Note.t -> Note.t) :
  (forall n, Note.start (f n) = Note.start n) ->
  (forall n, Note.length (f n) = Note.length n) ->
  (forall n, Note.pitch (f n) = Note.pitch n) ->
  same_shape st (list_update st i f).
Proof.
  intros Hs Hl Hp. split; [apply list_update_length |].
  intros x. repeat split; apply deref_update_field; assumption.
Qed.

Lemma relink_same_shape (st : Store) (old new : nat) :
  same_shape st (relink st old new).
Proof.
  unfold relink.
  destruct (Note.tiedFrom (deref st old)) as [prev |].
  - match goal with
    | |- context [Note.tiedTo (deref ?s old)] =>
        assert (H1 : same_shape st s)
          by (eapply same_shape_trans; apply same_shape_update_links; reflexivity);
        destruct (Note.tiedTo (deref s old))
    end; [| exact H1].
    eapply same_shape_trans; [exact H1 |].
    eapply same_shape_trans; apply same_shape_update_links; reflexivity.
  - destruct (Note.tiedTo (deref st old)); [| apply same_shape_refl].
    eapply same_shape_trans; apply same_shape_update_links; reflexivity.
Qed.

(** The starts, lengths and pitches after the split of the note at [r]. *)
Lemma store_after_split_shape (st : Store) (r : nat) (quarters : Q) (x : nat) :
  (r < List.length st)%nat ->
  let n := deref st r in
  let st' := store_after_split st r quarters in
  Note.start (deref st' x) =
    (if Nat.eqb x (List.length st) then quarters else Note.start (deref st x)) /\
  Note.pitch (deref st' x) =
    (if Nat.eqb x (List.length st) then Note.pitch n
     else Note.pitch (deref st x)) /\
  Note.length (deref st' x) =
    (if Nat.eqb x (List.length st)
     then Note.start n + Note.length n - quarters
     else if Nat.eqb x r then quarters - Note.start n
     else Note.length (deref st x)).
Proof.
  intros Hr n st'.
  assert (Hf : forall {B : Type} (field : Note.t -> B),
             (forall v y, field (Note.set_tiedTo v y) = field y) ->
             (forall v y, field (Note.set_tiedFrom v y) = field y) ->
             field (deref st' x) =
             field (deref (list_update st r
                             (Note.set_length (quarters - Note.start n))
                           ++ [splitted_note n r quarters]) x)).
  { intros B field Hto Hfrom. unfold st', store_after_split. fold n.
    rewrite deref_update_field by apply Hto.
    destruct (Note.tiedTo n); [| reflexivity].
    rewrite deref_update_field by apply Hfrom.
    rewrite deref_update_field by apply Hto. reflexivity. }
  rewrite !Hf by reflexivity.
  rewrite deref_alloc, deref_update, list_update_length.
  nat_cases; subst; try lia; cbn; auto.
  - rewrite deref_overflow by lia. auto.
Qed.

(** Every note of the store ends at or before [bound]. *)
Definition store_bounded (st : Store) (bound : Q) : Prop :=
  forall x, (x < List.length st)%nat ->
    Note.start (deref st x) + Note.length (deref st x) <= bound.

Lemma same_shape_bounded (st st' : Store) (bound : Q) :
  same_shape st st' -> store_bounded st bound -> store_bounded st' bound.
Proof.
  intros [Hl Hs] Hb x Hx. destruct (Hs x) as (-> & -> & _).
  apply Hb. lia.
Qed.

(** A store that grew out of another: the old notes keep their start and
    pitch and do not get longer. *)
Definition store_ext (st st' : Store) : Prop :=
  (List.length st <= List.length st')%nat /\
  forall x, (x < List.length st)%nat ->
    Note.start (deref st' x) = Note.start (deref st x) /\
    Note.pitch (deref st' x) = Note.pitch (deref st x) /\
    Note.length (deref st' x) <= Note.length (deref st x).

Lemma store_ext_refl (st : Store) : store_ext st st.
Proof. split; [lia |]. intros x _. repeat split; lra. Qed.

Lemma store_ext_trans (st1 st2 st3 : Store) :
  store_ext st1 st2 -> store_ext st2 st3 -> store_ext st1 st3.
Proof.
  intros [L1 H1] [L2 H2]. split; [lia |].
  intros x Hx. destruct (H1 x Hx) as (? & ? & ?).
  destruct (H2 x) as (? & ? & ?); [lia |].
  repeat split; try congruence. lra.
Qed.

Lemma same_shape_ext (st st' : Store) : same_shape st st' -> store_ext st st'.
Proof.
  intros [Hl Hs]. split; [lia |].
  intros x _. destruct (Hs x) as (-> & -> & ->). repeat split; lra.
Qed.

(** What [splitJianpuNote] does to the shape of the store. *)
Lemma splitJianpuNote_shape (st : Store) (r : nat) (quarters : Q)
    (st' : Store) (o : option nat) :
  splitJianpuNote st r quarters = (st', o) ->
  match o with
  | None => st' = st
  | Some f =>
      f = List.length st /\ List.length st' = S (List.length st) /\
      (r < List.length st)%nat /\
      Note.start (deref st r) < quarters /\
      quarters + eps <= Note.start (deref st r) + Note.length (deref st r) /\
      st' = store_after_split st r quarters
  end.
Proof.
  intros H.
  destruct (splitJianpuNote_none_or_inside st r quarters) as [E | [H1 H2]].
  - rewrite E in H. inversion H. reflexivity.
  - rewrite (splitJianpuNote_inside st r quarters H1 H2) in H.
    inversion H. subst.
    pose proof eps_pos.
    repeat split; auto using store_after_split_length.
    apply deref_positive_in_store. lra.
Qed.

Lemma store_after_split_ext (st : Store) (r : nat) (quarters : Q) :
  (r < List.length st)%nat ->
  Note.start (deref st r) < quarters ->
  quarters <= Note.start (deref st r) + Note.length (deref st r) ->
  store_ext st (store_after_split st r quarters).
Proof.
  intros Hr H1 H2. split; [rewrite store_after_split_length; lia |].
  intros x Hx.
  destruct (store_after_split_shape st r quarters x Hr) as (Hs & Hp & Hl).
  rewrite Hs, Hp, Hl.
  assert (Nat.eqb x (List.length st) = false) as -> by (apply Nat.eqb_neq; lia).
  repeat split.
  destruct (Nat.eqb x r) eqn:E; [apply Nat.eqb_eq in E; subst; lra | lra].
Qed.

Lemma store_after_split_bounded (st : Store) (r : nat) (quarters bound : Q) :
  (r < List.length st)%nat ->
  Note.start (deref st r) < quarters ->
  quarters <= Note.start (deref st r) + Note.length (deref st r) ->
  store_bounded st bound ->
  store_bounded (store_after_split st r quarters) bound.
Proof.
  intros Hr H1 H2 Hb x Hx. rewrite store_after_split_length in Hx.
  destruct (store_after_split_shape st r quarters x Hr) as (Hs & _ & Hl).
  rewrite Hs, Hl. pose proof (Hb r Hr).
  destruct (Nat.eqb x (List.length st)) eqn:E1; [lra |].
  apply Nat.eqb_neq in E1.
  destruct (Nat.eqb x r) eqn:E2.
  - apply Nat.eqb_eq in E2. subst. lra.
  - apply Hb. lia.
Qed.

(** The loop of [split] over the notes: the store grows, and every
    continuation is a new note that starts at the split point. *)
Lemma splitNotes_spec (l : list nat) (quarters : Q) :
  forall (st st' : Store) (frags : list nat),
  splitNotes st l quarters = (st', frags) ->
  store_ext st st' /\
  (forall bound, store_bounded st bound -> store_bounded st' bound) /\
  (forall f, In f frags ->
     (List.length st <= f < List.length st')%nat /\
     Note.start (deref st' f) = quarters).
Proof.
  induction l as [| r l IH]; intros st st' frags H; cbn in H.
  - inversion H. subst. split; [apply store_ext_refl |].
    split; [auto |]. intros f [].
  - set (o := if Qltb (quarters + eps) _ then _ else _) in H.
    destruct o as [st1 part] eqn:Eo.
    destruct (splitNotes st1 l quarters) as [st2 parts] eqn:E2.
    inversion H. subst st2 frags. clear H.
    destruct (IH _ _ _ E2) as (Hext & Hbd & Hfr).
    assert (Hstep :
      match part with
      | None => st1 = st
      | Some f =>
          f = List.length st /\ List.length st1 = S (List.length st) /\
          (r < List.length st)%nat /\
          Note.start (deref st r) < quarters /\
          quarters + eps <= Note.start (deref st r) + Note.length (deref st r) /\
          st1 = store_after_split st r quarters
      end).
    { unfold o in Eo.
      destruct (Qltb (quarters + eps) _).
      - apply (splitJianpuNote_shape _ _ _ _ _ Eo).
      - inversion Eo. reflexivity. }
    pose proof eps_pos as He.
    destruct part as [f |].
    + destruct Hstep as (-> & Hlen & Hr & H1 & H2 & ->).
      assert (Hext1 : store_ext st (store_after_split st r quarters))
        by (apply store_after_split_ext; [assumption | assumption | lra]).
      split; [eapply store_ext_trans; eassumption |].
      split.
      * intros bound Hb. apply Hbd.
        apply store_after_split_bounded; [assumption | assumption | lra | assumption].
      * intros f [<- | Hin].
        -- destruct Hext as [Hl2 Hx2].
           split; [lia |].
           destruct (Hx2 (List.length st)) as (-> & _); [lia |].
           destruct (store_after_split_shape st r quarters (List.length st) Hr)
             as (-> & _).
           rewrite Nat.eqb_refl. reflexivity.
        -- destruct (Hfr f Hin) as [Hlf Hsf]. split; [lia | exact Hsf].
    + subst st1. split; [exact Hext |]. split; [exact Hbd |]. exact Hfr.
Qed.

(** ** Adding notes to a block *)

Lemma Math_min_le_l (x y : Q) : Math_min x y <= x.
Proof. unfold Math_min. destruct (Qleb x y) eqn:E; qprop; lra. Qed.

Lemma Math_min_le_r (x y : Q) : Math_min x y <= y.
Proof. unfold Math_min. destruct (Qleb x y) eqn:E; qprop; lra. Qed.

Lemma Math_max_ge_l (x y : Q) : x <= Math_max x y.
Proof. unfold Math_max. destruct (Qleb x y) eqn:E; qprop; lra. Qed.

Lemma Math_max_ge_r (x y : Q) : y <= Math_max x y.
Proof. unfold Math_max. destruct (Qleb x y) eqn:E; qprop; lra. Qed.

Lemma Math_max_cases (x y : Q) :
  (x <= y /\ Math_max x y = y) \/ (y < x /\ Math_max x y = x).
Proof. unfold Math_max. destruct (Qleb x y) eqn:E; qprop; auto. Qed.

Lemma minLength_le (st : Store) (l : list nat) :
  forall acc m,
  minLength st l acc = Some m ->
  (forall r, In r l -> m <= Note.length (deref st r)) /\
  (forall a, acc = Some a -> m <= a).
Proof.
  induction l as [| x l IH]; intros acc m H; cbn in H.
  - subst acc. split; [intros r [] |]. intros a Ha. inversion Ha. lra.
  - destruct (IH _ _ H) as [H1 H2]. split.
    + intros r [<- | Hr]; [| auto].
      destruct acc as [a |]; specialize (H2 _ eq_refl); [| lra].
      pose proof (Math_min_le_r a (Note.length (deref st x))). lra.
    + intros a ->. specialize (H2 _ eq_refl).
      pose proof (Math_min_le_l a (Note.length (deref st x))). lra.
Qed.

Lemma minLength_some (st : Store) (l : list nat) :
  forall acc, l <> [] \/ acc <> None -> exists m, minLength st l acc = Some m.
Proof.
  induction l as [| x l IH]; intros acc H; cbn.
  - destruct H as [H | H]; [congruence |].
    destruct acc as [a |]; [eauto | congruence].
  - apply IH. right. discriminate.
Qed.

Lemma In_list_update {A : Type} (l : list A) (i : nat) (f : A -> A) (x : A) :
  In x (list_update l i f) -> In x l \/ exists y, In y l /\ x = f y.
Proof.
  revert i. induction l as [| a l IH]; intros [| i]; cbn; auto.
  - intros [<- | H]; eauto.
  - intros [<- | H]; auto.
    destruct (IH _ H) as [H1 | (y & Hy & ->)]; eauto.
Qed.

Lemma list_update_not_nil {A : Type} (l : list A) (i : nat) (f : A -> A) :
  l <> [] -> list_update l i f <> [].
Proof. destruct l, i; cbn; congruence. Qed.

Lemma find_pitch_spec (st : Store) (l : list nat) (p : Z) (i : nat) :
  find_pitch st l p = Some i ->
  (i < List.length l)%nat /\
  In (nth i l O) l /\ Note.pitch (deref st (nth i l O)) = p.
Proof.
  revert i. induction l as [| r l IH]; intros i H; cbn in H; [discriminate |].
  destruct (Z.eqb (Note.pitch (deref st r)) p) eqn:E.
  - inversion H. subst. apply Z.eqb_eq in E. cbn. auto with arith.
  - destruct (find_pitch st l p) as [k |]; [| discriminate].
    inversion H. subst. destruct (IH k eq_refl) as (H1 & H2 & H3).
    cbn. auto with arith.
Qed.

(** The store after [addNote]: as before, or with the links of a longer
    note of the same pitch handed over to the new note. *)
Lemma addNote_store (st : Store) (b : Block.t) (j : nat)
    (st' : Store) (b' : Block.t) (ok : bool) :
  addNote st b j = (st', b', ok) ->
  st' = st \/
  (exists old,
     In old (Block.notes b) /\
     Note.pitch (deref st old) = Note.pitch (deref st j) /\
     Note.length (deref st j) < Note.length (deref st old) /\
     isSafeZero (Block.start b - Note.start (deref st j)) = true /\
     st' = relink st old j).
Proof.
  unfold addNote. intros H.
  destruct (Block.notes b) as [| r0 l0] eqn:En; [inversion H; auto |].
  destruct (isSafeZero _) eqn:Ez; cbn [negb] in H; [| inversion H; auto].
  destruct (find_pitch st (r0 :: l0) _) as [i |] eqn:Ef.
  - destruct (find_pitch_spec _ _ _ _ Ef) as (Hi & Hin & Hp).
    destruct (Qltb _ _) eqn:El.
    + destruct (minLength _ _ _); inversion H; subst.
      * right. exists (nth i (r0 :: l0) O). qprop. auto.
      * right. exists (nth i (r0 :: l0) O). qprop. auto.
    + destruct (minLength _ _ _); inversion H; auto.
  - destruct (minLength _ _ _); inversion H; auto.
Qed.

Lemma addNote_same_shape (st : Store) (b : Block.t) (j : nat)
    (st' : Store) (b' : Block.t) (ok : bool) :
  addNote st b j = (st', b', ok) -> same_shape st st'.
Proof.
  intros H. destruct (addNote_store _ _ _ _ _ _ H) as [-> | (old & _ & _ & _ & _ & ->)].
  - apply same_shape_refl.
  - apply relink_same_shape.
Qed.

(** The block after [addNote], when the block was a rest. *)
Lemma addNote_empty (st : Store) (b : Block.t) (j : nat) :
  Block.notes b = [] ->
  addNote st b j =
  (st,
   Block.set_notes [j]
     (Block.set_length (Note.length (deref st j))
        (Block.set_start (Note.start (deref st j)) b)),
   true).
Proof. intros H. unfold addNote. rewrite H. reflexivity. Qed.

Lemma addNote_finish (st1 : Store) (notes1 : list nat) (b : Block.t) :
  notes1 <> [] ->
  let b2 :=
    match minLength st1 notes1 None with
    | Some m => Block.set_length m (Block.set_notes notes1 b)
    | None => Block.set_notes notes1 b
    end in
  Block.start b2 = Block.start b /\
  Block.notes b2 = notes1 /\
  forall r, In r notes1 -> Block.length b2 <= Note.length (deref st1 r).
Proof.
  intros Hnn.
  destruct (minLength_some st1 notes1 None (or_introl Hnn)) as [mn Hmn].
  rewrite Hmn. cbn. repeat split. apply (minLength_le _ _ _ _ Hmn).
Qed.

(** The block after [addNote], when it held notes: the start stays, the
    notes are among the old ones and the new one, and unless the note was
    turned away the length is at most that of every note. *)
Lemma addNote_nonempty (st : Store) (b : Block.t) (j : nat)
    (st' : Store) (b' : Block.t) (ok : bool) :
  Block.notes b <> [] ->
  addNote st b j = (st', b', ok) ->
  Block.start b' = Block.start b /\
  incl (Block.notes b') (j :: Block.notes b) /\
  Block.notes b' <> [] /\
  ((b' = b /\ st' = st /\
    isSafeZero (Block.start b - Note.start (deref st j)) = false) \/
   (isSafeZero (Block.start b - Note.start (deref st j)) = true /\
    forall r, In r (Block.notes b') ->
      Block.length b' <= Note.length (deref st' r))).
Proof.
  unfold addNote. intros Hne H.
  destruct (Block.notes b) as [| r0 l0] eqn:En; [congruence |].
  rewrite <- En in *.
  destruct (isSafeZero _) eqn:Ez; cbn [negb] in H.
  2:{ inversion H. subst.
      repeat split; auto using incl_tl, incl_refl. }
  assert (Hfin : forall st1 notes1 ok1,
             incl notes1 (j :: Block.notes b) -> notes1 <> [] ->
             (st1,
              match minLength st1 notes1 None with
              | Some m => Block.set_length m (Block.set_notes notes1 b)
              | None => Block.set_notes notes1 b
              end, ok1) = (st', b', ok) ->
             Block.start b' = Block.start b /\
             incl (Block.notes b') (j :: Block.notes b) /\
             Block.notes b' <> [] /\
             forall r, In r (Block.notes b') ->
               Block.length b' <= Note.length (deref st' r)).
  { intros st1 notes1 ok1 Hincl Hnn Heq.
    destruct (addNote_finish st1 notes1 b Hnn) as (H1 & H2 & H3).
    inversion Heq. subst. rewrite H1, H2. auto. }
  assert (S1 : forall i,
             incl (list_update (Block.notes b) i (fun _ => j))
               (j :: Block.notes b)).
  { intros i x Hx. destruct (In_list_update _ _ _ _ Hx) as [Hx' | (y & _ & ->)].
    - right. exact Hx'.
    - left. reflexivity. }
  assert (S2 : forall i, list_update (Block.notes b) i (fun _ => j) <> [])
    by (intros i; apply list_update_not_nil; exact Hne).
  assert (S3 : incl (Block.notes b) (j :: Block.notes b))
    by apply incl_tl, incl_refl.
  assert (S4 : incl (Block.notes b ++ [j]) (j :: Block.notes b)).
  { intros x Hx. apply in_app_or in Hx. destruct Hx as [Hx | [<- | []]].
    - right. exact Hx.
    - left. reflexivity. }
  assert (S5 : Block.notes b ++ [j] <> []).
  { intros Hc. apply app_eq_nil in Hc. destruct Hc. discriminate. }
  destruct (find_pitch st (Block.notes b) _) as [i |].
  - destruct (Qltb _ _); cbv beta iota in H.
    + destruct (Hfin _ _ _ (S1 i) (S2 i) H) as (A & B & C & D);
      (split; [exact A | split; [exact B | split; [exact C | right; split; [reflexivity | exact D]]]]).
    + destruct (Hfin _ _ _ S3 Hne H) as (A & B & C & D);
      (split; [exact A | split; [exact B | split; [exact C | right; split; [reflexivity | exact D]]]]).
  - cbv beta iota in H.
    destruct (Hfin _ _ _ S4 S5 H) as (A & B & C & D);
      (split; [exact A | split; [exact B | split; [exact C | right; split; [reflexivity | exact D]]]]).
Qed.

(** A chain of [addNote] with notes that all start at [q], on a block that
    is a rest or starts at [q]. *)
Lemma addNotes_at (q : Q) (l : list nat) :
  forall (st st' : Store) (b b' : Block.t),
  (forall f, In f l -> Note.start (deref st f) == q) ->
  (Block.notes b = [] \/ Block.start b == q) ->
  (forall r, In r (Block.notes b) ->
     Block.length b <= Note.length (deref st r)) ->
  addNotes st b l = (st', b') ->
  same_shape st st' /\
  incl (Block.notes b') (Block.notes b ++ l) /\
  (l = [] -> b' = b) /\
  (l <> [] \/ Block.notes b <> [] ->
   Block.start b' == q /\ Block.notes b' <> [] /\
   forall r, In r (Block.notes b') ->
     Block.length b' <= Note.length (deref st' r)).
Proof.
  induction l as [| j l IH]; intros st st' b b' Hq Hb Hlen H; cbn in H.
  - inversion H. subst. split; [apply same_shape_refl |].
    split; [rewrite app_nil_r; apply incl_refl |].
    split; [reflexivity |].
    intros [Hc | Hne]; [congruence |].
    destruct Hb as [Hb | Hb]; [congruence |]. auto.
  - destruct (addNote st b j) as [[st1 b1] ok] eqn:Ea.
    pose proof (addNote_same_shape _ _ _ _ _ _ Ea) as Hsh.
    assert (Hq1 : forall f, In f l -> Note.start (deref st1 f) == q).
    { intros f Hf. destruct Hsh as [_ Hs]. destruct (Hs f) as (-> & _).
      apply Hq. right. exact Hf. }
    assert (Hb1 : Block.start b1 == q /\ Block.notes b1 <> [] /\
                  incl (Block.notes b1) (j :: Block.notes b) /\
                  forall r, In r (Block.notes b1) ->
                    Block.length b1 <= Note.length (deref st1 r)).
    { destruct (Block.notes b) as [| r0 l0] eqn:En.
      - rewrite (addNote_empty st b j En) in Ea. inversion Ea. subst. cbn.
        split; [apply Hq; left; reflexivity |].
        split; [discriminate |]. split; [apply incl_refl |].
        intros r [<- | []]. lra.
      - destruct Hb as [Hb | Hb]; [discriminate |].
        assert (Hne : Block.notes b <> []) by (rewrite En; discriminate).
        destruct (addNote_nonempty _ _ _ _ _ _ Hne Ea)
          as (Hs & Hin & Hnn & [(-> & -> & Hz) | (Hz & Hl)]).
        + exfalso. qprop. pose proof (Hq j (or_introl eq_refl)) as Hj.
          pose proof eps_pos. destruct Hz; lra.
        + rewrite En in Hin. rewrite Hs. auto. }
    destruct Hb1 as (Hs1 & Hnn1 & Hin1 & Hl1).
    destruct (IH _ _ _ _ Hq1 (or_intror Hs1) Hl1 H) as (Hsh2 & Hin2 & _ & Hfin).
    split; [eapply same_shape_trans; eassumption |].
    split.
    { intros x Hx. apply Hin2 in Hx. apply in_app_or in Hx.
      destruct Hx as [Hx | Hx].
      - apply Hin1 in Hx. destruct Hx as [<- | Hx].
        + apply in_or_app. right. left. reflexivity.
        + apply in_or_app. left. exact Hx.
      - apply in_or_app. right. right. exact Hx. }
    split; [discriminate |].
    intros _. apply Hfin. right. exact Hnn1.
Qed.

Lemma addNotes_same_shape (l : list nat) :
  forall (st st' : Store) (b b' : Block.t),
  addNotes st b l = (st', b') -> same_shape st st'.
Proof.
  induction l as [| j l IH]; intros st st' b b' H; cbn in H.
  - inversion H. apply same_shape_refl.
  - destruct (addNote st b j) as [[st1 b1] ok] eqn:Ea.
    eapply same_shape_trans.
    + apply (addNote_same_shape _ _ _ _ _ _ Ea).
    + apply (IH _ _ _ _ H).
Qed.

Lemma mergeToMap_same_shape (st : Store) (b : Block.t) (map : JianpuBlockMap)
    (st' : Store) (map' : JianpuBlockMap) :
  mergeToMap st b map = (st', map') -> same_shape st st'.
Proof.
  unfold mergeToMap.
  destruct (NumMap.get map (Block.start b)) as [existing |].
  - destruct (addNotes st existing (Block.notes b)) as [st1 e1] eqn:Ea.
    intros H. inversion H. subst.
    apply (addNotes_same_shape _ _ _ _ _ Ea).
  - intros H. inversion H. apply same_shape_refl.
Qed.

(** ** The build ends *)

(** A cut of a block leaves a remainder that starts at the cut and, like
    the block and the notes of the store, ends at or before [bound]. *)
Lemma split_bounded (st : Store) (c : Block.t) (quarters : Q) (m : MeasuresInfo)
    (st' : Store) (h t : Block.t) (bound : Q) :
  split st c quarters m = (st', h, Some t) ->
  store_bounded st bound ->
  Block.start c + Block.length c <= bound ->
  store_bounded st' bound /\
  store_ext st st' /\
  Block.start t == quarters /\
  Block.start t + Block.length t <= bound.
Proof.
  intros Hs Hb Hc.
  destruct (split_cases _ _ _ _ _ _ _ Hs) as [(Hn & _) | (H1 & H2 & Hx)];
    [discriminate |].
  destruct Hx as (st1 & frags & t0 & t' & Ht & Hsn & Han & _ & _ & _ & Ets & Etl & Etn).
  inversion Ht. subst t'. clear Ht.
  destruct (splitNotes_spec _ _ _ _ _ Hsn) as (Hext & Hbd & Hfr).
  assert (Hq : forall f, In f frags -> Note.start (deref st1 f) == quarters).
  { intros f Hf. destruct (Hfr f Hf) as [_ ->]. reflexivity. }
  eapply addNotes_at in Han as (Hsh & Hin & Hnil & Hne);
    [| exact Hq | left; reflexivity | intros r []].
  assert (Hb' : store_bounded st' bound).
  { eapply same_shape_bounded; [exact Hsh |]. apply Hbd. exact Hb. }
  split; [exact Hb' |].
  split; [eapply store_ext_trans; [exact Hext | apply same_shape_ext; exact Hsh] |].
  rewrite Ets, Etl.
  destruct frags as [| f0 frags'].
  - rewrite (Hnil eq_refl). cbn. split; [reflexivity | lra].
  - destruct Hne as (Hst & Hnn & Hlen); [left; discriminate |].
    split; [exact Hst |].
    destruct (Block.notes t0) as [| r l] eqn:En; [congruence |].
    assert (Hr : In r (f0 :: frags')).
    { apply Hin. rewrite ?En. cbn. left. reflexivity. }
    destruct (Hfr r Hr) as [Hrl Hrs].
    destruct Hsh as [Hl Hs'].
    specialize (Hb' r ltac:(lia)).
    assert (Hlr : Block.length t0 <= Note.length (deref st' r))
      by (apply Hlen; rewrite ?En; left; reflexivity).
    destruct (Hs' r) as (Es & _). rewrite Es, Hrs in Hb'.
    lra.
Qed.

(** The number of cuts that a block that starts at [start] can still take
    before [bound]: each cut moves the start by more than the tolerance. *)
Definition steps_left (bound start : Q) : nat :=
  Z.to_nat (Qfloor ((bound - start) / eps)).

Lemma steps_left_decrease (bound s s' : Q) :
  s + eps <= s' -> s' <= bound ->
  (steps_left bound s' < steps_left bound s)%nat.
Proof.
  intros H1 H2. unfold steps_left.
  set (x := (bound - s) / eps). set (y := (bound - s') / eps).
  assert (Ex : x == (bound - s) * 1000000) by (unfold x, eps; field).
  assert (Ey : y == (bound - s') * 1000000) by (unfold y, eps; field).
  unfold eps in H1.
  assert (Hxy : y + 1 <= x) by lra.
  assert (Hy : 0 <= y) by lra.
  pose proof (Qfloor_le x) as Hx1. pose proof (Qlt_floor x) as Hx2.
  pose proof (Qfloor_le y) as Hy1. pose proof (Qlt_floor y) as Hy2.
  assert (Hfy : (0 <= Qfloor y)%Z).
  { assert (inject_Z (-1) < inject_Z (Qfloor y)).
    { rewrite inject_Z_plus in Hy2.
      change (inject_Z 1) with 1 in Hy2. change (inject_Z (-1)) with (-1). lra. }
    rewrite <- Zlt_Qlt in H. lia. }
  assert (Hfxy : (Qfloor y < Qfloor x)%Z).
  { rewrite Zlt_Qlt. rewrite inject_Z_plus in Hx2.
    change (inject_Z 1) with 1 in Hx2. lra. }
  lia.
Qed.

Fixpoint queue_cost (bound : Q) (queue : list Block.t) : nat :=
  match queue with
  | [] => O
  | c :: queue' =>
      S (S (steps_left bound (Block.start c))) + queue_cost bound queue'
  end.

Section Termination.
Variable m : MeasuresInfo.
Variable bound : Q.

Lemma splitToBeat_bounded (st : Store) (c : Block.t)
    (st' : Store) (c' : Block.t) (o : option Block.t) :
  splitToBeat st c m = (st', c', o) ->
  store_bounded st bound ->
  Block.start c + Block.length c <= bound ->
  store_bounded st' bound /\
  Block.start c' = Block.start c /\
  match o with
  | None => Block.length c' = Block.length c
  | Some r =>
      Block.start c + eps <= Block.start r /\
      Block.start r <= bound /\
      Block.start r + Block.length r <= bound
  end.
Proof.
  intros H Hb Hc. destruct o as [r |].
  - destruct (splitToBeat_some _ _ _ _ _ _ H)
      as (q & c1 & h & t & Hq1 & Hq2 & Es & El & En & Hs & Hcs & _ & _ & Hrs & Hrl & _).
    destruct (split_bounded _ _ _ _ _ _ _ bound Hs Hb) as (Hb' & _ & Hts & Hte);
      [rewrite Es, El; exact Hc |].
    split; [exact Hb' |].
    destruct (split_cases _ _ _ _ _ _ _ Hs) as [(Hn & _) | (_ & _ & Hx)];
      [discriminate |].
    destruct Hx as (? & ? & ? & ? & _ & _ & _ & Hhs & _).
    split; [congruence |].
    pose proof eps_pos.
    rewrite Hrs, Hrl. split; [lra |]. split; [lra | exact Hte].
  - destruct (splitToBeat_none _ _ _ _ _ H) as (-> & Hs & Hl & _). auto.
Qed.

Lemma splitToStandardSymbol_bounded (st : Store) (c : Block.t)
    (st' : Store) (c' : Block.t) (o : option Block.t) :
  splitToStandardSymbol st c m = (st', c', o) ->
  store_bounded st bound ->
  Block.start c + Block.length c <= bound ->
  store_bounded st' bound /\
  Block.start c' = Block.start c /\
  match o with
  | None => True
  | Some r =>
      Block.start c + eps <= Block.start r /\
      Block.start r <= bound /\
      Block.start r + Block.length r <= bound
  end.
Proof.
  intros H Hb Hc. destruct o as [r |].
  - destruct (splitToStandardSymbol_some _ _ _ _ _ _ H)
      as (q & h & Hq1 & Hq2 & Hs & Hcs & _).
    destruct (split_bounded _ _ _ _ _ _ _ bound Hs Hb Hc) as (Hb' & _ & Hts & Hte).
    split; [exact Hb' |].
    destruct (split_cases _ _ _ _ _ _ _ Hs) as [(Hn & _) | (_ & _ & Hx)];
      [discriminate |].
    destruct Hx as (? & ? & ? & ? & _ & _ & _ & Hhs & _).
    split; [congruence |].
    split; [| split; [| exact Hte]];
      unfold MIN_RESOLUTION, eps in *; lra.
  - destruct (splitToStandardSymbol_none _ _ _ _ _ H) as (-> & Hs & _). auto.
Qed.

Lemma symbolLoop_total (fuel : nat) :
  forall (st : Store) (map : JianpuBlockMap) (c : Block.t),
  store_bounded st bound ->
  Block.start c + Block.length c <= bound ->
  (steps_left bound (Block.start c) < fuel)%nat ->
  exists st' map',
    symbolLoop fuel m st map c = Some (st', map') /\ store_bounded st' bound.
Proof.
  induction fuel as [| fuel IH]; intros st map c Hb Hc Hf; [lia |].
  cbn.
  destruct (splitToStandardSymbol st c m) as [[st1 c1] o] eqn:Es.
  destruct (splitToStandardSymbol_bounded _ _ _ _ _ Es Hb Hc) as (Hb1 & Hs1 & Ho).
  destruct (mergeToMap st1 c1 map) as [st2 map2] eqn:Em.
  pose proof (same_shape_bounded _ _ bound (mergeToMap_same_shape _ _ _ _ _ Em) Hb1)
    as Hb2.
  destruct o as [r |].
  - destruct Ho as (Hr1 & Hr2 & Hr3).
    apply IH; [exact Hb2 | exact Hr3 |].
    pose proof (steps_left_decrease bound _ _ Hr1 Hr2). lia.
  - eauto.
Qed.

Lemma processQueue_total (fuel : nat) :
  forall (st : Store) (map : JianpuBlockMap) (queue : list Block.t),
  store_bounded st bound ->
  Forall (fun c => Block.start c + Block.length c <= bound) queue ->
  (queue_cost bound queue < fuel)%nat ->
  exists res, processQueue fuel m st map queue = Some res.
Proof.
  induction fuel as [| fuel IH]; intros st map queue Hb Hq Hf; [lia |].
  cbn. destruct queue as [| c queue]; [eauto |].
  inversion Hq as [| ? ? Hc Hq']. subst. cbn in Hf.
  destruct (splitToBeat st c m) as [[st1 c1] o] eqn:Es.
  destruct (splitToBeat_bounded _ _ _ _ _ Es Hb Hc) as (Hb1 & Hs1 & Ho).
  destruct o as [r |].
  - destruct Ho as (Hr1 & Hr2 & Hr3).
    destruct (mergeToMap st1 c1 map) as [st2 map2] eqn:Em.
    pose proof (same_shape_bounded _ _ bound
                  (mergeToMap_same_shape _ _ _ _ _ Em) Hb1) as Hb2.
    apply IH; [exact Hb2 | constructor; assumption |].
    pose proof (steps_left_decrease bound _ _ Hr1 Hr2).
    cbn. lia.
  - destruct (symbolLoop_total fuel st1 map c1 Hb1) as (st2 & map2 & E2 & Hb2).
    + rewrite Hs1, Ho. exact Hc.
    + rewrite Hs1. lia.
    + rewrite E2. apply IH; [exact Hb2 | exact Hq' | lia].
Qed.

End Termination.

(** ** Sorting *)

Lemma In_insert_by {A : Type} (key : A -> Q) (x y : A) (l : list A) :
  In y (insert_by key x l) <-> y = x \/ In y l.
Proof.
  induction l as [| a l IH]; cbn.
  - intuition auto.
  - destruct (Qltb (key x) (key a)); cbn; rewrite ?IH; intuition auto.
Qed.

Lemma In_sort_by {A : Type} (key : A -> Q) (l : list A) (y : A) :
  In y (sort_by key l) <-> In y l.
Proof.
  unfold sort_by.
  assert (H : forall acc, In y (fold_left (fun acc x => insert_by key x acc) l acc)
                          <-> In y l \/ In y acc).
  { induction l as [| a l IH]; intros acc; cbn.
    - intuition auto.
    - rewrite IH, In_insert_by. intuition auto. }
  rewrite H. cbn. intuition auto.
Qed.

(** ** Maps: what holds of every entry *)

Section NumMapFacts.
Context {V : Type}.
Variable P : Q -> V -> Prop.
Hypothesis P_proper : forall k k' v, k == k' -> P k v -> P k' v.

Definition entries_ok (mp : NumMap.t V) : Prop :=
  Forall (fun kv => P (fst kv) (snd kv)) mp.

Lemma entries_ok_get (mp : NumMap.t V) (k : Q) (v : V) :
  entries_ok mp -> NumMap.get mp k = Some v -> P k v.
Proof.
  induction 1 as [| [k' v'] mp Hk Hm IH]; cbn; [discriminate |].
  destruct (Qeq_bool k' k) eqn:E.
  - intros H. inversion H. subst. apply Qeq_bool_eq in E.
    apply (P_proper k'); assumption.
  - exact IH.
Qed.

Lemma entries_ok_set (mp : NumMap.t V) (k : Q) (v : V) :
  entries_ok mp -> P k v -> entries_ok (NumMap.set mp k v).
Proof.
  intros Hm Hv. induction Hm as [| [k' v'] mp Hk Hm IH]; cbn.
  - repeat constructor. exact Hv.
  - destruct (Qeq_bool k' k) eqn:E.
    + constructor; [| exact Hm]. cbn. apply Qeq_bool_eq in E.
      apply (P_proper k); [symmetry |]; assumption.
    + constructor; assumption.
Qed.

Lemma entries_ok_In_values (mp : NumMap.t V) (v : V) :
  entries_ok mp -> In v (NumMap.values mp) -> exists k, P k v.
Proof.
  intros Hm Hv. unfold NumMap.values in Hv. apply in_map_iff in Hv.
  destruct Hv as ([k v'] & <- & Hin).
  exists k. unfold entries_ok in Hm. rewrite Forall_forall in Hm.
  apply (Hm _ Hin).
Qed.
End NumMapFacts.

Lemma NumMap_get_In_values {V : Type} (mp : NumMap.t V) (k : Q) (v : V) :
  NumMap.get mp k = Some v -> In v (NumMap.values mp).
Proof.
  induction mp as [| [k' v'] mp IH]; cbn; [discriminate |].
  destruct (Qeq_bool k' k).
  - intros H. inversion H. auto.
  - auto.
Qed.

(** ** Blocks and the notes they hold *)

(** The notes of a block are notes of the store and start where the block
    starts. *)
Definition block_ok (st : Store) (b : Block.t) : Prop :=
  forall r, In r (Block.notes b) ->
    (r < List.length st)%nat /\ Note.start (deref st r) == Block.start b.

(** A block is no longer than any of its notes. *)
Definition length_ok (st : Store) (b : Block.t) : Prop :=
  forall r, In r (Block.notes b) ->
    Block.length b <= Note.length (deref st r).

Lemma block_ok_ext (st st' : Store) (b : Block.t) :
  store_ext st st' -> block_ok st b -> block_ok st' b.
Proof.
  intros [Hl Hx] Hb r Hr. destruct (Hb r Hr) as [H1 H2].
  split; [lia |]. destruct (Hx r H1) as (-> & _). exact H2.
Qed.

Lemma block_ok_geo (st : Store) (b b' : Block.t) :
  Block.start b' == Block.start b -> Block.notes b' = Block.notes b ->
  block_ok st b -> block_ok st b'.
Proof.
  intros Hs Hn Hb r Hr. rewrite Hn in Hr. rewrite Hs. apply Hb. exact Hr.
Qed.

(** [addNote] of a note that starts where the block starts (or into a
    rest) keeps the block in order. *)
Lemma addNote_block_ok (st : Store) (b : Block.t) (j : nat)
    (st' : Store) (b' : Block.t) (ok : bool) :
  addNote st b j = (st', b', ok) ->
  block_ok st b ->
  (j < List.length st)%nat ->
  (Block.notes b = [] \/ Note.start (deref st j) == Block.start b) ->
  same_shape st st' /\
  block_ok st' b' /\
  Block.start b' == Note.start (deref st j) /\
  Block.notes b' <> [] /\
  length_ok st' b' /\
  incl (Block.notes b') (j :: Block.notes b).
Proof.
  intros Ha Hb Hj Hs.
  pose proof (addNote_same_shape _ _ _ _ _ _ Ha) as Hsh.
  split; [exact Hsh |].
  destruct Hsh as [Hlen Hsh].
  destruct (Block.notes b) as [| r0 l0] eqn:En.
  - rewrite (addNote_empty st b j En) in Ha. inversion Ha. subst. cbn.
    split; [intros r [<- | []]; split; [assumption | reflexivity] |].
    split; [reflexivity |]. split; [discriminate |].
    split; [intros r [<- | []]; cbn; apply Qle_refl |]. apply incl_refl.
  - destruct Hs as [Hs | Hs]; [discriminate |].
    assert (Hne : Block.notes b <> []) by (rewrite En; discriminate).
    destruct (addNote_nonempty _ _ _ _ _ _ Hne Ha)
      as (Hst & Hin & Hnn & [(-> & -> & Hz) | (Hz & Hl)]).
    + exfalso. qprop. pose proof eps_pos. destruct Hz; lra.
    + rewrite En in Hin.
      split.
      { intros r Hr. apply Hin in Hr. destruct (Hsh r) as (-> & _).
        rewrite Hst. destruct Hr as [<- | Hr].
        - split; [lia | exact Hs].
        - destruct (Hb r) as [H1 H2]; [rewrite En; exact Hr |].
          split; [lia | exact H2]. }
      split; [rewrite Hst; symmetry; exact Hs |].
      split; [exact Hnn |]. split; [exact Hl | exact Hin].
Qed.

(** A chain of [addNote] with notes of the store that start where the
    block starts. *)
Lemma addNotes_block_ok (l : list nat) :
  forall (st st' : Store) (b b' : Block.t),
  addNotes st b l = (st', b') ->
  block_ok st b ->
  (forall j, In j l ->
     (j < List.length st)%nat /\ Note.start (deref st j) == Block.start b) ->
  same_shape st st' /\
  block_ok st' b' /\
  Block.start b' == Block.start b /\
  (l <> [] -> Block.notes b' <> [] /\ length_ok st' b') /\
  (l = [] -> b' = b).
Proof.
  induction l as [| j l IH]; intros st st' b b' H Hb Hl; cbn in H.
  - inversion H. subst. split; [apply same_shape_refl |].
    split; [exact Hb |]. split; [reflexivity |]. split; [congruence | auto].
  - destruct (addNote st b j) as [[st1 b1] ok] eqn:Ea.
    destruct (Hl j (or_introl eq_refl)) as [Hj1 Hj2].
    destruct (addNote_block_ok _ _ _ _ _ _ Ea Hb Hj1 (or_intror Hj2))
      as (Hsh1 & Hb1 & Hs1 & Hn1 & Hlen1 & _).
    assert (Hl1 : forall j', In j' l ->
              (j' < List.length st1)%nat /\
              Note.start (deref st1 j') == Block.start b1).
    { intros j' Hj'. destruct (Hl j' (or_intror Hj')) as [A B].
      destruct Hsh1 as [Hlen Hsh]. destruct (Hsh j') as (-> & _).
      split; [lia |]. rewrite Hs1, B. symmetry. exact Hj2. }
    destruct (IH _ _ _ _ H Hb1 Hl1) as (Hsh2 & Hb2 & Hs2 & Hne2 & Hnil2).
    split; [eapply same_shape_trans; eassumption |].
    split; [exact Hb2 |].
    split; [rewrite Hs2, Hs1; exact Hj2 |].
    split; [| discriminate].
    intros _. destruct l as [| j' l'].
    + rewrite (Hnil2 eq_refl). destruct Hsh2 as [? Hsh].
      split; [exact Hn1 |].
      intros r Hr. rewrite (Hnil2 eq_refl) in *.
      destruct (Hsh r) as (_ & -> & _). apply Hlen1. exact Hr.
    + apply Hne2. discriminate.
Qed.

(** ** The first pass: grouping *)

(** A well-formed score: every note starts at or after 0 and has a positive
    length; the time signatures have positive numerator and denominator. *)
Definition note_wf (note : NoteInfo) : Prop :=
  0 <= ni_start note /\ 0 < ni_length note.

Definition wf_score (info : JianpuInfo) : Prop :=
  Forall note_wf (notes info) /\
  Forall (fun t => (0 < numerator t)%Z /\ (0 < denominator t)%Z)
    (timeSignatures info).

(** The note that [createJianpuNote] makes of a note of the score. *)
Definition note_of (m : MeasuresInfo) (note : NoteInfo) : Note.t :=
  let details :=
    Pitch.mapMidiToJianpu (ni_pitch note)
      (keySignatureAtQ m (ni_start note) false) in
  Note.mk (ni_start note) (ni_length note) (ni_pitch note) (ni_intensity note)
    (Pitch.jianpuNumber details) (Pitch.octaveDot details)
    (Pitch.accidental details) None None.

(** The end of the last note, as the loop of [update] computes it. *)
Definition maxEnd (sorted : list NoteInfo) : Q :=
  fold_left (fun acc note => Math_max acc (ni_start note + ni_length note))
    sorted 0.

Lemma fold_max_ge (l : list NoteInfo) :
  forall acc,
  acc <= fold_left (fun a n => Math_max a (ni_start n + ni_length n)) l acc /\
  forall note, In note l ->
    ni_start note + ni_length note
    <= fold_left (fun a n => Math_max a (ni_start n + ni_length n)) l acc.
Proof.
  induction l as [| x l IH]; intros acc; cbn.
  - split; [lra | intros note []].
  - destruct (IH (Math_max acc (ni_start x + ni_length x))) as [H1 H2].
    pose proof (Math_max_ge_l acc (ni_start x + ni_length x)).
    pose proof (Math_max_ge_r acc (ni_start x + ni_length x)).
    split; [lra |].
    intros note [<- | Hn]; [lra | auto].
Qed.

Lemma scoreEnd_maxEnd (sorted : list NoteInfo) :
  scoreEnd sorted = maxEnd sorted + eps.
Proof. reflexivity. Qed.

(** No note of the store is tied. *)
Definition unlinked (st : Store) : Prop :=
  forall x, Note.tiedFrom (deref st x) = None /\ Note.tiedTo (deref st x) = None.

Lemma relink_unlinked (st : Store) (old new : nat) :
  unlinked st -> relink st old new = st.
Proof.
  intros H. unfold relink. destruct (H old) as [-> ->]. reflexivity.
Qed.

Lemma addNote_unlinked (st : Store) (b : Block.t) (j : nat)
    (st' : Store) (b' : Block.t) (ok : bool) :
  unlinked st -> addNote st b j = (st', b', ok) -> st' = st.
Proof.
  intros Hu Ha.
  destruct (addNote_store _ _ _ _ _ _ Ha) as [-> | (old & _ & _ & _ & _ & ->)];
    [reflexivity | apply relink_unlinked; exact Hu].
Qed.

Lemma unlinked_alloc (st : Store) (n : Note.t) :
  unlinked st -> Note.tiedFrom n = None -> Note.tiedTo n = None ->
  unlinked (st ++ [n]).
Proof.
  intros Hu H1 H2 x. rewrite deref_alloc.
  destruct (Nat.ltb x (List.length st)); [apply Hu |].
  destruct (Nat.eqb x (List.length st)); auto.
Qed.

(** The store after [groupNote]: one more note, the one of the score. *)
Lemma groupNote_store (m : MeasuresInfo) (g : Grouping) (note : NoteInfo) :
  unlinked (g_store g) ->
  g_store (groupNote m g note) = g_store g ++ [note_of m note].
Proof.
  intros Hu. unfold groupNote, createJianpuNote, alloc.
  fold (note_of m note). cbv beta iota zeta.
  destruct (NumMap.get _ (ni_start note)) as [b |];
    match goal with
    | |- context [addNote ?s ?b ?j] =>
        destruct (addNote s b j) as [[st2 b1] ok] eqn:Ea
    end;
    (apply addNote_unlinked in Ea; [| apply unlinked_alloc; auto]);
    subst st2; reflexivity.
Qed.

Lemma fold_groupNote_store (m : MeasuresInfo) (l : list NoteInfo) :
  forall g,
  unlinked (g_store g) ->
  g_store (fold_left (groupNote m) l g) = g_store g ++ map (note_of m) l /\
  unlinked (g_store (fold_left (groupNote m) l g)).
Proof.
  induction l as [| note l IH]; intros g Hu.
  - cbn. rewrite app_nil_r. auto.
  - change (fold_left (groupNote m) (note :: l) g)
      with (fold_left (groupNote m) l (groupNote m g note)).
    change (map (note_of m) (note :: l))
      with (note_of m note :: map (note_of m) l).
    assert (Hu1 : unlinked (g_store (groupNote m g note))).
    { rewrite groupNote_store by exact Hu. apply unlinked_alloc; auto. }
    destruct (IH _ Hu1) as [E1 E2]. split; [| exact E2].
    rewrite E1, groupNote_store by exact Hu.
    rewrite <- app_assoc. reflexivity.
Qed.

(** The rest that [groupNote] puts before a note that starts after the
    last end, and the block that the note goes into. *)
Definition rawWithRest (m : MeasuresInfo) (g : Grouping) (note : NoteInfo)
  : NumMap.t Block.t :=
  if Qltb (lastNoteEndTime g + eps) (ni_start note)
  then
    NumMap.set (rawBlocks g) (lastNoteEndTime g)
      (Block.create (lastNoteEndTime g) (ni_start note - lastNoteEndTime g) []
         (measureNumberAtQ m (lastNoteEndTime g)))
  else rawBlocks g.

Definition blockOfNote (m : MeasuresInfo) (g : Grouping) (note : NoteInfo)
  : Block.t :=
  match NumMap.get (rawWithRest m g note) (ni_start note) with
  | Some b => b
  | None =>
      Block.create (ni_start note) 0 [] (measureNumberAtQ m (ni_start note))
  end.

Definition rawWithBlock (m : MeasuresInfo) (g : Grouping) (note : NoteInfo)
  : NumMap.t Block.t :=
  match NumMap.get (rawWithRest m g note) (ni_start note) with
  | Some b => rawWithRest m g note
  | None =>
      NumMap.set (rawWithRest m g note) (ni_start note)
        (Block.create (ni_start note) 0 [] (measureNumberAtQ m (ni_start note)))
  end.

(** [groupNote] while no note is tied: the store gets the note, and the
    block of the note is the one that [addNote] returns. *)
Lemma groupNote_unfold (m : MeasuresInfo) (g : Grouping) (note : NoteInfo) :
  unlinked (g_store g) ->
  let st1 := g_store g ++ [note_of m note] in
  exists b1 ok,
    addNote st1 (blockOfNote m g note) (List.length (g_store g)) = (st1, b1, ok) /\
    groupNote m g note =
    mkGrouping st1 (NumMap.set (rawWithBlock m g note) (ni_start note) b1)
      (Math_max (lastNoteEndTime g) (ni_start note + Block.length b1)).
Proof.
  intros Hu st1. unfold groupNote, createJianpuNote, alloc.
  fold (note_of m note). fold (rawWithRest m g note). cbv beta iota zeta.
  unfold blockOfNote, rawWithBlock. fold st1.
  destruct (NumMap.get (rawWithRest m g note) (ni_start note)) as [b |];
    match goal with
    | |- context [addNote ?s ?b ?j] =>
        destruct (addNote s b j) as [[st2 b1] ok] eqn:Ea
    end;
    pose proof Ea as Ea';
    (apply addNote_unlinked in Ea'; [| apply unlinked_alloc; auto]);
    subst st2; exists b1, ok; split; reflexivity.
Qed.

Section RawBlocks.
Variable m : MeasuresInfo.
Variable bound : Q.

(** What holds of every raw block: it is filed under its start, its notes
    start with it and are no shorter, and a rest ends before [bound]. *)
Definition raw_entry_ok (st : Store) (k : Q) (b : Block.t) : Prop :=
  k == Block.start b /\
  block_ok st b /\
  length_ok st b /\
  (Block.notes b = [] -> Block.start b + Block.length b <= bound).

Lemma raw_entry_ok_proper (st : Store) (k k' : Q) (b : Block.t) :
  k == k' -> raw_entry_ok st k b -> raw_entry_ok st k' b.
Proof.
  intros E (H1 & H2 & H3 & H4).
  split; [rewrite <- E; exact H1 | auto].
Qed.

Lemma raw_entry_ok_alloc (st : Store) (n : Note.t) (k : Q) (b : Block.t) :
  raw_entry_ok st k b -> raw_entry_ok (st ++ [n]) k b.
Proof.
  intros (H1 & H2 & H3 & H4).
  split; [exact H1 |]. split; [| split; [| exact H4]].
  - intros r Hr. destruct (H2 r Hr) as [Hv Hs].
    rewrite length_app, deref_alloc_old by exact Hv. split; [lia | exact Hs].
  - intros r Hr. destruct (H2 r Hr) as [Hv Hs].
    rewrite deref_alloc_old by exact Hv. apply H3. exact Hr.
Qed.

Lemma entries_ok_impl {V : Type} (P P' : Q -> V -> Prop) (mp : NumMap.t V) :
  (forall k v, P k v -> P' k v) -> entries_ok P mp -> entries_ok P' mp.
Proof.
  intros H. unfold entries_ok. apply Forall_impl. intros [k v]. apply H.
Qed.

Lemma raw_entry_ok_end (st : Store) (k : Q) (b : Block.t) :
  store_bounded st bound -> raw_entry_ok st k b ->
  Block.start b + Block.length b <= bound.
Proof.
  intros Hb (H1 & H2 & H3 & H4).
  destruct (Block.notes b) as [| r l] eqn:En; [auto |].
  assert (Hin : In r (Block.notes b)) by (rewrite En; left; reflexivity).
  destruct (H2 r Hin) as [Hr Hs].
  specialize (H3 r Hin). specialize (Hb r Hr). lra.
Qed.

Lemma groupNote_raw_ok (g : Grouping) (note : NoteInfo) :
  unlinked (g_store g) ->
  note_wf note ->
  ni_start note + ni_length note <= bound ->
  entries_ok (raw_entry_ok (g_store g)) (rawBlocks g) ->
  entries_ok (raw_entry_ok (g_store (groupNote m g note)))
    (rawBlocks (groupNote m g note)).
Proof.
  intros Hu [Hw1 Hw2] Hend Hraw.
  destruct (groupNote_unfold m g note Hu) as (b1 & ok & Ea & ->).
  cbn [g_store rawBlocks].
  set (st1 := g_store g ++ [note_of m note]) in *.
  assert (Hrest : entries_ok (raw_entry_ok st1) (rawWithRest m g note)).
  { apply (entries_ok_impl (raw_entry_ok (g_store g)));
      [intros k v; apply raw_entry_ok_alloc |].
    unfold rawWithRest. destruct (Qltb _ _); [| exact Hraw].
    apply entries_ok_set; [apply raw_entry_ok_proper | exact Hraw |].
    split; [reflexivity |]. split; [intros r [] |]. split; [intros r [] |].
    intros _. cbn. lra. }
  assert (Hj : deref st1 (List.length (g_store g)) = note_of m note)
    by apply deref_alloc_new.
  assert (Hblock : raw_entry_ok st1 (ni_start note) (blockOfNote m g note) /\
                   entries_ok (raw_entry_ok st1) (rawWithBlock m g note)).
  { unfold blockOfNote, rawWithBlock.
    destruct (NumMap.get (rawWithRest m g note) (ni_start note)) as [b |] eqn:Eg.
    - split; [| exact Hrest].
      apply (entries_ok_get _ (raw_entry_ok_proper st1) _ _ _ Hrest Eg).
    - assert (Hnew : raw_entry_ok st1 (ni_start note)
                       (Block.create (ni_start note) 0 []
                          (measureNumberAtQ m (ni_start note)))).
      { split; [reflexivity |]. split; [intros r [] |]. split; [intros r [] |].
        intros _. cbn. lra. }
      split; [exact Hnew |].
      apply entries_ok_set; [apply raw_entry_ok_proper | exact Hrest | exact Hnew]. }
  destruct Hblock as [(Hk & Hbo & Hlo & Hem) Hraw2].
  destruct (addNote_block_ok _ _ _ _ _ _ Ea Hbo) as (_ & Hb1 & Hs1 & Hn1 & Hl1 & _).
  - unfold st1. rewrite length_app. cbn. lia.
  - right. rewrite Hj. cbn. exact Hk.
  - apply entries_ok_set; [apply raw_entry_ok_proper | exact Hraw2 |].
    rewrite Hj in Hs1. cbn in Hs1.
    split; [symmetry; exact Hs1 |]. split; [exact Hb1 |]. split; [exact Hl1 |].
    intros Hc. congruence.
Qed.

Lemma fold_groupNote_raw_ok (l : list NoteInfo) :
  forall g,
  unlinked (g_store g) ->
  Forall note_wf l ->
  Forall (fun note => ni_start note + ni_length note <= bound) l ->
  entries_ok (raw_entry_ok (g_store g)) (rawBlocks g) ->
  entries_ok (raw_entry_ok (g_store (fold_left (groupNote m) l g)))
    (rawBlocks (fold_left (groupNote m) l g)).
Proof.
  induction l as [| note l IH]; intros g Hu Hw Hb Hraw; [exact Hraw |].
  inversion Hw. inversion Hb. subst.
  change (fold_left (groupNote m) (note :: l) g)
    with (fold_left (groupNote m) l (groupNote m g note)).
  apply IH; auto.
  - rewrite groupNote_store by exact Hu. apply unlinked_alloc; auto.
  - apply groupNote_raw_ok; auto.
Qed.

End RawBlocks.

Lemma unlinked_nil : unlinked [].
Proof. intros x. unfold deref. destruct x; cbn; auto. Qed.

Lemma deref_map_note_of (m : MeasuresInfo) (l : list NoteInfo) (x : nat) :
  (x < List.length l)%nat ->
  exists note, In note l /\ nth_error l x = Some note /\
               deref (map (note_of m) l) x = note_of m note.
Proof.
  revert x. induction l as [| a l IH]; intros x Hx; cbn in Hx; [lia |].
  destruct x as [| x].
  - exists a. cbn. auto.
  - destruct (IH x) as (note & H1 & H2 & H3); [lia |].
    exists note. cbn. auto.
Qed.

Lemma In_blockProcessingQueue (raw : NumMap.t Block.t) (c : Block.t) :
  In c (blockProcessingQueue raw) -> In c (NumMap.values raw).
Proof.
  unfold blockProcessingQueue. intros H. apply in_flat_map in H.
  destruct H as (k & _ & Hc).
  destruct (NumMap.get raw k) as [b |] eqn:E; [| destruct Hc].
  destruct Hc as [<- | []]. apply (NumMap_get_In_values _ _ _ E).
Qed.

(** The state after the first pass of a build. *)
Definition grouped (m : MeasuresInfo) (sorted : list NoteInfo) : Grouping :=
  fold_left (groupNote m) sorted (mkGrouping [] [] 0).

Lemma grouped_store (m : MeasuresInfo) (sorted : list NoteInfo) :
  g_store (grouped m sorted) = map (note_of m) sorted.
Proof.
  unfold grouped.
  destruct (fold_groupNote_store m sorted (mkGrouping [] [] 0) unlinked_nil)
    as [E _].
  exact E.
Qed.

Lemma grouped_bounded (m : MeasuresInfo) (sorted : list NoteInfo) :
  store_bounded (g_store (grouped m sorted)) (maxEnd sorted).
Proof.
  rewrite grouped_store. intros x Hx. rewrite length_map in Hx.
  destruct (deref_map_note_of m sorted x Hx) as (note & Hin & _ & ->).
  cbn. apply (fold_max_ge sorted 0). exact Hin.
Qed.

Lemma Forall_sort_by {A : Type} (key : A -> Q) (P : A -> Prop) (l : list A) :
  Forall P l -> Forall P (sort_by key l).
Proof.
  rewrite !Forall_forall. intros H x Hx. apply H. apply In_sort_by in Hx.
  exact Hx.
Qed.

(** The raw blocks of a build, each of which ends by the end of the
    score. *)
Lemma finalRest_raw_ok (m : MeasuresInfo) (sorted : list NoteInfo) :
  Forall note_wf sorted ->
  entries_ok (raw_entry_ok (scoreEnd sorted) (g_store (grouped m sorted)))
    (finalRest m (scoreEnd sorted) (grouped m sorted)).
Proof.
  intros Hw. pose proof eps_pos as He.
  assert (Hraw : entries_ok
                   (raw_entry_ok (scoreEnd sorted) (g_store (grouped m sorted)))
                   (rawBlocks (grouped m sorted))).
  { apply fold_groupNote_raw_ok.
    - apply unlinked_nil.
    - exact Hw.
    - rewrite Forall_forall. intros note Hn.
      pose proof (proj2 (fold_max_ge sorted 0) note Hn) as H.
      rewrite scoreEnd_maxEnd. unfold maxEnd. lra.
    - constructor. }
  unfold finalRest. destruct (Qltb _ _); [| exact Hraw].
  destruct (Qltb eps _); [| exact Hraw].
  apply entries_ok_set; [apply raw_entry_ok_proper | exact Hraw |].
  split; [reflexivity |]. split; [intros r [] |]. split; [intros r [] |].
  intros _. cbn. lra.
Qed.

Lemma queue_bounded (m : MeasuresInfo) (sorted : list NoteInfo) :
  Forall note_wf sorted ->
  Forall (fun c => Block.start c + Block.length c <= scoreEnd sorted)
    (blockProcessingQueue (finalRest m (scoreEnd sorted) (grouped m sorted))).
Proof.
  intros Hw. rewrite Forall_forall. intros c Hc.
  apply In_blockProcessingQueue in Hc.
  destruct (entries_ok_In_values _ _ _ (finalRest_raw_ok m sorted Hw) Hc)
    as [k Hk].
  eapply raw_entry_ok_end; [| exact Hk].
  intros x Hx. pose proof (grouped_bounded m sorted x Hx) as H.
  pose proof eps_pos. rewrite scoreEnd_maxEnd. lra.
Qed.

(** Every build of a well-formed score ends: with enough fuel [update]
    returns a model. *)
Lemma update_total (info : JianpuInfo) (defaultKey : option Z) :
  wf_score info ->
  exists fuel model, update fuel info defaultKey = Some model.
Proof.
  intros [Hw _].
  pose proof (Forall_sort_by ni_start note_wf (notes info) Hw) as Hws.
  unfold update, infoToBlocks.
  set (sorted := sort_by ni_start (notes info)) in *.
  match goal with
  | |- context [MeasuresInfoBuild.create ?i ?l] =>
      set (m := MeasuresInfoBuild.create i l)
  end.
  fold (grouped m sorted).
  set (queue := blockProcessingQueue _).
  destruct (processQueue_total m (scoreEnd sorted)
              (S (queue_cost (scoreEnd sorted) queue))
              (g_store (grouped m sorted)) [] queue) as [[st map] E].
  - intros x Hx. pose proof (grouped_bounded m sorted x Hx).
    pose proof eps_pos. rewrite scoreEnd_maxEnd. lra.
  - apply queue_bounded. exact Hws.
  - lia.
  - exists (S (queue_cost (scoreEnd sorted) queue)). rewrite E. eauto.
Qed.

(** ** Invariants of the second pass *)

(** An invariant [Inv] of the queue loop and an invariant [InvS] of the
    symbol loop (whose block is the head of the list), kept by the four
    kinds of step, hold at the end of the second pass. *)
Section QueueInvariant.
Variable m : MeasuresInfo.
Variables Inv InvS : Store -> JianpuBlockMap -> list Block.t -> Prop.

Hypothesis beat_cut :
  forall st map c q st1 c1 r st2 map2,
  Inv st map (c :: q) ->
  splitToBeat st c m = (st1, c1, Some r) ->
  mergeToMap st1 c1 map = (st2, map2) ->
  Inv st2 map2 (r :: q).

Hypothesis beat_none :
  forall st map c q st1 c1,
  Inv st map (c :: q) ->
  splitToBeat st c m = (st1, c1, None) ->
  InvS st1 map (c1 :: q).

Hypothesis symbol_cut :
  forall st map c q st1 c1 r st2 map2,
  InvS st map (c :: q) ->
  splitToStandardSymbol st c m = (st1, c1, Some r) ->
  mergeToMap st1 c1 map = (st2, map2) ->
  InvS st2 map2 (r :: q).

Hypothesis symbol_none :
  forall st map c q st1 c1 st2 map2,
  InvS st map (c :: q) ->
  splitToStandardSymbol st c m = (st1, c1, None) ->
  mergeToMap st1 c1 map = (st2, map2) ->
  Inv st2 map2 q.

Lemma symbolLoop_invariant (fuel : nat) :
  forall st map c q st' map',
  InvS st map (c :: q) ->
  symbolLoop fuel m st map c = Some (st', map') ->
  Inv st' map' q.
Proof.
  induction fuel as [| fuel IH]; intros st map c q st' map' HI H;
    [discriminate |].
  cbn in H.
  destruct (splitToStandardSymbol st c m) as [[st1 c1] o] eqn:Es.
  destruct (mergeToMap st1 c1 map) as [st2 map2] eqn:Em.
  destruct o as [r |].
  - eapply IH; [| exact H]. eapply symbol_cut; eassumption.
  - inversion H. subst. eapply symbol_none; eassumption.
Qed.

Lemma processQueue_invariant (fuel : nat) :
  forall st map q st' map',
  Inv st map q ->
  processQueue fuel m st map q = Some (st', map') ->
  Inv st' map' [].
Proof.
  induction fuel as [| fuel IH]; intros st map q st' map' HI H;
    [discriminate |].
  cbn in H. destruct q as [| c q]; [inversion H; subst; exact HI |].
  destruct (splitToBeat st c m) as [[st1 c1] o] eqn:Es.
  destruct o as [r |].
  - destruct (mergeToMap st1 c1 map) as [st2 map2] eqn:Em.
    eapply IH; [| exact H]. eapply beat_cut; eassumption.
  - destruct (symbolLoop fuel m st1 map c1) as [[st2 map2] |] eqn:El;
      [| discriminate].
    eapply IH; [| exact H].
    eapply symbolLoop_invariant; [| exact El].
    eapply beat_none; eassumption.
Qed.

End QueueInvariant.

(** ** The keys of the block map *)


Lemma NumMap_get_none {V : Type} (mp : NumMap.t V) (k : Q) :
  NumMap.get mp k = None <-> forall k', In k' (NumMap.keys mp) -> ~ k' == k.
Proof.
  induction mp as [| [k0 v0] mp IH]; cbn.
  - split; [intros _ k' [] | reflexivity].
  - destruct (Qeq_bool k0 k) eqn:E.
    + split; [discriminate |]. intros H. exfalso.
      apply (H k0); [left; reflexivity | apply Qeq_bool_eq; exact E].
    + rewrite IH. split.
      * intros H k' [<- | Hk]; [apply Qeq_bool_neq; exact E | auto].
      * intros H k' Hk. apply H. right. exact Hk.
Qed.


Lemma NumMap_set_absent {V : Type} (mp : NumMap.t V) (k : Q) (v : V) :
  NumMap.get mp k = None -> NumMap.set mp k v = mp ++ [(k, v)].
Proof.
  induction mp as [| [k0 v0] mp IH]; cbn; [reflexivity |].
  destruct (Qeq_bool k0 k) eqn:E; [discriminate |].
  intros H. rewrite (IH H). reflexivity.
Qed.





(** ** Tie chains *)

(** [tie_path st prev s total l]: the notes [l] of the store are one
    sustained pitch cut in pieces: the first piece is tied from [prev] and
    starts at [s], each piece is tied to the next, which is tied from it and
    starts where it ends, the last piece is tied to nothing, and the
    lengths of the pieces sum to [total]. *)
Fixpoint tie_path (st : Store) (prev : option nat) (s total : Q) (l : list nat)
  : Prop :=
  match l with
  | [] => False
  | x :: l' =>
      (x < List.length st)%nat /\
      Note.tiedFrom (deref st x) = prev /\
      Note.start (deref st x) == s /\
      0 < Note.length (deref st x) /\
      match l' with
      | [] =>
          Note.tiedTo (deref st x) = None /\
          Note.length (deref st x) == total
      | y :: _ =>
          Note.tiedTo (deref st x) = Some y /\
          tie_path st (Some x) (s + Note.length (deref st x))
            (total - Note.length (deref st x)) l'
      end
  end.



Lemma tie_path_proper (st : Store) (l : list nat) :
  forall prev s s' total total',
  s == s' -> total == total' ->
  tie_path st prev s total l -> tie_path st prev s' total' l.
Proof.
  induction l as [| x l IH]; intros prev s s' total total' Es Et H;
    [destruct H |].
  destruct H as (H1 & H2 & H3 & H4 & H5).
  split; [exact H1 |]. split; [exact H2 |].
  split; [rewrite <- Es; exact H3 |]. split; [exact H4 |].
  destruct l as [| y l].
  - destruct H5 as [H5 H6]. split; [exact H5 | rewrite <- Et; exact H6].
  - destruct H5 as [H5 H6]. split; [exact H5 |].
    eapply IH; [| | exact H6]; lra.
Qed.

(** The pieces after the first start later than it. *)
Lemma tie_path_starts (st : Store) (l : list nat) :
  forall prev s total x,
  tie_path st prev s total l -> In x l ->
  (x < List.length st)%nat /\ s <= Note.start (deref st x) /\
  (Note.start (deref st x) == s -> hd_error l = Some x).
Proof.
  induction l as [| a l IH]; intros prev s total x H Hx; [destruct H |].
  destruct H as (H1 & H2 & H3 & H4 & H5).
  destruct Hx as [<- | Hx].
  - split; [exact H1 |]. split; [lra | reflexivity].
  - destruct l as [| y l]; [destruct Hx |].
    destruct H5 as [_ H5].
    destruct (IH _ _ _ x H5 Hx) as (A & B & _).
    split; [exact A |]. split; [lra |]. intros E. exfalso. lra.
Qed.

Lemma tie_path_start_inj (st : Store) (l : list nat) :
  forall prev s total x y,
  tie_path st prev s total l -> In x l -> In y l ->
  Note.start (deref st x) == Note.start (deref st y) -> x = y.
Proof.
  induction l as [| a l IH]; intros prev s total x y H Hx Hy E;
    [destruct H |].
  pose proof H as H0.
  destruct H as (H1 & H2 & H3 & H4 & H5).
  destruct (tie_path_starts _ _ _ _ _ x H0 Hx) as (_ & _ & Hhx).
  destruct (tie_path_starts _ _ _ _ _ y H0 Hy) as (_ & _ & Hhy).
  destruct Hx as [<- | Hx], Hy as [<- | Hy]; try reflexivity.
  - assert (E' : Note.start (deref st y) == s) by lra.
    specialize (Hhy E'). cbn in Hhy. congruence.
  - assert (E' : Note.start (deref st x) == s) by lra.
    specialize (Hhx E'). cbn in Hhx. congruence.
  - destruct l as [| b l]; [destruct Hx |].
    destruct H5 as [_ H5]. eapply IH; eassumption.
Qed.

(** A path only looks at its own notes. *)
Lemma tie_path_frame (st st' : Store) (l : list nat) :
  forall prev s total,
  (List.length st <= List.length st')%nat ->
  (forall x, In x l -> deref st' x = deref st x) ->
  tie_path st prev s total l -> tie_path st' prev s total l.
Proof.
  induction l as [| a l IH]; intros prev s total Hlen Hf H; [destruct H |].
  destruct H as (H1 & H2 & H3 & H4 & H5).
  rewrite <- (Hf a (or_introl eq_refl)) in *.
  split; [lia |]. split; [exact H2 |]. split; [exact H3 |]. split; [exact H4 |].
  destruct l as [| y l]; [exact H5 |].
  destruct H5 as [H5 H6]. split; [exact H5 |].
  apply IH; [exact Hlen | | exact H6].
  intros x Hx. apply Hf. right. exact Hx.
Qed.

(** The path whose first note is tied from another note instead. *)
Lemma tie_path_retie (st st' : Store) (l : list nat) (y : nat) :
  forall prev prev' s total,
  (List.length st <= List.length st')%nat ->
  deref st' y = Note.set_tiedFrom prev' (deref st y) ->
  (forall x, In x l -> deref st' x = deref st x) ->
  ~ In y l ->
  tie_path st prev s total (y :: l) -> tie_path st' prev' s total (y :: l).
Proof.
  intros prev prev' s total Hlen Hy Hf Hnin H.
  destruct H as (H1 & H2 & H3 & H4 & H5).
  cbn [tie_path]. rewrite Hy. cbn.
  split; [lia |]. split; [reflexivity |]. split; [exact H3 |].
  split; [exact H4 |].
  destruct l as [| z l]; [exact H5 |].
  destruct H5 as [H5 H6]. split; [exact H5 |].
  apply (tie_path_frame st st'); [exact Hlen | exact Hf | exact H6].
Qed.

Lemma tie_path_notin_tail (st : Store) (y : nat) (l : list nat)
    (prev : option nat) (s total : Q) :
  tie_path st prev s total (y :: l) -> ~ In y l.
Proof.
  intros H Hin. pose proof H as H0.
  destruct H as (_ & _ & H3 & H4 & H5).
  destruct l as [| z l]; [destruct Hin |].
  destruct H5 as [_ H5].
  destruct (tie_path_starts _ _ _ _ _ y H5 Hin) as (_ & Hge & _). lra.
Qed.

Lemma tie_path_next_in (st : Store) (l : list nat) :
  forall prev s total r z,
  tie_path st prev s total l -> In r l ->
  Note.tiedTo (deref st r) = Some z -> In z l /\ z <> r.
Proof.
  induction l as [| x l IH]; intros prev s total r z H Hr Hz; [destruct H |].
  pose proof (tie_path_notin_tail _ _ _ _ _ _ H) as Hnot.
  destruct H as (_ & _ & _ & _ & H5).
  destruct Hr as [-> | Hr].
  - destruct l as [| y l]; [destruct H5; congruence |].
    destruct H5 as [H5 _]. rewrite H5 in Hz. inversion Hz. subst.
    split; [right; left; reflexivity |].
    intros ->. apply Hnot. left. reflexivity.
  - destruct l as [| y l]; [destruct Hr |].
    destruct H5 as [_ H5].
    destruct (IH _ _ _ r z H5 Hr Hz) as [A B]. split; [right; exact A | exact B].
Qed.

(** The list [l] with [new] put after [r]. *)
Fixpoint insert_after (r new : nat) (l : list nat) : list nat :=
  match l with
  | [] => []
  | x :: l' =>
      if Nat.eqb x r then x :: new :: l' else x :: insert_after r new l'
  end.

Lemma In_insert_after (r new x : nat) (l : list nat) :
  In x (insert_after r new l) <-> In x l \/ (x = new /\ In r l).
Proof.
  induction l as [| a l IH]; cbn; [tauto |].
  destruct (Nat.eqb a r) eqn:E.
  - apply Nat.eqb_eq in E. subst. cbn. intuition auto.
  - apply Nat.eqb_neq in E. cbn. rewrite IH. intuition (subst; auto).
Qed.

Lemma hd_insert_after (r new : nat) (l : list nat) :
  hd_error (insert_after r new l) = hd_error l.
Proof. destruct l as [| a l]; cbn; [| destruct (Nat.eqb a r)]; reflexivity. Qed.

(** The links of the store after a split: the new ones, and the old ones. *)
Lemma link_after_split (st : Store) (r : nat) (quarters : Q) (x y : nat) :
  (r < List.length st)%nat ->
  (forall next, Note.tiedTo (deref st r) = Some next ->
                (next < List.length st)%nat) ->
  (x < S (List.length st))%nat ->
  Note.tiedFrom (deref (store_after_split st r quarters) x) = Some y \/
  Note.tiedTo (deref (store_after_split st r quarters) x) = Some y ->
  (x = List.length st /\ y = r) \/
  (x = List.length st /\ Note.tiedTo (deref st r) = Some y) \/
  (x = r /\ y = List.length st) \/
  (Note.tiedTo (deref st r) = Some x /\ y = List.length st) \/
  ((x < List.length st)%nat /\
   (Note.tiedFrom (deref st x) = Some y \/ Note.tiedTo (deref st x) = Some y)).
Proof.
  intros Hr Hnext Hx.
  rewrite (deref_store_after_split st r quarters x Hr Hnext).
  destruct (Nat.eqb x (List.length st)) eqn:E1.
  { apply Nat.eqb_eq in E1. cbn. intros [H | H]; inversion H; subst; intuition auto. }
  apply Nat.eqb_neq in E1.
  assert (Hx' : (x < List.length st)%nat) by lia.
  destruct (Nat.eqb x r) eqn:E2.
  { apply Nat.eqb_eq in E2. subst x.
    destruct (Note.tiedTo (deref st r)) as [next |] eqn:En.
    - destruct (Nat.eqb next r) eqn:E3; cbn.
      + apply Nat.eqb_eq in E3. subst next.
        intros [H | H]; inversion H; subst; intuition auto.
      + intros [H | H]; [| inversion H; subst; intuition auto].
        right. right. right. right. auto.
    - cbn. intros [H | H]; [| inversion H; subst; intuition auto].
      right. right. right. right. auto. }
  destruct (Note.tiedTo (deref st r)) as [next |] eqn:En.
  - destruct (Nat.eqb next x) eqn:E3.
    + apply Nat.eqb_eq in E3. subst next. cbn.
      intros [H | H]; [inversion H; subst; intuition auto |].
      right. right. right. right. auto.
    + intros H. right. right. right. right. auto.
  - intros H. right. right. right. right. auto.
Qed.

(** The path through a note that is split goes through its continuation. *)
Lemma tie_path_split (st : Store) (r : nat) (quarters : Q) (l : list nat) :
  (r < List.length st)%nat ->
  (forall next, Note.tiedTo (deref st r) = Some next ->
                (next < List.length st)%nat) ->
  Note.start (deref st r) < quarters ->
  quarters + eps <= Note.start (deref st r) + Note.length (deref st r) ->
  forall prev s total,
  tie_path st prev s total l -> In r l ->
  tie_path (store_after_split st r quarters) prev s total
    (insert_after r (List.length st) l).
Proof.
  intros Hr Hnext Hq1 Hq2. pose proof eps_pos as He.
  set (st' := store_after_split st r quarters).
  assert (Hlen' : List.length st' = S (List.length st))
    by (unfold st'; apply store_after_split_length).
  assert (Hlen : (List.length st <= List.length st')%nat) by lia.
  induction l as [| x l IH]; intros prev s total H Hin; [destruct H |].
  pose proof (tie_path_notin_tail _ _ _ _ _ _ H) as Hnot.
  pose proof H as H0.
  destruct H as (H1 & H2 & H3 & H4 & H5).
  cbn [insert_after].
  destruct (Nat.eqb x r) eqn:Exr.
  - apply Nat.eqb_eq in Exr. subst x.
    assert (Hself : match Note.tiedTo (deref st r) with
                    | Some next => Nat.eqb next r
                    | None => false
                    end = false).
    { destruct (Note.tiedTo (deref st r)) as [z |] eqn:Ez; [| reflexivity].
      apply Nat.eqb_neq.
      apply (tie_path_next_in _ _ _ _ _ r z H0 (or_introl eq_refl) Ez). }
    assert (Er : deref st' r =
                 Note.set_tiedTo (Some (List.length st))
                   (Note.set_length (quarters - Note.start (deref st r))
                      (deref st r))).
    { unfold st'. rewrite (deref_store_after_split st r quarters r Hr Hnext).
      assert (Nat.eqb r (List.length st) = false) as ->
        by (apply Nat.eqb_neq; lia).
      rewrite Nat.eqb_refl, Hself. reflexivity. }
    assert (En : deref st' (List.length st) =
                 Note.set_tiedTo (Note.tiedTo (deref st r))
                   (splitted_note (deref st r) r quarters)).
    { unfold st'.
      rewrite (deref_store_after_split st r quarters _ Hr Hnext).
      rewrite Nat.eqb_refl. reflexivity. }
    cbn [tie_path]. rewrite Er, En. cbn.
    split; [lia |]. split; [exact H2 |]. split; [exact H3 |]. split; [lra |].
    split; [reflexivity |].
    split; [lia |]. split; [reflexivity |]. split; [lra |]. split; [lra |].
    destruct l as [| y l].
    + destruct H5 as [H5 H6]. rewrite H5. split; [reflexivity | lra].
    + destruct H5 as [H5 H6]. rewrite H5. split; [reflexivity |].
      pose proof (tie_path_notin_tail _ _ _ _ _ _ H6) as Hnoty.
      assert (Hyr : y <> r) by (intros ->; apply Hnot; left; reflexivity).
      assert (Hyv : (y < List.length st)%nat) by (apply Hnext; exact H5).
      eapply tie_path_proper;
        [| | apply (tie_path_retie st st' l y (Some r) (Some (List.length st)));
             [exact Hlen | | | exact Hnoty | exact H6]].
      * lra.
      * lra.
      * unfold st'. rewrite (deref_store_after_split st r quarters y Hr Hnext).
        assert (Nat.eqb y (List.length st) = false) as ->
          by (apply Nat.eqb_neq; lia).
        assert (Nat.eqb y r = false) as -> by (apply Nat.eqb_neq; exact Hyr).
        rewrite H5, Nat.eqb_refl. reflexivity.
      * intros z Hz. unfold st'.
        rewrite (deref_store_after_split st r quarters z Hr Hnext).
        destruct (tie_path_starts _ _ _ _ _ z H6 (or_intror Hz)) as (Hzv & _).
        assert (Nat.eqb z (List.length st) = false) as ->
          by (apply Nat.eqb_neq; lia).
        assert (Nat.eqb z r = false) as ->.
        { apply Nat.eqb_neq. intros ->. apply Hnot. right. exact Hz. }
        rewrite H5.
        assert (Nat.eqb y z = false) as ->.
        { apply Nat.eqb_neq. intros ->. apply Hnoty. exact Hz. }
        reflexivity.
  - apply Nat.eqb_neq in Exr.
    destruct Hin as [Hin | Hin]; [congruence |].
    destruct l as [| y l]; [destruct Hin |].
    destruct H5 as [H5 H6].
    assert (Ex : deref st' x = deref st x).
    { unfold st'. rewrite (deref_store_after_split st r quarters x Hr Hnext).
      assert (Nat.eqb x (List.length st) = false) as ->
        by (apply Nat.eqb_neq; lia).
      assert (Nat.eqb x r = false) as -> by (apply Nat.eqb_neq; exact Exr).
      destruct (Note.tiedTo (deref st r)) as [z |] eqn:Ez; [| reflexivity].
      assert (Nat.eqb z x = false) as ->; [| reflexivity].
      apply Nat.eqb_neq. intros ->.
      destruct (tie_path_next_in _ _ _ _ _ r x H6 Hin Ez) as [Hzin _].
      apply Hnot. exact Hzin. }
    specialize (IH _ _ _ H6 Hin).
    change (tie_path st' prev s total (x :: insert_after r (List.length st) (y :: l))).
    pose proof (hd_insert_after r (List.length st) (y :: l)) as Hhd.
    destruct (insert_after r (List.length st) (y :: l)) as [| y' l'] eqn:Ei;
      [discriminate |].
    cbn in Hhd. inversion Hhd. subst y'.
    cbn [tie_path]. rewrite Ex.
    split; [lia |]. split; [exact H2 |]. split; [exact H3 |]. split; [exact H4 |].
    split; [exact H5 | exact IH].
Qed.

(** ** The tie chains of a build *)

(** Two notes of the score sound at the same time. *)
Definition overlap (a b : NoteInfo) : Prop :=
  ni_start a < ni_start b + ni_length b /\
  ni_start b < ni_start a + ni_length a.

Section Chains.
(** The notes of the score, in start order. *)
Variable ns : list NoteInfo.

Definition orig (o : nat) : NoteInfo := nth o ns (mkNoteInfo 0 0 0%Z 0%Z).

(** The note [i] of the score is not struck again while it sounds: no
    other note of the same pitch overlaps it. *)
Definition not_restruck (i : nat) : Prop :=
  (i < List.length ns)%nat /\
  forall j, (j < List.length ns)%nat -> j <> i ->
    ni_pitch (orig j) = ni_pitch (orig i) -> ~ overlap (orig j) (orig i).

(** The invariant of the store during the second pass.  [org r] is the
    note of the score that the note [r] of the store is a piece of. *)
Record chains_ok (st : Store) (org : nat -> nat) : Prop := mkChains {
  c_size : (List.length ns <= List.length st)%nat;
  c_org : forall r, (r < List.length st)%nat ->
    (org r < List.length ns)%nat /\
    Note.pitch (deref st r) = ni_pitch (orig (org r)) /\
    ni_start (orig (org r)) <= Note.start (deref st r) /\
    Note.start (deref st r) + Note.length (deref st r)
      <= ni_start (orig (org r)) + ni_length (orig (org r)) /\
    0 < Note.length (deref st r);
  c_valid : forall r x, (r < List.length st)%nat ->
    Note.tiedFrom (deref st r) = Some x \/ Note.tiedTo (deref st r) = Some x ->
    (x < List.length st)%nat;
  c_link : forall r x, (r < List.length st)%nat ->
    Note.tiedFrom (deref st r) = Some x \/ Note.tiedTo (deref st r) = Some x ->
    not_restruck (org r) \/ not_restruck (org x) -> org r = org x;
  c_chain : forall i, not_restruck i ->
    exists l,
      hd_error l = Some i /\
      tie_path st None (ni_start (orig i)) (ni_length (orig i)) l /\
      (forall r, In r l -> org r = i) /\
      (forall r, (r < List.length st)%nat -> org r = i -> In r l)
}.

(** Two different notes of the store that start together at one pitch are
    pieces of notes that are struck again. *)
Lemma same_start_restruck (st : Store) (org : nat -> nat) (x y : nat) :
  chains_ok st org ->
  (x < List.length st)%nat -> (y < List.length st)%nat -> x <> y ->
  Note.start (deref st x) == Note.start (deref st y) ->
  Note.pitch (deref st x) = Note.pitch (deref st y) ->
  ~ not_restruck (org x) /\ ~ not_restruck (org y).
Proof.
  intros HI Hx Hy Hne Es Ep.
  destruct (c_org _ _ HI x Hx) as (Hox & Hpx & Hsx & Hex & Hlx).
  destruct (c_org _ _ HI y Hy) as (Hoy & Hpy & Hsy & Hey & Hly).
  destruct (Nat.eq_dec (org x) (org y)) as [E | E].
  - assert (Hno : ~ not_restruck (org x)).
    { intros Hg. destruct (c_chain _ _ HI _ Hg) as (l & _ & Hp & _ & Hcov).
      apply Hne.
      apply (tie_path_start_inj _ _ _ _ _ x y Hp); auto. }
    split; [exact Hno | rewrite <- E; exact Hno].
  - assert (Hov : overlap (orig (org y)) (orig (org x))) by (split; lra).
    split.
    + intros [_ Hg]. apply (Hg (org y) Hoy); [congruence | congruence | exact Hov].
    + intros [_ Hg].
      apply (Hg (org x) Hox); [congruence | congruence |].
      destruct Hov. split; assumption.
Qed.

(** A link of a piece of a note that is struck again leads to a piece of
    such a note. *)
Lemma link_of_restruck (st : Store) (org : nat -> nat) (x y : nat) :
  chains_ok st org -> (x < List.length st)%nat ->
  Note.tiedFrom (deref st x) = Some y \/ Note.tiedTo (deref st x) = Some y ->
  ~ not_restruck (org x) ->
  (y < List.length st)%nat /\ ~ not_restruck (org y).
Proof.
  intros HI Hx Hl Hb. split; [apply (c_valid _ _ HI x y Hx Hl) |].
  intros Hg. apply Hb.
  rewrite (c_link _ _ HI x y Hx Hl (or_intror Hg)). exact Hg.
Qed.

(** The invariant is kept when only links among pieces of notes that are
    struck again change. *)
Lemma chains_ok_relinked (st st' : Store) (org : nat -> nat) :
  chains_ok st org ->
  same_shape st st' ->
  (forall x, (x < List.length st)%nat ->
     deref st' x = deref st x \/
     (~ not_restruck (org x) /\
      forall y,
        Note.tiedFrom (deref st' x) = Some y \/
        Note.tiedTo (deref st' x) = Some y ->
        (y < List.length st)%nat /\ ~ not_restruck (org y))) ->
  chains_ok st' org.
Proof.
  intros HI [Hlen Hsh] Hch.
  constructor.
  - rewrite Hlen. apply (c_size _ _ HI).
  - intros r Hr. rewrite Hlen in Hr.
    destruct (Hsh r) as (-> & -> & ->). apply (c_org _ _ HI r Hr).
  - intros r x Hr Hl. rewrite Hlen in *.
    destruct (Hch r Hr) as [E | [_ Hb]].
    + rewrite E in Hl. apply (c_valid _ _ HI r x Hr Hl).
    + apply (Hb x Hl).
  - intros r x Hr Hl Hg. rewrite Hlen in *.
    destruct (Hch r Hr) as [E | [Hbr Hb]].
    + rewrite E in Hl. apply (c_link _ _ HI r x Hr Hl Hg).
    + destruct (Hb x Hl) as [_ Hbx]. destruct Hg; contradiction.
  - intros i Hg.
    destruct (c_chain _ _ HI i Hg) as (l & Hhd & Hp & Hin & Hcov).
    exists l. split; [exact Hhd |]. split; [| split; [exact Hin |]].
    + apply (tie_path_frame st st'); [lia | | exact Hp].
      intros x Hx.
      destruct (tie_path_starts _ _ _ _ _ x Hp Hx) as (Hxv & _).
      destruct (Hch x Hxv) as [E | [Hbx _]]; [exact E |].
      exfalso. apply Hbx. rewrite (Hin x Hx). exact Hg.
    + intros r Hr. rewrite Hlen in Hr. apply Hcov. exact Hr.
Qed.

Lemma chains_ok_set_link (st : Store) (org : nat -> nat) (x y : nat)
    (f : Note.t -> Note.t) :
  (f = Note.set_tiedFrom (Some y) \/ f = Note.set_tiedTo (Some y)) ->
  chains_ok st org ->
  (x < List.length st)%nat -> ~ not_restruck (org x) ->
  (y < List.length st)%nat -> ~ not_restruck (org y) ->
  chains_ok (list_update st x f) org.
Proof.
  intros Hf HI Hx Hbx Hy Hby.
  apply (chains_ok_relinked st); [exact HI | |].
  - apply same_shape_update_links; destruct Hf as [-> | ->]; reflexivity.
  - intros z Hz. destruct (Nat.eq_dec z x) as [-> | Hne].
    + right. split; [exact Hbx |].
      rewrite deref_update_same by exact Hx.
      intros w Hw.
      destruct Hf as [-> | ->]; cbn in Hw; destruct Hw as [Hw | Hw];
        try (inversion Hw; subst; split; assumption);
        [apply (link_of_restruck st org x w HI Hx (or_intror Hw) Hbx)
        |apply (link_of_restruck st org x w HI Hx (or_introl Hw) Hbx)].
    + left. apply deref_update_other. exact Hne.
Qed.

Lemma relink_chains_ok (st : Store) (org : nat -> nat) (old new : nat) :
  chains_ok st org ->
  (old < List.length st)%nat -> ~ not_restruck (org old) ->
  (new < List.length st)%nat -> ~ not_restruck (org new) ->
  chains_ok (relink st old new) org.
Proof.
  intros HI Ho Hbo Hn Hbn. unfold relink.
  assert (H1 : exists st1,
             st1 = match Note.tiedFrom (deref st old) with
                   | Some prev =>
                       list_update
                         (list_update st new (Note.set_tiedFrom (Some prev)))
                         prev (Note.set_tiedTo (Some new))
                   | None => st
                   end /\
             chains_ok st1 org /\ List.length st1 = List.length st).
  { eexists. split; [reflexivity |].
    destruct (Note.tiedFrom (deref st old)) as [prev |] eqn:E; [| auto].
    destruct (link_of_restruck st org old prev HI Ho (or_introl E) Hbo)
      as [Hpv Hpb].
    split; [| rewrite !list_update_length; reflexivity].
    apply (chains_ok_set_link _ org prev new); auto;
      rewrite ?list_update_length; auto.
    apply (chains_ok_set_link _ org new prev); auto. }
  destruct H1 as (st1 & <- & HI1 & Hl1).
  destruct (Note.tiedTo (deref st1 old)) as [next |] eqn:E; [| exact HI1].
  destruct (link_of_restruck st1 org old next HI1 ltac:(lia) (or_intror E) Hbo)
    as [Hnv Hnb].
  apply (chains_ok_set_link _ org next new); auto;
    rewrite ?list_update_length; try lia.
  apply (chains_ok_set_link _ org new next); auto; lia.
Qed.

(** [addNote] of a note that starts where the block starts keeps the
    invariant: only a note that is struck again can take over links. *)
Lemma addNote_chains_ok (st : Store) (org : nat -> nat) (b : Block.t) (j : nat)
    (st' : Store) (b' : Block.t) (ok : bool) :
  addNote st b j = (st', b', ok) ->
  chains_ok st org ->
  block_ok st b ->
  (j < List.length st)%nat ->
  (Block.notes b = [] \/ Note.start (deref st j) == Block.start b) ->
  chains_ok st' org.
Proof.
  intros Ha HI Hb Hj Hs.
  destruct (addNote_store _ _ _ _ _ _ Ha)
    as [-> | (old & Hin & Hp & Hl & _ & ->)]; [exact HI |].
  destruct (Hb old Hin) as [Hov Hos].
  destruct Hs as [Hs | Hs]; [rewrite Hs in Hin; destruct Hin |].
  assert (Hne : old <> j) by (intros ->; lra).
  destruct (same_start_restruck st org old j HI Hov Hj Hne) as [Hbo Hbj].
  - rewrite Hos, Hs. reflexivity.
  - exact Hp.
  - apply relink_chains_ok; assumption.
Qed.

(** The split of a note keeps the invariant; the continuation is a piece
    of the same note of the score. *)
Lemma split_chains_ok (st : Store) (org : nat -> nat) (r : nat) (quarters : Q) :
  chains_ok st org ->
  (r < List.length st)%nat ->
  Note.start (deref st r) < quarters ->
  quarters + eps <= Note.start (deref st r) + Note.length (deref st r) ->
  chains_ok (store_after_split st r quarters)
    (fun x => if Nat.eqb x (List.length st) then org r else org x).
Proof.
  intros HI Hr Hq1 Hq2. pose proof eps_pos as He.
  set (st' := store_after_split st r quarters).
  set (org' := fun x => if Nat.eqb x (List.length st) then org r else org x).
  assert (Hnext : forall next, Note.tiedTo (deref st r) = Some next ->
                    (next < List.length st)%nat).
  { intros next Hn. apply (c_valid _ _ HI r next Hr). right. exact Hn. }
  assert (Hlen : List.length st' = S (List.length st))
    by apply store_after_split_length.
  assert (Horg_old : forall x, (x < List.length st)%nat -> org' x = org x).
  { intros x Hx. unfold org'.
    assert (Nat.eqb x (List.length st) = false) as ->
      by (apply Nat.eqb_neq; lia).
    reflexivity. }
  assert (Horg_new : org' (List.length st) = org r).
  { unfold org'. rewrite Nat.eqb_refl. reflexivity. }
  destruct (c_org _ _ HI r Hr) as (Hor & Hpr & Hsr & Her & Hlr).
  constructor.
  - rewrite Hlen. pose proof (c_size _ _ HI). lia.
  - intros x Hx. rewrite Hlen in Hx.
    destruct (store_after_split_shape st r quarters x Hr) as (Es & Ep & El).
    fold st' in Es, Ep, El. rewrite Es, Ep, El.
    destruct (Nat.eqb x (List.length st)) eqn:E1.
    + apply Nat.eqb_eq in E1. subst x. rewrite Horg_new.
      repeat split; auto; lra.
    + apply Nat.eqb_neq in E1. rewrite Horg_old by lia.
      destruct (c_org _ _ HI x ltac:(lia)) as (Hox & Hpx & Hsx & Hex & Hlx).
      destruct (Nat.eqb x r) eqn:E2.
      * apply Nat.eqb_eq in E2. subst x. repeat split; auto; lra.
      * repeat split; auto.
  - intros x y Hx Hl. rewrite Hlen in *.
    destruct (link_after_split st r quarters x y Hr Hnext Hx Hl)
      as [(-> & ->) | [(-> & Hy) | [(-> & ->) | [(Hy & ->) | (Hx' & Hy)]]]].
    + lia.
    + specialize (Hnext _ Hy). lia.
    + lia.
    + lia.
    + pose proof (c_valid _ _ HI x y Hx' Hy). lia.
  - intros x y Hx Hl Hg. rewrite Hlen in *.
    destruct (link_after_split st r quarters x y Hr Hnext Hx Hl)
      as [(-> & ->) | [(-> & Hy) | [(-> & ->) | [(Hy & ->) | (Hx' & Hy)]]]].
    + rewrite Horg_new, Horg_old by exact Hr. reflexivity.
    + pose proof (Hnext _ Hy) as Hyv.
      rewrite Horg_new, Horg_old in * by exact Hyv.
      apply (c_link _ _ HI r y Hr (or_intror Hy) Hg).
    + rewrite Horg_new, Horg_old by exact Hr. reflexivity.
    + pose proof (Hnext _ Hy) as Hxv.
      rewrite Horg_new, Horg_old in * by exact Hxv.
      symmetry. apply (c_link _ _ HI r x Hr (or_intror Hy)).
      destruct Hg; auto.
    + pose proof (c_valid _ _ HI x y Hx' Hy) as Hyv.
      rewrite !Horg_old in * by assumption.
      apply (c_link _ _ HI x y Hx' Hy Hg).
  - intros i Hg.
    destruct (c_chain _ _ HI i Hg) as (l & Hhd & Hp & Hin & Hcov).
    destruct (Nat.eq_dec (org r) i) as [Ei | Ei].
    + exists (insert_after r (List.length st) l).
      assert (Hrl : In r l) by (apply Hcov; assumption).
      split; [rewrite hd_insert_after; exact Hhd |].
      split; [apply tie_path_split; assumption |].
      split.
      * intros x Hx. apply In_insert_after in Hx.
        destruct Hx as [Hx | [-> _]].
        -- destruct (tie_path_starts _ _ _ _ _ x Hp Hx) as (Hxv & _).
           rewrite Horg_old by exact Hxv. apply Hin. exact Hx.
        -- rewrite Horg_new. exact Ei.
      * intros x Hx Hox. rewrite Hlen in Hx. apply In_insert_after.
        destruct (Nat.eq_dec x (List.length st)) as [-> | Hne].
        -- right. auto.
        -- left. apply Hcov; [lia |]. rewrite <- Horg_old by lia. exact Hox.
    + exists l. split; [exact Hhd |].
      split.
      * apply (tie_path_frame st st'); [lia | | exact Hp].
        intros x Hx.
        destruct (tie_path_starts _ _ _ _ _ x Hp Hx) as (Hxv & _).
        pose proof (Hin x Hx) as Hox.
        unfold st'. rewrite (deref_store_after_split st r quarters x Hr Hnext).
        assert (Nat.eqb x (List.length st) = false) as ->
          by (apply Nat.eqb_neq; lia).
        assert (Nat.eqb x r = false) as ->
          by (apply Nat.eqb_neq; intros ->; congruence).
        destruct (Note.tiedTo (deref st r)) as [z |] eqn:Ez; [| reflexivity].
        assert (Nat.eqb z x = false) as ->; [| reflexivity].
        apply Nat.eqb_neq. intros ->. apply Ei.
        rewrite (c_link _ _ HI r x Hr (or_intror Ez)); [exact Hox |].
        right. rewrite Hox. exact Hg.
      * split.
        -- intros x Hx.
           destruct (tie_path_starts _ _ _ _ _ x Hp Hx) as (Hxv & _).
           rewrite Horg_old by exact Hxv. apply Hin. exact Hx.
        -- intros x Hx Hox. rewrite Hlen in Hx.
           destruct (Nat.eq_dec x (List.length st)) as [-> | Hne].
           ++ rewrite Horg_new in Hox. contradiction.
           ++ apply Hcov; [lia |]. rewrite <- Horg_old by lia. exact Hox.
Qed.

End Chains.

(** ** The second pass keeps the blocks and the chains in order *)

(** A cut keeps the notes of both halves in order. *)
Lemma split_block_ok (st : Store) (c : Block.t) (quarters : Q) (m : MeasuresInfo)
    (st' : Store) (h t : Block.t) :
  split st c quarters m = (st', h, Some t) ->
  block_ok st c ->
  store_ext st st' /\ block_ok st' h /\ block_ok st' t /\
  Block.start h = Block.start c /\ Block.start t == quarters.
Proof.
  intros Hs Hc.
  destruct (split_cases _ _ _ _ _ _ _ Hs) as [(Hn & _) | (H1 & H2 & Hx)];
    [discriminate |].
  destruct Hx as (st1 & frags & t0 & t' & Ht & Hsn & Han & Hhs & _ & Hhn & Ets & _ & Etn).
  inversion Ht. subst t'. clear Ht.
  destruct (splitNotes_spec _ _ _ _ _ Hsn) as (Hext & _ & Hfr).
  eapply addNotes_block_ok in Han as (Hsh & Hb0 & Hs0 & _).
  2:{ intros r []. }
  2:{ intros j Hj. destruct (Hfr j Hj) as [Hv ->]. cbn. split; [lia | reflexivity]. }
  assert (Hext' : store_ext st st')
    by (eapply store_ext_trans; [exact Hext | apply same_shape_ext; exact Hsh]).
  split; [exact Hext' |].
  split.
  { apply (block_ok_geo st' c h); [rewrite Hhs; reflexivity | exact Hhn |].
    apply (block_ok_ext st st'); assumption. }
  split.
  { apply (block_ok_geo st' t0 t); [rewrite Ets; reflexivity | exact Etn | exact Hb0]. }
  split; [exact Hhs |]. rewrite Ets. exact Hs0.
Qed.

(** The blocks of the map are filed under their start and hold notes in
    order. *)
Definition map_ok (st : Store) (map : JianpuBlockMap) : Prop :=
  entries_ok (fun k b => k == Block.start b /\ block_ok st b) map.

Lemma map_entry_proper (st : Store) (k k' : Q) (b : Block.t) :
  k == k' -> k == Block.start b /\ block_ok st b ->
  k' == Block.start b /\ block_ok st b.
Proof. intros E [H1 H2]. split; [rewrite <- E; exact H1 | exact H2]. Qed.

Lemma map_ok_ext (st st' : Store) (map : JianpuBlockMap) :
  store_ext st st' -> map_ok st map -> map_ok st' map.
Proof.
  intros He. apply entries_ok_impl. intros k b [H1 H2].
  split; [exact H1 | apply (block_ok_ext st st'); assumption].
Qed.

Lemma mergeToMap_ok (st : Store) (b : Block.t) (map : JianpuBlockMap)
    (st' : Store) (map' : JianpuBlockMap) :
  mergeToMap st b map = (st', map') ->
  map_ok st map -> block_ok st b ->
  same_shape st st' /\ map_ok st' map'.
Proof.
  unfold mergeToMap. intros H Hm Hb.
  destruct (NumMap.get map (Block.start b)) as [existing |] eqn:Eg.
  - destruct (entries_ok_get _ (map_entry_proper st) _ _ _ Hm Eg) as [Hk He].
    destruct (addNotes st existing (Block.notes b)) as [st1 e1] eqn:Ea.
    injection H as <- <-.
    eapply addNotes_block_ok in Ea as (Hsh & Hb1 & Hs1 & _); [| exact He |].
    + split; [exact Hsh |].
      apply entries_ok_set; [apply map_entry_proper | |].
      * apply (map_ok_ext st st1); [apply same_shape_ext; exact Hsh | exact Hm].
      * destruct (Qeq_bool (Block.measureNumber b) 0); cbn;
          (split; [rewrite Hs1; exact Hk |]);
          [exact Hb1 | apply (block_ok_geo st1 e1); [reflexivity | reflexivity | exact Hb1]].
    + intros j Hj. destruct (Hb j Hj) as [Hv Hs]. split; [exact Hv |].
      rewrite Hs. exact Hk.
  - injection H as <- <-. split; [apply same_shape_refl |].
    apply entries_ok_set; [apply map_entry_proper | exact Hm |].
    split; [reflexivity | exact Hb].
Qed.

Section ChainsOfBuild.
Variable ns : list NoteInfo.
Variable m : MeasuresInfo.

(** The store holds the tie chains of the notes that are not struck
    again. *)
Definition chained (st : Store) : Prop := exists org, chains_ok ns st org.

Lemma splitNotes_chained (l : list nat) (quarters : Q) :
  forall (st st' : Store) (frags : list nat),
  splitNotes st l quarters = (st', frags) ->
  chained st -> chained st'.
Proof.
  induction l as [| r l IH]; intros st st' frags H Hc; cbn in H.
  - inversion H. subst. exact Hc.
  - set (o := if Qltb (quarters + eps) _ then _ else _) in H.
    destruct o as [st1 part] eqn:Eo.
    destruct (splitNotes st1 l quarters) as [st2 parts] eqn:E2.
    inversion H. subst st2 frags. clear H.
    apply (IH _ _ _ E2).
    unfold o in Eo. destruct (Qltb (quarters + eps) _).
    + pose proof (splitJianpuNote_shape _ _ _ _ _ Eo) as Hs.
      destruct part as [f |]; [| subst; exact Hc].
      destruct Hs as (_ & _ & Hr & H1 & H2 & ->).
      destruct Hc as [org HI].
      eexists. apply split_chains_ok; eassumption.
    + inversion Eo. subst. exact Hc.
Qed.

Lemma addNotes_chained (l : list nat) :
  forall (st st' : Store) (b b' : Block.t),
  addNotes st b l = (st', b') ->
  chained st -> block_ok st b ->
  (forall j, In j l ->
     (j < List.length st)%nat /\ Note.start (deref st j) == Block.start b) ->
  chained st'.
Proof.
  induction l as [| j l IH]; intros st st' b b' H Hc Hb Hl; cbn in H.
  - inversion H. subst. exact Hc.
  - destruct (addNote st b j) as [[st1 b1] ok] eqn:Ea.
    destruct (Hl j (or_introl eq_refl)) as [Hj1 Hj2].
    destruct (addNote_block_ok _ _ _ _ _ _ Ea Hb Hj1 (or_intror Hj2))
      as (Hsh1 & Hb1 & Hs1 & _).
    apply (IH _ _ _ _ H); [| exact Hb1 |].
    + destruct Hc as [org HI]. exists org.
      apply (addNote_chains_ok ns _ _ _ _ _ _ _ Ea HI Hb Hj1). right. exact Hj2.
    + intros j' Hj'. destruct (Hl j' (or_intror Hj')) as [A B].
      destruct Hsh1 as [Hlen Hsh]. destruct (Hsh j') as (-> & _).
      split; [lia |]. rewrite Hs1, B. symmetry. exact Hj2.
Qed.

Lemma split_chained (st : Store) (c : Block.t) (quarters : Q)
    (st' : Store) (h : Block.t) (ot : option Block.t) :
  split st c quarters m = (st', h, ot) ->
  chained st -> block_ok st c -> chained st'.
Proof.
  intros Hs Hc Hb.
  destruct (split_cases _ _ _ _ _ _ _ Hs) as [(_ & -> & _) | (H1 & H2 & Hx)];
    [exact Hc |].
  destruct Hx as (st1 & frags & t0 & t' & _ & Hsn & Han & _).
  destruct (splitNotes_spec _ _ _ _ _ Hsn) as (Hext & _ & Hfr).
  apply (addNotes_chained _ _ _ _ _ Han).
  - apply (splitNotes_chained _ _ _ _ _ Hsn Hc).
  - intros r [].
  - intros j Hj. destruct (Hfr j Hj) as [Hv ->]. cbn. split; [lia | reflexivity].
Qed.

Lemma mergeToMap_chained (st : Store) (b : Block.t) (map : JianpuBlockMap)
    (st' : Store) (map' : JianpuBlockMap) :
  mergeToMap st b map = (st', map') ->
  chained st -> map_ok st map -> block_ok st b -> chained st'.
Proof.
  unfold mergeToMap. intros H Hc Hm Hb.
  destruct (NumMap.get map (Block.start b)) as [existing |] eqn:Eg.
  - destruct (entries_ok_get _ (map_entry_proper st) _ _ _ Hm Eg) as [Hk He].
    destruct (addNotes st existing (Block.notes b)) as [st1 e1] eqn:Ea.
    injection H as <- <-.
    apply (addNotes_chained _ _ _ _ _ Ea Hc He).
    intros j Hj. destruct (Hb j Hj) as [Hv Hs]. split; [exact Hv |].
    rewrite Hs. exact Hk.
  - injection H as <- <-. exact Hc.
Qed.

(** The invariant of both loops of the second pass. *)
Definition pass_ok (st : Store) (map : JianpuBlockMap) (queue : list Block.t)
  : Prop :=
  chained st /\ Forall (block_ok st) queue /\ map_ok st map.

Lemma pass_ok_cut (st : Store) (map : JianpuBlockMap) (c c0 : Block.t)
    (q : list Block.t) (quarters : Q) (st1 : Store) (h t c1 r : Block.t)
    (st2 : Store) (map2 : JianpuBlockMap) :
  pass_ok st map (c :: q) ->
  Block.start c0 = Block.start c -> Block.notes c0 = Block.notes c ->
  split st c0 quarters m = (st1, h, Some t) ->
  Block.start c1 = Block.start h -> Block.notes c1 = Block.notes h ->
  Block.start r = Block.start t -> Block.notes r = Block.notes t ->
  mergeToMap st1 c1 map = (st2, map2) ->
  pass_ok st2 map2 (r :: q).
Proof.
  intros (Hc & Hq & Hm) Es En Hs Ecs Ecn Ers Ern Hmg.
  inversion Hq as [| ? ? Hbc Hq']. subst.
  assert (Hbc0 : block_ok st c0)
    by (apply (block_ok_geo st c); [rewrite Es; reflexivity | exact En | exact Hbc]).
  destruct (split_block_ok _ _ _ _ _ _ _ Hs Hbc0) as (Hext & Hbh & Hbt & _ & _).
  assert (Hbc1 : block_ok st1 c1)
    by (apply (block_ok_geo st1 h); [rewrite Ecs; reflexivity | exact Ecn | exact Hbh]).
  assert (Hm1 : map_ok st1 map) by (apply (map_ok_ext st st1); assumption).
  assert (Hc1 : chained st1) by (apply (split_chained _ _ _ _ _ _ Hs Hc Hbc0)).
  destruct (mergeToMap_ok _ _ _ _ _ Hmg Hm1 Hbc1) as [Hsh Hm2].
  pose proof (same_shape_ext _ _ Hsh) as Hext2.
  split; [apply (mergeToMap_chained _ _ _ _ _ Hmg Hc1 Hm1 Hbc1) |].
  split; [| exact Hm2].
  constructor.
  - apply (block_ok_ext st1 st2); [exact Hext2 |].
    apply (block_ok_geo st1 t); [rewrite Ers; reflexivity | exact Ern | exact Hbt].
  - rewrite Forall_forall in *. intros b Hb.
    apply (block_ok_ext st st2);
      [eapply store_ext_trans; eassumption | apply Hq'; exact Hb].
Qed.

Lemma processQueue_pass_ok (fuel : nat) (st : Store) (map : JianpuBlockMap)
    (queue : list Block.t) (st' : Store) (map' : JianpuBlockMap) :
  pass_ok st map queue ->
  processQueue fuel m st map queue = Some (st', map') ->
  pass_ok st' map' [].
Proof.
  apply (processQueue_invariant m pass_ok pass_ok).
  - intros st0 map0 c q st1 c1 r st2 map2 HI Hb Hmg.
    destruct (splitToBeat_some _ _ _ _ _ _ Hb)
      as (qs & c0 & h & t & _ & _ & Es & _ & En & Hs & Ecs & _ & Ecn & Ers & _ & Ern).
    eapply pass_ok_cut; eassumption.
  - intros st0 map0 c q st1 c1 (Hc & Hq & Hm) Hb.
    destruct (splitToBeat_none _ _ _ _ _ Hb) as (-> & Es & _ & En).
    inversion Hq. subst.
    split; [exact Hc |]. split; [| exact Hm].
    constructor; [| assumption].
    apply (block_ok_geo st0 c); [rewrite Es; reflexivity | exact En | assumption].
  - intros st0 map0 c q st1 c1 r st2 map2 HI Hb Hmg.
    destruct (splitToStandardSymbol_some _ _ _ _ _ _ Hb)
      as (qs & h & _ & _ & Hs & Ecs & _ & Ecn).
    eapply (pass_ok_cut st0 map0 c c); try eassumption; reflexivity.
  - intros st0 map0 c q st1 c1 st2 map2 (Hc & Hq & Hm) Hb Hmg.
    destruct (splitToStandardSymbol_none _ _ _ _ _ Hb) as (-> & Es & En & _).
    inversion Hq as [| ? ? Hbc Hq']. subst.
    assert (Hbc1 : block_ok st0 c1)
      by (apply (block_ok_geo st0 c); [rewrite Es; reflexivity | exact En | exact Hbc]).
    destruct (mergeToMap_ok _ _ _ _ _ Hmg Hm Hbc1) as [Hsh Hm2].
    split; [apply (mergeToMap_chained _ _ _ _ _ Hmg Hc Hm Hbc1) |].
    split; [| exact Hm2].
    rewrite Forall_forall in *. intros b Hb'.
    apply (block_ok_ext st0 st2); [apply same_shape_ext; exact Hsh | auto].
Qed.

End ChainsOfBuild.

(** The store after the first pass holds the notes of the score, each a
    chain of one piece. *)
Lemma grouped_chains_ok (m : MeasuresInfo) (sorted : list NoteInfo) :
  Forall note_wf sorted ->
  chains_ok sorted (g_store (grouped m sorted)) (fun r => r).
Proof.
  intros Hw. rewrite grouped_store.
  assert (Hd : forall r, (r < List.length sorted)%nat ->
            deref (map (note_of m) sorted) r = note_of m (orig sorted r) /\
            note_wf (orig sorted r)).
  { intros r Hr.
    destruct (deref_map_note_of m sorted r Hr) as (note & Hin & Hn & ->).
    unfold orig. rewrite (nth_error_nth _ _ _ Hn).
    split; [reflexivity |]. rewrite Forall_forall in Hw. apply Hw. exact Hin. }
  constructor.
  - rewrite length_map. lia.
  - intros r Hr. rewrite length_map in Hr.
    destruct (Hd r Hr) as [-> [Hw1 Hw2]]. cbn. repeat split; auto; lra.
  - intros r x Hr Hl. rewrite length_map in Hr.
    destruct (Hd r Hr) as [E _]. rewrite E in Hl. cbn in Hl.
    destruct Hl; discriminate.
  - intros r x Hr Hl. rewrite length_map in Hr.
    destruct (Hd r Hr) as [E _]. rewrite E in Hl. cbn in Hl.
    destruct Hl; discriminate.
  - intros i [Hi _]. exists [i].
    destruct (Hd i Hi) as [E [Hw1 Hw2]].
    split; [reflexivity |]. split.
    + cbn [tie_path]. rewrite E, length_map. cbn.
      repeat split; auto; lra.
    + split; [intros r [<- | []]; reflexivity |].
      intros r _ ->. left. reflexivity.
Qed.

Lemma grouped_pass_ok (m : MeasuresInfo) (sorted : list NoteInfo) :
  Forall note_wf sorted ->
  pass_ok sorted (g_store (grouped m sorted)) []
    (blockProcessingQueue (finalRest m (scoreEnd sorted) (grouped m sorted))).
Proof.
  intros Hw. split; [eexists; apply grouped_chains_ok; exact Hw |].
  split; [| constructor].
  rewrite Forall_forall. intros c Hc.
  apply In_blockProcessingQueue in Hc.
  destruct (entries_ok_In_values _ _ _ (finalRest_raw_ok m sorted Hw) Hc)
    as [k Hk].
  apply Hk.
Qed.

Lemma calculateRenderProperties_geo (st : Store) (b : Block.t)
    (m : MeasuresInfo) :
  Block.start (calculateRenderProperties st b m) = Block.start b /\
  Block.length (calculateRenderProperties st b m) = Block.length b /\
  Block.notes (calculateRenderProperties st b m) = Block.notes b.
Proof.
  unfold calculateRenderProperties.
  destruct (isSafeZero (Block.length b) || Qltb (Block.length b) 0)%bool;
    [cbn; auto |].
  repeat (match goal with
          | |- context [if ?c then _ else _] => destruct c
          | |- context [match Block.notes b with _ => _ end] =>
              destruct (Block.notes b) as [| ? [| ? ?]] eqn:?
          | |- context [match timeSignatureAtQ ?x ?y ?z with _ => _ end] =>
              destruct (timeSignatureAtQ x y z)
          end; cbn [Block.start Block.length Block.notes Block.set_render]);
    auto.
Qed.

(** The state of a model that [update] returns: the invariant of the
    second pass holds of its store and its map. *)
Lemma update_pass_ok (fuel : nat) (info : JianpuInfo) (defaultKey : option Z)
    (model : JianpuModel) :
  wf_score info ->
  update fuel info defaultKey = Some model ->
  pass_ok (sort_by ni_start (notes info)) (store model) (jianpuBlockMap model) []
  /\ lastQ model = scoreEnd (sort_by ni_start (notes info)).
Proof.
  intros [Hw _] H.
  pose proof (Forall_sort_by ni_start note_wf (notes info) Hw) as Hws.
  unfold update, infoToBlocks in H.
  set (sorted := sort_by ni_start (notes info)) in *.
  match type of H with
  | context [MeasuresInfoBuild.create ?i ?l] =>
      set (m := MeasuresInfoBuild.create i l) in *
  end.
  fold (grouped m sorted) in H.
  destruct (processQueue _ m _ _ _) as [[st1 map1] |] eqn:E; [| discriminate].
  injection H as <-. cbn [store jianpuBlockMap lastQ].
  split; [| reflexivity].
  pose proof (processQueue_pass_ok sorted m _ _ _ _ _ _
                (grouped_pass_ok m sorted Hws) E) as (Hc & _ & Hm).
  split; [exact Hc |]. split; [constructor |].
  unfold map_ok, entries_ok in *.
  rewrite Forall_map. revert Hm. apply Forall_impl.
  intros [k b] [H1 H2]. cbn [fst snd] in *.
  destruct (calculateRenderProperties_geo st1 b m) as (Es & _ & En).
  split; [rewrite Es; exact H1 |].
  apply (block_ok_geo st1 b); [rewrite Es; reflexivity | exact En | exact H2].
Qed.

(** ** Ties keep the length of a note *)




Lemma dotted_half_score_wf : wf_score dotted_half_score.
Proof.
  split; [| constructor].
  repeat constructor; cbn; lra.
Defined.


(** ** Blocks that start at the same time *)

Definition overlapping_score : JianpuInfo :=
  mkInfo [mkNoteInfo 0 4 60 127; mkNoteInfo 1 1 64 127] [] [] [].






(** ** Tiling *)

(** [tiles under over lo bs cursor]: the blocks [bs] follow one another
    from [lo]: each starts where the one before ends (or at [lo]), up to an
    overlap of [under] and a gap of [over]; each has a positive length; the
    last one ends at [cursor]. *)
Fixpoint tiles (under over lo : Q) (bs : list Block.t) (cursor : Q) : Prop :=
  match bs with
  | [] => cursor == lo
  | b :: bs' =>
      - under <= Block.start b - lo /\ Block.start b - lo <= over /\
      0 < Block.length b /\
      tiles under over (Block.start b + Block.length b) bs' cursor
  end.

Lemma tiles_proper (under over : Q) (bs : list Block.t) :
  forall lo lo' cursor cursor',
  lo == lo' -> cursor == cursor' ->
  tiles under over lo bs cursor -> tiles under over lo' bs cursor'.
Proof.
  destruct bs as [| b bs]; intros lo lo' cursor cursor' El Ec; cbn.
  - intros H. lra.
  - intros (H1 & H2 & H3 & H4). repeat split; try lra.
    clear H1 H2 H3. revert H4.
    generalize (Block.start b + Block.length b).
    induction bs as [| b' bs IH]; intros q; cbn.
    + intros H. lra.
    + intros (H1 & H2 & H3 & H4). repeat split; try lra. apply IH. exact H4.
Qed.

Lemma tiles_weaken (under over under' over' : Q) (bs : list Block.t) :
  under <= under' -> over <= over' ->
  forall lo cursor,
  tiles under over lo bs cursor -> tiles under' over' lo bs cursor.
Proof.
  intros Hu Ho. induction bs as [| b bs IH]; intros lo cursor; cbn; [auto |].
  intros (H1 & H2 & H3 & H4). repeat split; try lra. apply IH. exact H4.
Qed.

(** The tiling with one more block at the end. *)
Lemma tiles_snoc (under over : Q) (bs : list Block.t) (b : Block.t) :
  forall lo cursor,
  tiles under over lo bs cursor ->
  - under <= Block.start b - cursor -> Block.start b - cursor <= over ->
  0 < Block.length b ->
  tiles under over lo (bs ++ [b]) (Block.start b + Block.length b).
Proof.
  induction bs as [| a bs IH]; intros lo cursor; cbn.
  - intros E H1 H2 H3. repeat split; try lra.
  - intros (A1 & A2 & A3 & A4) H1 H2 H3. repeat split; try lra.
    apply (IH _ cursor); assumption.
Qed.

Lemma tiles_cursor (over : Q) (bs : list Block.t) :
  forall lo cursor, tiles 0 over lo bs cursor -> lo <= cursor.
Proof.
  induction bs as [| a bs IH]; intros lo cursor; cbn.
  - intros H. lra.
  - intros (A1 & A2 & A3 & A4). apply IH in A4. lra.
Qed.

(** In a tiling with no overlap every block starts at or after [lo] and
    before the cursor. *)
Lemma tiles_starts (over : Q) (bs : list Block.t) :
  forall lo cursor b,
  tiles 0 over lo bs cursor -> In b bs ->
  lo <= Block.start b /\ Block.start b < cursor.
Proof.
  induction bs as [| a bs IH]; intros lo cursor b; cbn; [intros _ [] |].
  intros (A1 & A2 & A3 & A4) [<- | Hb].
  - apply tiles_cursor in A4. split; lra.
  - destruct (IH _ _ b A4 Hb). split; lra.
Qed.

(** Each number of the list is less than the ones after it. *)
Fixpoint increasing (ks : list Q) : Prop :=
  match ks with
  | [] => True
  | k :: ks' => (forall k', In k' ks' -> k < k') /\ increasing ks'
  end.

Lemma increasing_app (ks : list Q) (x : Q) :
  increasing ks -> (forall k, In k ks -> k < x) -> increasing (ks ++ [x]).
Proof.
  induction ks as [| k ks IH]; cbn.
  - intros _ _. split; [intros k' [] | exact I].
  - intros [H1 H2] H3. split.
    + intros k' Hk. apply in_app_or in Hk. destruct Hk as [Hk | [<- | []]].
      * apply H1. exact Hk.
      * apply H3. left. reflexivity.
    + apply IH; [exact H2 |]. intros k' Hk. apply H3. right. exact Hk.
Qed.

Lemma increasing_last (ks : list Q) (x k : Q) :
  increasing (ks ++ [x]) -> In k ks -> k < x.
Proof.
  induction ks as [| a ks IH]; cbn; [intros _ [] |].
  intros [H1 H2] [<- | Hk].
  - apply H1. apply in_or_app. right. left. reflexivity.
  - apply IH; assumption.
Qed.

Lemma increasing_front (ks : list Q) (x : Q) :
  increasing (ks ++ [x]) -> increasing ks.
Proof.
  induction ks as [| a ks IH]; cbn; [auto |].
  intros [H1 H2]. split; [| apply IH; exact H2].
  intros k' Hk. apply H1. apply in_or_app. left. exact Hk.
Qed.

Lemma tiles_increasing (over : Q) (bs : list Block.t) :
  forall lo cursor,
  tiles 0 over lo bs cursor -> increasing (map Block.start bs).
Proof.
  induction bs as [| a bs IH]; intros lo cursor; cbn; [auto |].
  intros (A1 & A2 & A3 & A4). split; [| apply (IH _ _ A4)].
  intros k Hk. apply in_map_iff in Hk. destruct Hk as (b & <- & Hb).
  destruct (tiles_starts _ _ _ _ b A4 Hb). lra.
Qed.

(** ** Sorting a list that is in order *)

Lemma insert_by_last {A : Type} (key : A -> Q) (x : A) (l : list A) :
  (forall y, In y l -> key y <= key x) -> insert_by key x l = l ++ [x].
Proof.
  induction l as [| a l IH]; cbn; [reflexivity |].
  intros H. destruct (Qltb (key x) (key a)) eqn:E.
  - qprop. specialize (H a (or_introl eq_refl)). lra.
  - rewrite IH; [reflexivity |]. intros y Hy. apply H. right. exact Hy.
Qed.

Lemma sort_by_increasing {A : Type} (key : A -> Q) (l : list A) :
  increasing (map key l) -> sort_by key l = l.
Proof.
  unfold sort_by.
  assert (H : forall acc,
             (forall y x, In y acc -> In x l -> key y < key x) ->
             increasing (map key l) ->
             fold_left (fun acc x => insert_by key x acc) l acc = acc ++ l).
  { induction l as [| a l IH]; intros acc Hacc Hinc; cbn.
    - rewrite app_nil_r. reflexivity.
    - cbn in Hinc. destruct Hinc as [H1 H2].
      rewrite insert_by_last.
      + rewrite IH; [rewrite <- app_assoc; reflexivity | | exact H2].
        intros y x Hy Hx. apply in_app_or in Hy. destruct Hy as [Hy | [<- | []]].
        * apply Hacc; [exact Hy | right; exact Hx].
        * apply H1. apply in_map. exact Hx.
      + intros y Hy. apply Qlt_le_weak. apply Hacc; [exact Hy | left; reflexivity]. }
  intros Hinc. apply (H [] (fun y x Hy => False_ind _ Hy) Hinc).
Qed.

(** ** Maps that file each block under its start *)

Definition keyed (bs : list Block.t) : JianpuBlockMap :=
  map (fun b => (Block.start b, b)) bs.

Lemma keyed_keys (bs : list Block.t) :
  NumMap.keys (keyed bs) = map Block.start bs.
Proof. unfold NumMap.keys, keyed. rewrite map_map. reflexivity. Qed.

Lemma keyed_values (bs : list Block.t) : NumMap.values (keyed bs) = bs.
Proof. unfold NumMap.values, keyed. rewrite map_map. apply map_id. Qed.

Lemma keyed_app (bs bs' : list Block.t) :
  keyed (bs ++ bs') = keyed bs ++ keyed bs'.
Proof. apply map_app. Qed.

Lemma keyed_get_none (bs : list Block.t) (k : Q) :
  (forall b, In b bs -> Block.start b < k) -> NumMap.get (keyed bs) k = None.
Proof.
  intros H. apply NumMap_get_none. rewrite keyed_keys.
  intros k' Hk. apply in_map_iff in Hk. destruct Hk as (b & <- & Hb).
  specialize (H b Hb). lra.
Qed.

Lemma keyed_set_new (bs : list Block.t) (b : Block.t) :
  (forall b', In b' bs -> Block.start b' < Block.start b) ->
  NumMap.set (keyed bs) (Block.start b) b = keyed (bs ++ [b]).
Proof.
  intros H. rewrite (NumMap_set_absent _ _ _ (keyed_get_none bs _ H)).
  rewrite keyed_app. reflexivity.
Qed.

Lemma NumMap_set_last {V : Type} (mp : NumMap.t V) (k : Q) (v v' : V) :
  NumMap.get mp k = None ->
  NumMap.set (mp ++ [(k, v)]) k v' = mp ++ [(k, v')].
Proof.
  induction mp as [| [k0 v0] mp IH]; cbn.
  - intros _. rewrite Qeq_bool_refl. reflexivity.
  - destruct (Qeq_bool k0 k); [discriminate |].
    intros H. rewrite (IH H). reflexivity.
Qed.

Lemma keyed_get_in (bs : list Block.t) (b : Block.t) :
  increasing (map Block.start bs) -> In b bs ->
  NumMap.get (keyed bs) (Block.start b) = Some b.
Proof.
  induction bs as [| a bs IH]; cbn; [intros _ [] |].
  intros [H1 H2] [<- | Hb].
  - rewrite Qeq_bool_refl. reflexivity.
  - assert (Hlt : Block.start a < Block.start b)
      by (apply H1; apply in_map; exact Hb).
    destruct (Qeq_bool (Block.start a) (Block.start b)) eqn:E.
    + apply Qeq_bool_eq in E. lra.
    + apply IH; assumption.
Qed.

(** The queue of raw blocks that are filed in start order is the list of
    the blocks. *)
Lemma blockProcessingQueue_keyed (bs : list Block.t) :
  increasing (map Block.start bs) ->
  blockProcessingQueue (keyed bs) = bs.
Proof.
  intros Hinc. unfold blockProcessingQueue.
  rewrite keyed_keys.
  rewrite (sort_by_increasing (fun k => k)) by (rewrite map_id; exact Hinc).
  assert (H : forall l, incl l bs ->
             flat_map
               (fun start =>
                  match NumMap.get (keyed bs) start with
                  | Some b => [b]
                  | None => []
                  end) (map Block.start l) = l).
  { induction l as [| a l IH]; intros Hl; cbn; [reflexivity |].
    rewrite (keyed_get_in bs a Hinc) by (apply Hl; left; reflexivity).
    cbn. rewrite IH; [reflexivity |].
    intros x Hx. apply Hl. right. exact Hx. }
  apply H. apply incl_refl.
Qed.

Lemma tiles_replace_last (under over : Q) (bs : list Block.t) (b b' : Block.t) :
  Block.start b' = Block.start b -> Block.length b' == Block.length b ->
  forall lo cursor,
  tiles under over lo (bs ++ [b]) cursor ->
  tiles under over lo (bs ++ [b']) cursor.
Proof.
  intros Es El. induction bs as [| a bs IH]; intros lo cursor; cbn.
  - rewrite Es. intros (H1 & H2 & H3 & H4).
    split; [exact H1 |]. split; [exact H2 |]. split; [lra | lra].
  - intros (H1 & H2 & H3 & H4). repeat split; try assumption.
    apply IH. exact H4.
Qed.

Lemma keyed_get_last (bs : list Block.t) (b : Block.t) (k : Q) :
  (forall b', In b' bs -> Block.start b' < Block.start b) ->
  k == Block.start b ->
  NumMap.get (keyed (bs ++ [b])) k = Some b.
Proof.
  intros Hlt Ek. induction bs as [| a bs IH]; cbn.
  - destruct (Qeq_bool (Block.start b) k) eqn:E; [reflexivity |].
    apply Qeq_bool_neq in E. exfalso. apply E. rewrite Ek. reflexivity.
  - destruct (Qeq_bool (Block.start a) k) eqn:E.
    + apply Qeq_bool_eq in E. specialize (Hlt a (or_introl eq_refl)). lra.
    + apply IH. intros b' Hb'. apply Hlt. right. exact Hb'.
Qed.

Lemma keyed_set_last (bs : list Block.t) (b b' : Block.t) (k : Q) :
  (forall a, In a bs -> Block.start a < Block.start b) ->
  k == Block.start b ->
  Block.start b' = Block.start b ->
  NumMap.set (keyed (bs ++ [b])) k b' = keyed (bs ++ [b']).
Proof.
  intros Hlt Ek Es. unfold keyed. induction bs as [| a bs IH]; cbn.
  - destruct (Qeq_bool (Block.start b) k) eqn:E.
    + rewrite Es. reflexivity.
    + apply Qeq_bool_neq in E. exfalso. apply E. rewrite Ek. reflexivity.
  - destruct (Qeq_bool (Block.start a) k) eqn:E.
    + apply Qeq_bool_eq in E. specialize (Hlt a (or_introl eq_refl)). lra.
    + rewrite IH; [reflexivity |]. intros a' Ha'. apply Hlt. right. exact Ha'.
Qed.

(** ** Blocks whose notes sound together *)

(** A block of positive length whose notes all start with the block and
    last as long as the block; a rest is such a block. *)
Definition uniform (st : Store) (b : Block.t) : Prop :=
  0 < Block.length b /\
  forall r, In r (Block.notes b) ->
    (r < List.length st)%nat /\
    Note.start (deref st r) == Block.start b /\
    Note.length (deref st r) == Block.length b.

Lemma uniform_geo (st : Store) (b b' : Block.t) :
  Block.start b' = Block.start b -> Block.length b' = Block.length b ->
  Block.notes b' = Block.notes b -> uniform st b -> uniform st b'.
Proof.
  intros Es El En. unfold uniform. rewrite Es, El, En. auto.
Qed.

Lemma Math_min_cases (x y : Q) : Math_min x y = x \/ Math_min x y = y.
Proof. unfold Math_min. destruct (Qleb x y); auto. Qed.

(** The least length among notes that all last [len]. *)
Lemma minLength_uniform (st : Store) (len : Q) (l : list nat) :
  (forall r, In r l -> Note.length (deref st r) == len) ->
  forall acc,
  match acc with Some a => a == len | None => l <> [] end ->
  exists mn, minLength st l acc = Some mn /\ mn == len.
Proof.
  induction l as [| x l IH]; intros Hl acc Hacc; cbn.
  - destruct acc as [a |]; [eauto | congruence].
  - apply IH; [intros r Hr; apply Hl; right; exact Hr |].
    pose proof (Hl x (or_introl eq_refl)) as Hx.
    destruct acc as [a |]; [| exact Hx].
    destruct (Math_min_cases a (Note.length (deref st x))) as [-> | ->];
      assumption.
Qed.

(** A note that starts with a block of such notes and lasts as long joins
    the block (or is dropped, when the block holds its pitch): the store
    and the span of the block stay. *)
Lemma addNote_uniform (st : Store) (b : Block.t) (j : nat)
    (st' : Store) (b' : Block.t) (ok : bool) :
  uniform st b -> Block.notes b <> [] ->
  (j < List.length st)%nat ->
  Note.start (deref st j) == Block.start b ->
  Note.length (deref st j) == Block.length b ->
  addNote st b j = (st', b', ok) ->
  st' = st /\ uniform st b' /\
  Block.start b' = Block.start b /\ Block.length b' == Block.length b /\
  Block.notes b' <> [].
Proof.
  intros [Hlen Hb] Hne Hj Hjs Hjl. unfold addNote.
  destruct (Block.notes b) as [| r0 l0] eqn:En; [congruence |].
  rewrite <- En in *.
  destruct (isSafeZero _) eqn:Ez; cbn [negb].
  2:{ intros H. inversion H. subst st' b' ok.
      split; [reflexivity |]. split; [split; assumption |].
      split; [reflexivity |]. split; [reflexivity | exact Hne]. }
  assert (Hfin : forall notes1 ok1,
             notes1 <> [] -> incl notes1 (j :: Block.notes b) ->
             (st,
              match minLength st notes1 None with
              | Some mn => Block.set_length mn (Block.set_notes notes1 b)
              | None => Block.set_notes notes1 b
              end, ok1) = (st', b', ok) ->
             st' = st /\ uniform st b' /\
             Block.start b' = Block.start b /\
             Block.length b' == Block.length b /\ Block.notes b' <> []).
  { intros notes1 ok1 Hn1 Hincl H.
    assert (Hall : forall r, In r notes1 ->
              (r < List.length st)%nat /\
              Note.start (deref st r) == Block.start b /\
              Note.length (deref st r) == Block.length b).
    { intros r Hr. destruct (Hincl r Hr) as [<- | Hr']; [auto | apply Hb; exact Hr']. }
    destruct (minLength_uniform st (Block.length b) notes1
                (fun r Hr => proj2 (proj2 (Hall r Hr))) None Hn1)
      as (mn & Emn & Hmn).
    rewrite Emn in H. inversion H. subst st' b' ok. unfold uniform. cbn.
    split; [reflexivity |]. split.
    - split; [lra |]. intros r Hr. destruct (Hall r Hr) as (A & B & C).
      split; [exact A |]. split; [exact B | lra].
    - split; [reflexivity |]. split; [exact Hmn | exact Hn1]. }
  destruct (find_pitch st (Block.notes b) _) as [i |] eqn:Ef.
  - destruct (find_pitch_spec _ _ _ _ Ef) as (Hi & Hin & _).
    destruct (Qltb _ _) eqn:El.
    + qprop. destruct (Hb _ Hin) as (_ & _ & Hol). lra.
    + apply Hfin; [exact Hne | apply incl_tl, incl_refl].
  - apply Hfin.
    + destruct (Block.notes b); discriminate.
    + intros r Hr. apply in_app_or in Hr.
      destruct Hr as [Hr | [<- | []]]; [right; exact Hr | left; reflexivity].
Qed.

(** The notes of [l], which all start at [q] and last [len], added to a
    block that spans from [q] for [len]. *)
Lemma addNotes_uniform (q len : Q) (l : list nat) :
  forall (st st' : Store) (b b' : Block.t),
  0 < len ->
  (forall j, In j l ->
     (j < List.length st)%nat /\
     Note.start (deref st j) == q /\ Note.length (deref st j) == len) ->
  Block.start b == q -> Block.length b == len ->
  (forall r, In r (Block.notes b) ->
     (r < List.length st)%nat /\
     Note.start (deref st r) == q /\ Note.length (deref st r) == len) ->
  addNotes st b l = (st', b') ->
  st' = st /\ Block.start b' == q /\ Block.length b' == len /\
  uniform st b'.
Proof.
  induction l as [| j l IH]; intros st st' b b' Hlen Hl Hs Hbl Hb H; cbn in H.
  - inversion H. subst st' b'.
    split; [reflexivity |]. split; [exact Hs |]. split; [exact Hbl |].
    split; [lra |]. intros r Hr. destruct (Hb r Hr) as (A & B & C).
    split; [exact A |]. split; lra.
  - destruct (Hl j (or_introl eq_refl)) as (Hj & Hjs & Hjl).
    destruct (addNote st b j) as [[st1 b1] ok] eqn:Ea.
    assert (Hstep : st1 = st /\ Block.start b1 == q /\ Block.length b1 == len /\
                    forall r, In r (Block.notes b1) ->
                      (r < List.length st)%nat /\
                      Note.start (deref st r) == q /\
                      Note.length (deref st r) == len).
    { destruct (Block.notes b) as [| r0 l0] eqn:En.
      - rewrite addNote_empty in Ea by exact En. inversion Ea. subst st1 b1.
        cbn. split; [reflexivity |]. split; [exact Hjs |]. split; [exact Hjl |].
        intros r [<- | []]. auto.
      - assert (Hu : uniform st b).
        { split; [lra |]. intros r Hr. rewrite En in Hr.
          destruct (Hb r Hr) as (A & B & C). split; [exact A |]. split; lra. }
        destruct (addNote_uniform st b j st1 b1 ok Hu) as (-> & Hu1 & E1 & E2 & _);
          [rewrite En; discriminate | exact Hj | lra | lra | exact Ea |].
        split; [reflexivity |]. split; [rewrite E1; exact Hs |].
        split; [lra |].
        intros r Hr. destruct Hu1 as [_ Hu1]. destruct (Hu1 r Hr) as (A & B & C).
        split; [exact A |]. rewrite E1 in B. split; lra. }
    destruct Hstep as (-> & S1 & S2 & S3).
    apply (IH st st' b1 b' Hlen); try assumption.
    intros j' Hj'. apply Hl. right. exact Hj'.
Qed.

(** The loop of [split] over notes that all start at [s] and end at [e]:
    every piece that it returns is a new note from [quarters] to [e]; a
    note that is not in the list keeps its start and its length. *)
Lemma splitNotes_uniform (s e quarters : Q) (l : list nat) :
  s < quarters -> quarters + eps < e ->
  forall (st st' : Store) (frags : list nat) (n0 : nat),
  (n0 <= List.length st)%nat ->
  (forall r, In r l ->
     (r < n0)%nat /\ Note.start (deref st r) == s /\
     (Note.start (deref st r) + Note.length (deref st r) == e \/
      Note.start (deref st r) + Note.length (deref st r) == quarters)) ->
  splitNotes st l quarters = (st', frags) ->
  (List.length st <= List.length st')%nat /\
  (forall f, In f frags ->
     (n0 <= f < List.length st')%nat /\
     Note.start (deref st' f) == quarters /\
     Note.length (deref st' f) == e - quarters) /\
  (forall x, (x < List.length st)%nat -> ~ In x l ->
     Note.start (deref st' x) = Note.start (deref st x) /\
     Note.length (deref st' x) = Note.length (deref st x)).
Proof.
  intros Hsq Hqe. pose proof eps_pos as Hep.
  induction l as [| r l IH]; intros st st' frags n0 Hn0 Hl H; cbn in H.
  - inversion H. subst st' frags.
    split; [lia |]. split; [intros f [] | auto].
  - destruct (Hl r (or_introl eq_refl)) as (Hr & Hrs & Hre).
    assert (Hrst : (r < List.length st)%nat) by lia.
    destruct Hre as [Hre | Hre].
    + assert (Hlt : Qltb (quarters + eps)
                      (Note.start (deref st r) + Note.length (deref st r)) = true)
        by (apply Qltb_iff; lra).
      rewrite Hlt in H.
      rewrite splitJianpuNote_inside in H by lra.
      destruct (splitNotes (store_after_split st r quarters) l quarters)
        as [st2 parts] eqn:E2.
      inversion H. subst st2 frags. clear H.
      pose proof (store_after_split_length st r quarters) as Hlen1.
      assert (Hl1 : forall r', In r' l ->
                (r' < n0)%nat /\
                Note.start (deref (store_after_split st r quarters) r') == s /\
                (Note.start (deref (store_after_split st r quarters) r')
                 + Note.length (deref (store_after_split st r quarters) r') == e \/
                 Note.start (deref (store_after_split st r quarters) r')
                 + Note.length (deref (store_after_split st r quarters) r')
                 == quarters)).
      { intros r' Hr'. destruct (Hl r' (or_intror Hr')) as (A & B & C).
        destruct (store_after_split_shape st r quarters r' Hrst) as (Hs' & _ & Hl').
        assert (E1 : Nat.eqb r' (List.length st) = false)
          by (apply Nat.eqb_neq; lia).
        rewrite E1 in Hs', Hl'. rewrite Hs'.
        split; [exact A |]. split; [exact B |].
        destruct (Nat.eqb r' r) eqn:E3.
        - apply Nat.eqb_eq in E3. subst r'. right. rewrite Hl'. ring.
        - rewrite Hl'. exact C. }
      assert (Hn1 : (n0 <= List.length (store_after_split st r quarters))%nat)
        by lia.
      destruct (IH _ _ _ n0 Hn1 Hl1 E2) as (I1 & I2 & I3).
      split; [lia |]. split.
      * intros f [<- | Hf]; [| apply I2; exact Hf].
        split; [lia |].
        assert (Hnew : (List.length st
                        < List.length (store_after_split st r quarters))%nat)
          by lia.
        destruct (I3 (List.length st) Hnew) as [-> ->].
        { intros Hin. destruct (Hl1 _ Hin) as (A & _). lia. }
        destruct (store_after_split_shape st r quarters (List.length st) Hrst)
          as (Hs' & _ & Hl').
        rewrite Nat.eqb_refl in Hs', Hl'. rewrite Hs', Hl'.
        split; [reflexivity | lra].
      * intros x Hx Hnin.
        assert (Hx1 : (x < List.length (store_after_split st r quarters))%nat)
          by lia.
        destruct (I3 x Hx1) as [-> ->].
        { intros Hin. apply Hnin. right. exact Hin. }
        destruct (store_after_split_shape st r quarters x Hrst) as (Hs' & _ & Hl').
        assert (E1 : Nat.eqb x (List.length st) = false)
          by (apply Nat.eqb_neq; lia).
        assert (E3 : Nat.eqb x r = false).
        { apply Nat.eqb_neq. intros ->. apply Hnin. left. reflexivity. }
        rewrite E1 in Hs'. rewrite E1, E3 in Hl'. split; assumption.
    + assert (Hlt : Qltb (quarters + eps)
                      (Note.start (deref st r) + Note.length (deref st r)) = false)
        by (apply Qltb_false; lra).
      rewrite Hlt in H.
      destruct (splitNotes st l quarters) as [st2 parts] eqn:E2.
      inversion H. subst st2 frags. clear H.
      destruct (IH _ _ _ n0 Hn0 (fun r' Hr' => Hl r' (or_intror Hr')) E2)
        as (I1 & I2 & I3).
      split; [exact I1 |]. split; [exact I2 |].
      intros x Hx Hnin. apply I3; [exact Hx |].
      intros Hin. apply Hnin. right. exact Hin.
Qed.

(** A cut of such a block more than the tolerance before its end: the head
    keeps the start, the tail starts at the cut and ends where the block
    ended; the tail is again such a block, and so is every block that
    starts later than the cut one. *)
Lemma split_uniform (st : Store) (c : Block.t) (quarters : Q) (m : MeasuresInfo)
    (st' : Store) (h t : Block.t) :
  split st c quarters m = (st', h, Some t) ->
  uniform st c ->
  quarters + eps < Block.start c + Block.length c ->
  Block.start c < quarters /\
  Block.start h = Block.start c /\
  Block.length h = quarters - Block.start c /\
  Block.notes h = Block.notes c /\
  Block.start t == quarters /\
  Block.start t + Block.length t == Block.start c + Block.length c /\
  uniform st' t /\
  forall b, uniform st b -> Block.start c < Block.start b -> uniform st' b.
Proof.
  intros Hs [Hlen Hc] Hq. pose proof eps_pos as He.
  destruct (split_cases _ _ _ _ _ _ _ Hs) as [(Hn & _) | (H1 & H2 & Hx)];
    [discriminate |].
  destruct Hx as (st1 & frags & t0 & t' & Ht & Hsn & Han & Hhs & Hhl & Hhn
                  & Ets & Etl & Etn).
  inversion Ht. subst t'. clear Ht.
  split; [exact H1 |]. split; [exact Hhs |]. split; [exact Hhl |].
  split; [exact Hhn |].
  destruct (splitNotes_uniform (Block.start c) (Block.start c + Block.length c)
              quarters (Block.notes c) H1 Hq st st1 frags (List.length st)
              (Nat.le_refl _))
    as (L1 & F1 & F2); [| exact Hsn |].
  { intros r Hr. destruct (Hc r Hr) as (A & B & C).
    split; [exact A |]. split; [exact B |]. left. lra. }
  destruct (addNotes_uniform quarters
              (Block.start c + Block.length c - quarters) frags st1 st'
              (Block.create quarters
                 (Block.start c + Block.length c - quarters) []
                 (measureNumberAtQ m quarters)) t0)
    as (-> & T1 & T2 & T3);
    [lra | | reflexivity | reflexivity | intros r [] | exact Han |].
  { intros j Hj. destruct (F1 j Hj) as (A & B & C).
    split; [lia |]. split; assumption. }
  rewrite Ets, Etl.
  split; [exact T1 |]. split; [lra |].
  split; [apply (uniform_geo st1 t0); assumption |].
  intros b [Hbl Hb] Hbs. split; [exact Hbl |].
  intros r Hr. destruct (Hb r Hr) as (A & B & C).
  destruct (F2 r A) as [-> ->].
  { intros Hin. destruct (Hc r Hin) as (_ & B' & _). lra. }
  split; [lia |]. split; assumption.
Qed.

(** ** The second pass over the blocks of a score in chords *)

Section SequentialPass.
Variable m : MeasuresInfo.
(** The end of the last block of the queue. *)
Variable last : Q.

(** The invariant of both loops: the blocks of the map, in the order of the
    map, follow one another from 0 up to a cursor; the blocks of the queue
    follow one another from a point [e] up to [last]; the cursor is within
    the tolerance of [e]; the first block of the map starts at 0 or within
    the tolerance after it. *)
Definition seq_ok (st : Store) (map : JianpuBlockMap) (queue : list Block.t)
  : Prop :=
  Forall (uniform st) queue /\
  exists bs cur e,
    map = keyed bs /\
    tiles eps (2 * eps) 0 bs cur /\
    increasing (List.map Block.start bs) /\
    match bs with
    | [] => cur == 0 /\ e == 0
    | first :: _ => 0 <= Block.start first /\ Block.start first <= eps
    end /\
    (forall b, In b bs -> Block.start b < e) /\
    - eps <= e - cur /\ e - cur <= eps /\
    tiles 0 eps e queue last.

(** A block that starts at or after [e] goes to the end of the map. *)
Lemma mergeToMap_new (st : Store) (bs : list Block.t) (b : Block.t) :
  (forall b', In b' bs -> Block.start b' < Block.start b) ->
  mergeToMap st b (keyed bs) = (st, keyed (bs ++ [b])).
Proof.
  intros H. unfold mergeToMap.
  rewrite (keyed_get_none bs _ H), (keyed_set_new bs b H). reflexivity.
Qed.

Lemma increasing_starts_snoc (bs : list Block.t) (b : Block.t) :
  increasing (List.map Block.start bs) ->
  (forall b', In b' bs -> Block.start b' < Block.start b) ->
  increasing (List.map Block.start (bs ++ [b])).
Proof.
  intros Hinc H. rewrite map_app. cbn. apply increasing_app; [exact Hinc |].
  intros k Hk. apply in_map_iff in Hk. destruct Hk as (b' & <- & Hb').
  apply H. exact Hb'.
Qed.

Lemma seq_ok_cut (st : Store) (map : JianpuBlockMap) (c c0 : Block.t)
    (q : list Block.t) (quarters : Q) (st1 : Store) (h t c1 r : Block.t)
    (st2 : Store) (map2 : JianpuBlockMap) :
  seq_ok st map (c :: q) ->
  Block.start c0 = Block.start c -> Block.length c0 = Block.length c ->
  Block.notes c0 = Block.notes c ->
  quarters + eps < Block.start c + Block.length c ->
  split st c0 quarters m = (st1, h, Some t) ->
  Block.start c1 = Block.start h -> Block.length c1 == Block.length h ->
  Block.start r = Block.start t -> Block.length r = Block.length t ->
  Block.notes r = Block.notes t ->
  mergeToMap st1 c1 map = (st2, map2) ->
  seq_ok st2 map2 (r :: q).
Proof.
  intros (Hq & bs & cur & e & -> & Hbs & Hinc & Hfst & Hlt & He1 & He2 & Hqt)
         Es El En Hqs Hs Ecs Ecl Ers Erl Ern Hmg.
  pose proof eps_pos as Hep.
  inversion Hq as [| ? ? Hmc Hq']. subst.
  cbn [tiles] in Hqt. destruct Hqt as (T1 & T2 & T3 & T4).
  assert (Hmc0 : uniform st c0) by (apply (uniform_geo st c); assumption).
  rewrite <- Es, <- El in Hqs.
  destruct (split_uniform _ _ _ _ _ _ _ Hs Hmc0 Hqs)
    as (S1 & S2 & S3 & S4 & S5 & S6 & S7 & S8).
  rewrite Es in S1, S2, S3, S8. rewrite Es, El in S6.
  assert (Hnew : forall b', In b' bs -> Block.start b' < Block.start c1).
  { intros b' Hb'. specialize (Hlt b' Hb'). rewrite Ecs, S2. lra. }
  rewrite (mergeToMap_new _ _ _ Hnew) in Hmg. inversion Hmg. subst st2 map2.
  split.
  - constructor; [apply (uniform_geo st1 t); assumption |].
    rewrite Forall_forall in *. intros b Hb. apply S8; [apply Hq'; exact Hb |].
    destruct (tiles_starts _ _ _ _ b T4 Hb). lra.
  - exists (bs ++ [c1]), (Block.start c1 + Block.length c1), quarters.
    split; [reflexivity |].
    split.
    { apply (tiles_snoc _ _ _ _ _ cur); [exact Hbs | | |];
        rewrite ?Ecs, ?Ecl, ?S2, ?S3; lra. }
    split; [apply increasing_starts_snoc; assumption |].
    split.
    { destruct bs as [| b0 bs']; [| exact Hfst].
      cbn. rewrite Ecs, S2. destruct Hfst. split; lra. }
    split.
    { intros b Hb. apply in_app_or in Hb. destruct Hb as [Hb | [<- | []]].
      - specialize (Hlt b Hb). lra.
      - rewrite Ecs, S2. exact S1. }
    rewrite Ecs, Ecl, S2, S3.
    split; [lra |]. split; [lra |].
    cbn [tiles]. rewrite Ers, Erl.
    split; [lra |]. split; [lra |].
    split; [destruct S7; assumption |].
    apply (tiles_proper _ _ _ (Block.start c + Block.length c) _ last last);
      [lra | reflexivity | exact T4].
Qed.

Lemma seq_ok_geo (st : Store) (map : JianpuBlockMap) (c c1 : Block.t)
    (q : list Block.t) :
  seq_ok st map (c :: q) ->
  Block.start c1 = Block.start c -> Block.length c1 = Block.length c ->
  Block.notes c1 = Block.notes c ->
  seq_ok st map (c1 :: q).
Proof.
  intros (Hq & bs & cur & e & -> & Hbs & Hinc & Hfst & Hlt & He1 & He2 & Hqt) Es El En.
  inversion Hq as [| ? ? Hmc Hq']. subst.
  split; [constructor; [apply (uniform_geo st c); assumption | exact Hq'] |].
  exists bs, cur, e. split; [reflexivity |].
  do 6 (split; [assumption |]).
  cbn [tiles] in *. rewrite Es, El. exact Hqt.
Qed.

Lemma seq_ok_last (st : Store) (map : JianpuBlockMap) (c c1 : Block.t)
    (q : list Block.t) (st2 : Store) (map2 : JianpuBlockMap) :
  seq_ok st map (c :: q) ->
  Block.start c1 = Block.start c ->
  (Block.length c1 = Block.length c \/
   (MIN_RESOLUTION <= Block.length c1 /\
    Block.length c - eps <= Block.length c1 /\
    Block.length c1 <= Block.length c + eps)) ->
  mergeToMap st c1 map = (st2, map2) ->
  seq_ok st2 map2 q.
Proof.
  intros (Hq & bs & cur & e & -> & Hbs & Hinc & Hfst & Hlt & He1 & He2 & Hqt)
         Es El Hmg.
  pose proof eps_pos as Hep.
  inversion Hq as [| ? ? Hmc Hq']. subst.
  cbn [tiles] in Hqt. destruct Hqt as (T1 & T2 & T3 & T4).
  assert (Hnew : forall b', In b' bs -> Block.start b' < Block.start c1).
  { intros b' Hb'. specialize (Hlt b' Hb'). rewrite Es. lra. }
  rewrite (mergeToMap_new _ _ _ Hnew) in Hmg. inversion Hmg. subst st2 map2.
  assert (Hl1 : 0 < Block.length c1 /\
                Block.length c - eps <= Block.length c1 /\
                Block.length c1 <= Block.length c + eps).
  { destruct El as [-> | (L1 & L2 & L3)]; [repeat split; lra |].
    unfold MIN_RESOLUTION in L1. repeat split; lra. }
  destruct Hl1 as (L1 & L2 & L3).
  split; [exact Hq' |].
  exists (bs ++ [c1]), (Block.start c1 + Block.length c1),
         (Block.start c + Block.length c).
  split; [reflexivity |].
  split.
  { apply (tiles_snoc _ _ _ _ _ cur); [exact Hbs | | | exact L1];
      rewrite Es; lra. }
  split; [apply increasing_starts_snoc; assumption |].
  split.
  { destruct bs as [| b0 bs']; [| exact Hfst].
    cbn. rewrite Es. destruct Hfst. split; lra. }
  split.
  { intros b Hb. apply in_app_or in Hb. destruct Hb as [Hb | [<- | []]].
    - specialize (Hlt b Hb). lra.
    - rewrite Es. lra. }
  rewrite Es. split; [lra |]. split; [lra | exact T4].
Qed.

(** The second pass keeps the invariant. *)
Lemma processQueue_seq_ok (fuel : nat) (st : Store) (map : JianpuBlockMap)
    (queue : list Block.t) (st' : Store) (map' : JianpuBlockMap) :
  seq_ok st map queue ->
  processQueue fuel m st map queue = Some (st', map') ->
  seq_ok st' map' [].
Proof.
  apply (processQueue_invariant m seq_ok seq_ok).
  - intros st0 map0 c q st1 c1 r st2 map2 HI Hb Hmg.
    destruct (splitToBeat_some _ _ _ _ _ _ Hb)
      as (qs & c0 & h & t & _ & Hq2 & Es & El & En & Hs & Ecs & Ecl & _
          & Ers & Erl & Ern).
    eapply (seq_ok_cut st0 map0 c c0); try eassumption; [lra |].
    rewrite Ecl. reflexivity.
  - intros st0 map0 c q st1 c1 HI Hb.
    destruct (splitToBeat_none _ _ _ _ _ Hb) as (-> & Es & El & En).
    apply (seq_ok_geo st0 map0 c); assumption.
  - intros st0 map0 c q st1 c1 r st2 map2 HI Hb Hmg.
    destruct (splitToStandardSymbol_some _ _ _ _ _ _ Hb)
      as (qs & h & _ & Hq2 & Hs & Ecs & Ecl & _).
    eapply (seq_ok_cut st0 map0 c c); try eassumption; try reflexivity. lra.
  - intros st0 map0 c q st1 c1 st2 map2 HI Hb Hmg.
    destruct (splitToStandardSymbol_none _ _ _ _ _ Hb) as (-> & Es & _ & El).
    eapply seq_ok_last; eassumption.
Qed.

End SequentialPass.

(** ** The first pass over the notes of a score in chords *)

(** Each note of the list either sounds with the note before it (same
    start, same end) or starts at or after its end, and has a positive
    length; [s] and [e] are the start and the end of the note before. *)
Fixpoint chordal_from (s e : Q) (l : list NoteInfo) : Prop :=
  match l with
  | [] => True
  | note :: l' =>
      0 < ni_length note /\
      ((ni_start note == s /\ ni_start note + ni_length note == e) \/
       e <= ni_start note) /\
      chordal_from (ni_start note) (ni_start note + ni_length note) l'
  end.

Definition chordal (l : list NoteInfo) : Prop := chordal_from 0 0 l.

Lemma Math_max_seq (x y : Q) : x <= y -> Math_max x y == y.
Proof.
  intros H. destruct (Math_max_cases x y) as [[_ E] | [Hlt _]];
    [rewrite E; reflexivity | lra].
Qed.

Lemma uniform_alloc (st : Store) (n : Note.t) (b : Block.t) :
  uniform st b -> uniform (st ++ [n]) b.
Proof.
  intros [Hl Hb]. split; [exact Hl |].
  intros r Hr. destruct (Hb r Hr) as (A & B & C).
  rewrite deref_alloc_old by exact A.
  split; [rewrite length_app; cbn; lia |]. split; assumption.
Qed.

Section ChordalGrouping.
Variable m : MeasuresInfo.

(** The state of the first pass after a note from [s] to [e]: the raw
    blocks, in the order of the map, follow one another from 0 up to [e],
    with no overlap and gaps within the tolerance; the last of them is the
    block of that note. *)
Definition raw_chords (g : Grouping) (s e : Q) : Prop :=
  unlinked (g_store g) /\
  exists bs,
    rawBlocks g = keyed bs /\
    Forall (uniform (g_store g)) bs /\
    tiles 0 eps 0 bs (lastNoteEndTime g) /\
    lastNoteEndTime g == e /\
    (s < e ->
     exists bs0 b,
       bs = bs0 ++ [b] /\ Block.start b == s /\ Block.length b == e - s /\
       Block.notes b <> []).

(** The rest before a note that starts more than the tolerance after the
    last end. *)
Lemma rawWithRest_seq (g : Grouping) (note : NoteInfo) (bs : list Block.t) :
  rawBlocks g = keyed bs ->
  Forall (uniform (g_store g)) bs ->
  tiles 0 eps 0 bs (lastNoteEndTime g) ->
  lastNoteEndTime g <= ni_start note ->
  exists bs' cur,
    rawWithRest m g note = keyed bs' /\
    Forall (uniform (g_store g)) bs' /\
    tiles 0 eps 0 bs' cur /\
    cur <= ni_start note /\ ni_start note - cur <= eps.
Proof.
  intros Hraw Hm Ht Hle. pose proof eps_pos as He.
  unfold rawWithRest. rewrite Hraw.
  destruct (Qltb (lastNoteEndTime g + eps) (ni_start note)) eqn:E; qprop.
  - set (rest := Block.create (lastNoteEndTime g)
                   (ni_start note - lastNoteEndTime g) []
                   (measureNumberAtQ m (lastNoteEndTime g))).
    exists (bs ++ [rest]), (ni_start note).
    split.
    { apply (keyed_set_new bs rest). intros b Hb.
      destruct (tiles_starts _ _ _ _ b Ht Hb). exact H0. }
    split.
    { apply Forall_app. split; [exact Hm |].
      constructor; [| constructor]. split; [cbn; lra | intros r []]. }
    split; [| lra].
    apply (tiles_proper _ _ _ 0 0 (Block.start rest + Block.length rest));
      [reflexivity | cbn; ring |].
    apply (tiles_snoc _ _ _ _ _ (lastNoteEndTime g)); [exact Ht | | |];
      cbn; lra.
  - exists bs, (lastNoteEndTime g).
    split; [reflexivity |]. split; [exact Hm |]. split; [exact Ht |].
    split; lra.
Qed.

(** A note that starts at or after the end of the note before it gets a
    block of its own, after a rest when it starts later. *)
Lemma groupNote_next (g : Grouping) (note : NoteInfo) (s e : Q) :
  raw_chords g s e ->
  0 < ni_length note -> e <= ni_start note ->
  raw_chords (groupNote m g note) (ni_start note)
    (ni_start note + ni_length note).
Proof.
  intros (Hu & bs & Hraw & Hm & Ht & Hlast & _) Hlen Hle.
  pose proof eps_pos as He.
  destruct (groupNote_unfold m g note Hu) as (b1 & ok & Ha & Hg).
  destruct (rawWithRest_seq g note bs Hraw Hm Ht ltac:(lra))
    as (bs' & cur & Hraw' & Hm' & Ht' & Hc1 & Hc2).
  assert (Hlt : forall b, In b bs' -> Block.start b < ni_start note).
  { intros b Hb. destruct (tiles_starts _ _ _ _ b Ht' Hb). lra. }
  assert (Hnone : NumMap.get (rawWithRest m g note) (ni_start note) = None)
    by (rewrite Hraw'; apply keyed_get_none; exact Hlt).
  unfold blockOfNote in Ha. unfold rawWithBlock in Hg.
  rewrite Hnone in Ha, Hg.
  rewrite addNote_empty in Ha by reflexivity.
  rewrite deref_alloc_new in Ha. cbn [note_of Note.start Note.length] in Ha.
  inversion Ha. subst b1. clear Ha.
  rewrite (NumMap_set_absent _ _ _ Hnone) in Hg.
  rewrite (NumMap_set_last _ _ _ _ Hnone) in Hg.
  rewrite Hg. unfold raw_chords.
  cbn [g_store rawBlocks lastNoteEndTime Block.length
       Block.set_notes Block.set_length].
  set (b1 := Block.set_notes _ _).
  assert (Hmax : Math_max (lastNoteEndTime g) (ni_start note + ni_length note)
                 == ni_start note + ni_length note)
    by (apply Math_max_seq; lra).
  split.
  { apply unlinked_alloc; [exact Hu | reflexivity | reflexivity]. }
  exists (bs' ++ [b1]).
  split.
  { rewrite Hraw', keyed_app. reflexivity. }
  split.
  { apply Forall_app. split.
    - revert Hm'. apply Forall_impl. intros b. apply uniform_alloc.
    - constructor; [| constructor].
      split; [exact Hlen |]. intros r [<- | []].
      split; [rewrite length_app; cbn; lia |].
      rewrite deref_alloc_new. split; reflexivity. }
  split.
  { apply (tiles_proper _ _ _ 0 0 (Block.start b1 + Block.length b1));
      [reflexivity | rewrite Hmax; reflexivity |].
    apply (tiles_snoc _ _ _ _ _ cur); [exact Ht' | | | exact Hlen];
      cbn; lra. }
  split; [exact Hmax |].
  intros _. exists bs', b1.
  split; [reflexivity |]. split; [reflexivity |].
  split; [cbn; ring | discriminate].
Qed.

(** A note that sounds with the note before it joins its block. *)
Lemma groupNote_chord (g : Grouping) (note : NoteInfo) (s e : Q) :
  raw_chords g s e ->
  0 < ni_length note ->
  ni_start note == s -> ni_start note + ni_length note == e ->
  raw_chords (groupNote m g note) (ni_start note)
    (ni_start note + ni_length note).
Proof.
  intros (Hu & bs & Hraw & Hm & Ht & Hlast & Hblk) Hlen Hs Hend.
  pose proof eps_pos as He.
  destruct Hblk as (bs0 & b & -> & Hbs & Hbl & Hbn); [lra |].
  destruct (groupNote_unfold m g note Hu) as (b1 & ok & Ha & Hg).
  assert (Hrest : rawWithRest m g note = keyed (bs0 ++ [b])).
  { unfold rawWithRest.
    destruct (Qltb (lastNoteEndTime g + eps) (ni_start note)) eqn:E;
      [qprop; lra | exact Hraw]. }
  assert (Hlt : forall a, In a bs0 -> Block.start a < Block.start b).
  { intros a Hin. pose proof (tiles_increasing _ _ _ _ Ht) as Hinc.
    rewrite map_app in Hinc. cbn in Hinc.
    apply (increasing_last _ _ _ Hinc). apply in_map. exact Hin. }
  assert (Hk : ni_start note == Block.start b) by lra.
  assert (Hget : NumMap.get (rawWithRest m g note) (ni_start note) = Some b)
    by (rewrite Hrest; apply keyed_get_last; assumption).
  unfold blockOfNote in Ha. unfold rawWithBlock in Hg.
  rewrite Hget in Ha, Hg.
  apply Forall_app in Hm. destruct Hm as [Hm0 Hmb].
  inversion Hmb as [| ? ? Hub _]. subst.
  apply addNote_uniform in Ha as (_ & Hu1 & E1 & E2 & Hn1);
    [| apply uniform_alloc; exact Hub | exact Hbn
     | rewrite length_app; cbn; lia
     | rewrite deref_alloc_new; cbn; lra
     | rewrite deref_alloc_new; cbn; lra].
  rewrite Hrest, (keyed_set_last bs0 b b1 _ Hlt Hk E1) in Hg.
  rewrite Hg. unfold raw_chords. cbn [g_store rawBlocks lastNoteEndTime].
  assert (Hmax : Math_max (lastNoteEndTime g) (ni_start note + Block.length b1)
                 == ni_start note + ni_length note)
    by (rewrite Math_max_seq; lra).
  split.
  { apply unlinked_alloc; [exact Hu | reflexivity | reflexivity]. }
  exists (bs0 ++ [b1]).
  split; [reflexivity |].
  split.
  { apply Forall_app. split.
    - revert Hm0. apply Forall_impl. intros a. apply uniform_alloc.
    - constructor; [exact Hu1 | constructor]. }
  split.
  { apply (tiles_proper _ _ _ 0 0 (lastNoteEndTime g));
      [reflexivity | rewrite Hmax; lra |].
    apply (tiles_replace_last _ _ _ b b1); assumption. }
  split; [exact Hmax |].
  intros _. exists bs0, b1.
  split; [reflexivity |]. split; [rewrite E1; lra |].
  split; [lra | exact Hn1].
Qed.

Lemma fold_groupNote_chords (sorted : list NoteInfo) :
  forall (g : Grouping) (s e acc : Q),
  raw_chords g s e -> acc == e ->
  chordal_from s e sorted ->
  exists s' e',
    raw_chords (fold_left (groupNote m) sorted g) s' e' /\
    e' == fold_left (fun a note => Math_max a (ni_start note + ni_length note))
            sorted acc.
Proof.
  induction sorted as [| note sorted IH]; intros g s e acc Hg Hacc Hs; cbn.
  - exists s, e. split; [exact Hg | lra].
  - cbn in Hs. destruct Hs as (H1 & H2 & H3).
    apply (IH _ (ni_start note) (ni_start note + ni_length note)).
    + destruct H2 as [[A B] | A].
      * apply (groupNote_chord g note s e); assumption.
      * apply (groupNote_next g note s e); assumption.
    + apply Math_max_seq. destruct H2 as [[A B] | A]; lra.
    + exact H3.
Qed.

(** The queue of the second pass for the notes of a score in chords. *)
Lemma grouped_seq_ok (sorted : list NoteInfo) :
  chordal sorted ->
  seq_ok (maxEnd sorted) (g_store (grouped m sorted)) []
    (blockProcessingQueue (finalRest m (scoreEnd sorted) (grouped m sorted))).
Proof.
  intros Hs. pose proof eps_pos as He.
  destruct (fold_groupNote_chords sorted (mkGrouping [] [] 0) 0 0 0)
    as (s' & e' & Hg & Hl).
  { split; [apply unlinked_nil |]. exists []. cbn.
    split; [reflexivity |]. split; [constructor |].
    split; [reflexivity |]. split; [reflexivity |]. intros H. lra. }
  { reflexivity. }
  { exact Hs. }
  fold (grouped m sorted) in Hg. fold (maxEnd sorted) in Hl.
  destruct Hg as (_ & bs & Hraw & Hm & Ht & Hlast & _).
  assert (Hfin : finalRest m (scoreEnd sorted) (grouped m sorted) = keyed bs).
  { unfold finalRest. rewrite scoreEnd_maxEnd.
    destruct (Qltb _ (maxEnd sorted + eps)) eqn:E; [qprop; lra | exact Hraw]. }
  rewrite Hfin, blockProcessingQueue_keyed by (apply (tiles_increasing _ _ _ _ Ht)).
  split; [exact Hm |].
  exists [], 0, 0. cbn [keyed List.map tiles increasing In].
  split; [reflexivity |]. split; [reflexivity |]. split; [exact I |].
  split; [split; reflexivity |].
  split; [intros b [] |].
  split; [lra |]. split; [lra |].
  apply (tiles_proper _ _ _ 0 0 (lastNoteEndTime (grouped m sorted)));
    [reflexivity | lra | exact Ht].
Qed.

End ChordalGrouping.

(** ** The blocks of a score cover its duration *)

Lemma tiles_map_geo (f : Block.t -> Block.t) (under over : Q)
    (bs : list Block.t) :
  (forall b, Block.start (f b) = Block.start b /\
             Block.length (f b) = Block.length b) ->
  forall lo cursor,
  tiles under over lo bs cursor -> tiles under over lo (List.map f bs) cursor.
Proof.
  intros Hf. induction bs as [| b bs IH]; intros lo cursor; cbn; [auto |].
  destruct (Hf b) as [-> ->].
  intros (H1 & H2 & H3 & H4). repeat split; try assumption.
  apply IH. exact H4.
Qed.

(** The blocks of a model built from the notes of a score in chords. *)
Lemma update_tiles (fuel : nat) (info : JianpuInfo) (defaultKey : option Z)
    (model : JianpuModel) :
  chordal (sort_by ni_start (notes info)) ->
  update fuel info defaultKey = Some model ->
  increasing (List.map Block.start (blocks model)) /\
  match blocks model with
  | [] => True
  | first :: _ => 0 <= Block.start first /\ Block.start first <= eps
  end /\
  exists cur,
    tiles eps (2 * eps) 0 (blocks model) cur /\
    0 <= getTotalDuration model - cur /\
    getTotalDuration model - cur <= 2 * eps.
Proof.
  intros Hs H.
  unfold update, infoToBlocks in H.
  set (sorted := sort_by ni_start (notes info)) in *.
  match type of H with
  | context [MeasuresInfoBuild.create ?i ?l] =>
      set (m := MeasuresInfoBuild.create i l) in *
  end.
  fold (grouped m sorted) in H.
  destruct (processQueue _ m _ _ _) as [[st1 map1] |] eqn:E; [| discriminate].
  injection H as <-.
  unfold blocks, getTotalDuration. cbn [jianpuBlockMap lastQ].
  destruct (processQueue_seq_ok m (maxEnd sorted) _ _ _ _ _ _
              (grouped_seq_ok m sorted Hs) E)
    as (_ & bs & cur & e & -> & Hbs & Hinc & Hfst & _ & He1 & He2 & Hend).
  cbn [tiles] in Hend.
  set (f := fun b => calculateRenderProperties st1 b m).
  assert (Hf : forall b, Block.start (f b) = Block.start b /\
                         Block.length (f b) = Block.length b).
  { intros b. destruct (calculateRenderProperties_geo st1 b m) as (H1 & H2 & _).
    split; assumption. }
  assert (Hv : NumMap.values
                 (List.map
                    (fun kb => (fst kb, calculateRenderProperties st1 (snd kb) m))
                    (keyed bs)) = List.map f bs).
  { unfold NumMap.values, keyed. rewrite !map_map. reflexivity. }
  rewrite Hv.
  split.
  { rewrite map_map.
    rewrite (map_ext (fun b => Block.start (f b)) Block.start)
      by (intros b; apply Hf).
    exact Hinc. }
  split.
  { destruct bs as [| b0 bs']; cbn [List.map]; [exact I |].
    destruct (Hf b0) as [-> _]. exact Hfst. }
  exists cur. split; [apply tiles_map_geo; assumption |].
  rewrite scoreEnd_maxEnd. split; lra.
Qed.

(** C1, as stated: the first block starts at 0; each block starts where the
    one before it ends, within the tolerance; the last block ends at the
    total duration, within the tolerance; no two blocks overlap (here: by
    more than the tolerance). *)
Fixpoint consecutive_within (tol : Q) (bs : list Block.t) : Prop :=
  match bs with
  | a :: bs' =>
      match bs' with
      | b :: _ => Qabs (Block.start b - (Block.start a + Block.length a)) <= tol
      | [] => True
      end /\ consecutive_within tol bs'
  | [] => True
  end.

Definition no_overlap (tol : Q) (bs : list Block.t) : Prop :=
  forall i j a b,
    (i < j)%nat -> nth_error bs i = Some a -> nth_error bs j = Some b ->
    Block.start a + Block.length a <= Block.start b + tol.

Definition partition_as_specified (model : JianpuModel) : Prop :=
  let bs := blocks_by_start model in
  match bs with
  | [] => True
  | first :: _ => Block.start first == 0
  end /\
  consecutive_within eps bs /\
  match rev bs with
  | [] => True
  | final :: _ =>
      Qabs (getTotalDuration model - (Block.start final + Block.length final))
      <= eps
  end /\
  no_overlap eps bs.

(** Two notes, one after the other: the first is 6e-7 longer than a
    quarter and the second starts 9e-7 after its end. *)
Definition drifting_score : JianpuInfo :=
  mkInfo [mkNoteInfo 0 (5000003 # 5000000) 60 127;
          mkNoteInfo (2000003 # 2000000) 1 64 127] [] [] [].

Lemma overlapping_score_wf : wf_score overlapping_score.
Proof.
  split; [| constructor].
  repeat constructor; cbn; lra.
Defined.

Lemma drifting_score_wf : wf_score drifting_score.
Proof.
  split; [| constructor].
  repeat constructor; cbn; lra.
Defined.

(** Two well-formed scores whose blocks are not the partition of C1.  When
    a note starts while another one sounds, the block of the second note
    lies inside the span of the blocks of the first: they overlap by a
    whole quarter.  With one note at a time, a note 6e-7 longer than a quarter gets a
    block of length 1, and the block of the next note starts 1.5e-6 after
    its end. *)
Lemma overlapping_notes_not_partitioned :
  (wf_score overlapping_score /\
   exists model,
     update 50 overlapping_score None = Some model /\
     ~ no_overlap eps (blocks_by_start model) /\
     ~ partition_as_specified model) /\
  (wf_score drifting_score /\
   chordal (sort_by ni_start (notes drifting_score)) /\
   exists model,
     update 50 drifting_score None = Some model /\
     ~ consecutive_within eps (blocks_by_start model) /\
     ~ partition_as_specified model).
Proof.
  split.
  - split; [exact overlapping_score_wf |].
    destruct (update 50 overlapping_score None) as [model |] eqn:E;
      [| vm_compute in E; discriminate].
    exists model. split; [reflexivity |].
    assert (Hno : ~ no_overlap eps (blocks_by_start model)).
    { intros H.
      assert (Hc : option_map
                     (fun md =>
                        match nth_error (blocks_by_start md) 1,
                              nth_error (blocks_by_start md) 2 with
                        | Some a, Some b =>
                            Qltb (Block.start b + eps)
                              (Block.start a + Block.length a)
                        | _, _ => false
                        end) (update 50 overlapping_score None) = Some true)
        by (vm_compute; reflexivity).
      rewrite E in Hc. cbn [option_map] in Hc.
      destruct (nth_error (blocks_by_start model) 1) as [a |] eqn:E1;
        [| discriminate Hc].
      destruct (nth_error (blocks_by_start model) 2) as [b |] eqn:E2;
        [| discriminate Hc].
      injection Hc as Hc. apply Qltb_iff in Hc.
      specialize (H 1%nat 2%nat a b ltac:(lia) E1 E2).
      apply (Qlt_not_le _ _ Hc). exact H. }
    split; [exact Hno |].
    intros (_ & _ & _ & H). apply Hno. exact H.
  - split; [exact drifting_score_wf |].
    split.
    { cbn. split; [lra |]. split; [right; lra |].
      split; [lra |]. split; [right; lra | exact I]. }
    destruct (update 50 drifting_score None) as [model |] eqn:E;
      [| vm_compute in E; discriminate].
    exists model. split; [reflexivity |].
    assert (Hno : ~ consecutive_within eps (blocks_by_start model)).
    { intros H.
      assert (Hc : option_map
                     (fun md =>
                        match blocks_by_start md with
                        | a :: b :: _ =>
                            Qltb eps
                              (Block.start b - (Block.start a + Block.length a))
                        | _ => false
                        end) (update 50 drifting_score None) = Some true)
        by (vm_compute; reflexivity).
      rewrite E in Hc. cbn [option_map] in Hc.
      destruct (blocks_by_start model) as [| a [| b bs]];
        [discriminate Hc | discriminate Hc |].
      injection Hc as Hc. apply Qltb_iff in Hc.
      cbn [consecutive_within] in H. destruct H as [H _].
      pose proof (Qle_Qabs (Block.start b - (Block.start a + Block.length a)))
        as Habs.
      apply (Qlt_not_le _ _ Hc). apply (Qle_trans _ _ _ Habs H). }
    split; [exact Hno |].
    intros (_ & H & _). apply Hno. exact H.
Qed.

(** A chord of two quarters, then a half note. *)
Definition chords_score : JianpuInfo :=
  mkInfo [mkNoteInfo 0 1 60 127; mkNoteInfo 0 1 64 127;
          mkNoteInfo 1 2 67 127] [] [] [].

Lemma chords_score_wf : wf_score chords_score.
Proof.
  split; [| constructor].
  repeat constructor; cbn; lra.
Defined.

(** C1, amended.  For a well-formed score in chords (in order of start,
    each note either starts and ends with the note before it or begins at
    or after its end), the build ends, and the blocks it returns, ordered
    by start time, cover the duration of the score up to the tolerances of
    the engine: the starts are strictly increasing; the first block starts
    at 0 or at most 1e-6 after it; every block has a positive length; each
    block starts between 1e-6 before and 2e-6 after the end of the block
    before it; and the last block ends between 0 and 2e-6 before the total
    duration. *)
Theorem chordal_score_tiles (info : JianpuInfo) (defaultKey : option Z) :
  wf_score info ->
  chordal (sort_by ni_start (notes info)) ->
  (exists fuel model, update fuel info defaultKey = Some model) /\
  forall fuel model,
    update fuel info defaultKey = Some model ->
    increasing (List.map Block.start (blocks_by_start model)) /\
    match blocks_by_start model with
    | [] => True
    | first :: _ => 0 <= Block.start first /\ Block.start first <= eps
    end /\
    exists cur,
      tiles eps (2 * eps) 0 (blocks_by_start model) cur /\
      0 <= getTotalDuration model - cur /\
      getTotalDuration model - cur <= 2 * eps.
Proof.
  intros Hw Hs. split; [apply update_total; exact Hw |].
  intros fuel model H.
  destruct (update_tiles _ _ _ _ Hs H) as (Hinc & Hfst & Hcov).
  unfold blocks_by_start. rewrite (sort_by_increasing _ _ Hinc).
  split; [exact Hinc |]. split; [exact Hfst | exact Hcov].
Qed.

Lemma chordal_score_tiles_witness :
  exists model cur,
    update 50 chords_score None = Some model /\
    increasing (List.map Block.start (blocks_by_start model)) /\
    tiles eps (2 * eps) 0 (blocks_by_start model) cur /\
    0 <= getTotalDuration model - cur /\
    getTotalDuration model - cur <= 2 * eps.
Proof.
  destruct (chordal_score_tiles chords_score None chords_score_wf)
    as [_ H].
  - cbn. split; [lra |]. split; [right; lra |].
    split; [lra |]. split; [left; split; lra |].
    split; [lra |]. split; [right; lra | exact I].
  - destruct (update 50 chords_score None) as [model |] eqn:E;
      [| vm_compute in E; discriminate E].
    destruct (H 50%nat model E) as (Hinc & _ & cur & Ht & H1 & H2).
    exists model, cur. split; [reflexivity |].
    repeat (split; [assumption |]). exact H2.
Defined.

(** * Further properties of the code *)

(** ** The pitch mapper *)

Module PitchRange.
Import Pitch.
Local Open Scope Z_scope.

(** For every key, inside 0..11 or not, the interval is the residue of the
    distance from the reference tonic. *)
Lemma interval_from_reference (p k : Z) :
  interval p k = (p - tonicMidiRef k) mod 12.
Proof.
  unfold interval, tonicMidi, Math_round_div.
  set (r := tonicMidiRef k). set (n := p - r).
  replace (2 * n + 12) with ((n + 6) * 2) by lia.
  replace (2 * 12) with (12 * 2) by lia.
  rewrite Z.div_mul_cancel_r by lia.
  set (o := (n + 6) / 12).
  assert (Hn : 12 * o <= n + 6 < 12 * o + 12).
  { unfold o. pose proof (Z.mul_div_le (n + 6) 12).
    pose proof (Z.mul_succ_div_gt (n + 6) 12). lia. }
  replace (p - (r + o * 12) + 12) with (n - 12 * o + 12) by (unfold n; lia).
  rewrite Z.rem_mod_nonneg by lia.
  replace (n - 12 * o + 12) with (n + (1 - o) * 12) by lia.
  apply Z.mod_add. lia.
Qed.

Lemma interval_in_octave (p k : Z) : 0 <= interval p k <= 11.
Proof.
  rewrite interval_from_reference.
  pose proof (Z.mod_pos_bound (p - tonicMidiRef k) 12). lia.
Qed.

Lemma interval_cases (i : Z) :
  0 <= i <= 11 ->
  i = 0 \/ i = 1 \/ i = 2 \/ i = 3 \/ i = 4 \/ i = 5 \/ i = 6 \/ i = 7 \/
  i = 8 \/ i = 9 \/ i = 10 \/ i = 11.
Proof. lia. Qed.

(** The degree and the accidental that [mapMidiToJianpu] gives for an
    interval. *)
Definition spelled (i : Z) : Z * Z :=
  match MAJOR_SCALE_INTERVALS i with
  | Some d => (d, 0)
  | None =>
      match chromatic i with
      | (Some d, a) => (d, a)
      | (None, _) => (1, 1)
      end
  end.

Lemma mapMidiToJianpu_spelled (p k : Z) :
  mapMidiToJianpu p k =
  mkDetails (fst (spelled (interval p k))) ((p - tonicMidiRef k) / 12)
    (snd (spelled (interval p k))).
Proof.
  unfold mapMidiToJianpu, spelled, Math_floor_div.
  destruct (MAJOR_SCALE_INTERVALS (interval p k)) as [d |];
    [| destruct (chromatic (interval p k)) as [[d |] a]]; reflexivity.
Qed.

Lemma spelled_injective (i j : Z) :
  0 <= i <= 11 -> 0 <= j <= 11 -> spelled i = spelled j -> i = j.
Proof.
  intros Hi Hj.
  apply interval_cases in Hi. apply interval_cases in Hj.
  repeat (destruct Hi as [-> | Hi]);
    try subst i;
    repeat (destruct Hj as [-> | Hj]);
    try subst j;
    cbv; intros H; first [reflexivity | discriminate H].
Qed.

(** X1.  No two pitches get the same symbol: in every key, different MIDI
    pitches differ in the degree, the accidental or the octave dots that
    [mapMidiToJianpu] returns. *)
Theorem mapMidiToJianpu_distinct (p q k : Z) :
  p <> q -> mapMidiToJianpu p k <> mapMidiToJianpu q k.
Proof.
  intros Hne H. apply Hne.
  rewrite !mapMidiToJianpu_spelled in H.
  injection H as H1 H2 H3.
  assert (Hs : spelled (interval p k) = spelled (interval q k)).
  { destruct (spelled (interval p k)), (spelled (interval q k)).
    cbn in H1, H3. congruence. }
  apply spelled_injective in Hs; try apply interval_in_octave.
  rewrite !interval_from_reference in Hs.
  pose proof (Z.div_mod (p - tonicMidiRef k) 12).
  pose proof (Z.div_mod (q - tonicMidiRef k) 12).
  lia.
Qed.

Lemma mapMidiToJianpu_distinct_witness :
  mapMidiToJianpu 61 0 <> mapMidiToJianpu 63 0.
Proof. apply mapMidiToJianpu_distinct. discriminate. Defined.

(** X2.  For every integer pitch and every integer key, also one outside
    0..11, the interval from the tonic is in 0..11, so that the fallback
    branches of the [switch] are never taken: the degree is in 1..7, the
    accidental is 0, 1 or 2 (never 3, the natural), and it is 0 exactly
    when the interval belongs to the major scale. *)
Theorem mapMidiToJianpu_range (p k : Z) :
  0 <= interval p k <= 11 /\
  1 <= jianpuNumber (mapMidiToJianpu p k) <= 7 /\
  0 <= accidental (mapMidiToJianpu p k) <= 2 /\
  (accidental (mapMidiToJianpu p k) = 0 <->
   MAJOR_SCALE_INTERVALS (interval p k) <> None).
Proof.
  pose proof (interval_in_octave p k) as Hi.
  split; [exact Hi |].
  rewrite mapMidiToJianpu_spelled. cbn [jianpuNumber accidental].
  apply interval_cases in Hi.
  repeat (destruct Hi as [-> | Hi]); try rewrite Hi; cbv;
    (split; [split; discriminate |]);
    (split; [split; discriminate |]);
    split; intros H; first [reflexivity | discriminate H | congruence].
Qed.

End PitchRange.

(** ** The chunks of [MeasuresInfo] *)

Module ChunkFacts.
Import MeasuresInfoBuild.

Lemma step_start (info : JianpuInfo) (quarters : Q) (s : LoopState) :
  mi_start (fst (step info quarters s)) = quarters.
Proof.
  unfold step.
  repeat match goal with
  | |- context [match ?x with _ => _ end] => destruct x
  end; reflexivity.
Qed.

Lemma inject_Z_succ (n : nat) :
  inject_Z (Z.of_nat (S n)) == inject_Z (Z.of_nat n) + 1.
Proof. rewrite Nat2Z.inj_succ. unfold Z.succ. rewrite inject_Z_plus. reflexivity. Qed.

(** While the multiples of the step stay below [lastQ], the loop makes a
    chunk at each. *)
Lemma loop_length (info : JianpuInfo) (lastQ : Q) (n : nat) :
  forall (quarters : Q) (s : LoopState),
  (forall i, (i < n)%nat ->
     quarters + inject_Z (Z.of_nat i) * resolutionStep < lastQ) ->
  List.length (loop n info lastQ quarters s) = n.
Proof.
  induction n as [| n IH]; intros quarters s H; cbn [loop]; [reflexivity |].
  assert (H0 : quarters < lastQ).
  { specialize (H O (Nat.lt_0_succ n)).
    change (inject_Z (Z.of_nat 0)) with 0 in H. lra. }
  apply Qltb_iff in H0. rewrite H0.
  destruct (step info quarters s) as [chunk s']. cbn [List.length]. f_equal.
  apply IH. intros i Hi.
  assert (Hsi : (S i < S n)%nat) by lia.
  specialize (H (S i) Hsi).
  rewrite Qred_correct. rewrite inject_Z_succ in H. lra.
Qed.

Lemma loop_starts (info : JianpuInfo) (lastQ : Q) (n : nat) :
  forall (quarters : Q) (s : LoopState) (i : nat) (chunk : MeasureInfo),
  nth_error (loop n info lastQ quarters s) i = Some chunk ->
  mi_start chunk == quarters + inject_Z (Z.of_nat i) * resolutionStep /\
  mi_start chunk < lastQ.
Proof.
  induction n as [| n IH]; intros quarters s i chunk; cbn [loop].
  - destruct i; discriminate.
  - destruct (Qltb quarters lastQ) eqn:E; [| destruct i; discriminate].
    pose proof (step_start info quarters s) as Hs.
    destruct (step info quarters s) as [c s']. cbn [fst] in Hs.
    destruct i as [| i]; cbn [nth_error].
    + intros H. inversion H. subst c. rewrite Hs. qprop.
      change (inject_Z (Z.of_nat 0)) with 0.
      split; [ring | exact E].
    + intros H. destruct (IH _ _ _ _ H) as [H1 H2].
      split; [| exact H2].
      rewrite H1, Qred_correct, inject_Z_succ. ring.
Qed.

Lemma turns_spec (lastQ : Q) :
  (forall i, (i < turns lastQ)%nat ->
     0 + inject_Z (Z.of_nat i) * resolutionStep < lastQ) /\
  lastQ <= inject_Z (Z.of_nat (turns lastQ)) * resolutionStep.
Proof.
  unfold turns, resolutionStep, MIN_RESOLUTION.
  set (x := lastQ / (1 # 16)).
  assert (Ex : lastQ == x * (1 # 16)) by (unfold x; field).
  pose proof (Qle_ceiling x) as Hc1.
  pose proof (Qceiling_lt x) as Hc2.
  split.
  - intros i Hi.
    assert (Hz : (Z.of_nat i <= Qceiling x - 1)%Z) by lia.
    assert (Hq : inject_Z (Z.of_nat i) <= inject_Z (Qceiling x - 1))
      by (rewrite <- Zle_Qle; exact Hz).
    lra.
  - destruct (Z_le_gt_dec 0 (Qceiling x)) as [Hpos | Hneg].
    + rewrite Z2Nat.id by exact Hpos. lra.
    + assert (Hn : Z.to_nat (Qceiling x) = 0%nat) by lia.
      rewrite Hn. change (inject_Z (Z.of_nat 0)) with 0.
      assert (Hq : inject_Z (Qceiling x) <= inject_Z (-1))
        by (rewrite <- Zle_Qle; lia).
      change (inject_Z (-1)) with (- (1)) in Hq. lra.
Qed.

Lemma create_starts (info : JianpuInfo) (lastQ : Q) (i : nat)
    (chunk : MeasureInfo) :
  nth_error (measuresInfo (create info lastQ)) i = Some chunk ->
  mi_start chunk == inject_Z (Z.of_nat i) * MIN_RESOLUTION /\
  mi_start chunk < lastQ.
Proof.
  unfold create. cbn [measuresInfo]. intros H.
  destruct (loop_starts _ _ _ _ _ _ _ H) as [A B].
  split; [rewrite A; unfold resolutionStep; ring | exact B].
Qed.

Lemma create_length (info : JianpuInfo) (lastQ : Q) :
  List.length (measuresInfo (create info lastQ)) = turns lastQ.
Proof.
  unfold create. cbn [measuresInfo].
  apply loop_length. apply (turns_spec lastQ).
Qed.

(** X3.  The constructor of [MeasuresInfo] makes one chunk for every
    multiple of [MIN_RESOLUTION] from 0 that lies below [lastQ], in order:
    chunk [i] starts at [i / 16], and the multiple after the last chunk is
    not below [lastQ]; for [lastQ <= 0] there is no chunk. *)
Theorem chunks_layout (info : JianpuInfo) (lastQ : Q) :
  let chunks := measuresInfo (create info lastQ) in
  List.length chunks = Z.to_nat (Qceiling (lastQ / MIN_RESOLUTION)) /\
  lastQ <= inject_Z (Z.of_nat (List.length chunks)) * MIN_RESOLUTION /\
  forall i chunk,
    nth_error chunks i = Some chunk ->
    mi_start chunk == inject_Z (Z.of_nat i) * MIN_RESOLUTION /\
    mi_start chunk < lastQ.
Proof.
  cbn zeta. rewrite create_length.
  destruct (turns_spec lastQ) as [_ H2].
  split; [reflexivity |]. split; [exact H2 |].
  intros i chunk H. apply (create_starts info lastQ i chunk H).
Qed.

Lemma create_nonempty (info : JianpuInfo) (lastQ : Q) :
  0 < lastQ -> (0 < List.length (measuresInfo (create info lastQ)))%nat.
Proof.
  intros H. rewrite create_length.
  destruct (turns_spec lastQ) as [_ H2].
  destruct (turns lastQ); [| lia].
  change (inject_Z (Z.of_nat 0)) with 0 in H2. lra.
Qed.

Lemma findIndex_bound (m : MeasuresInfo) (t : Q) :
  (0 < List.length (measuresInfo m))%nat ->
  (findIndex m t < List.length (measuresInfo m))%nat.
Proof. intros H. unfold findIndex. lia. Qed.

(** The index that [findIndex] gives for a time inside the score. *)
Lemma findIndex_inside (info : JianpuInfo) (lastQ t : Q) :
  0 <= t -> t < lastQ ->
  Z.of_nat (findIndex (create info lastQ) t) = Qfloor (t / MIN_RESOLUTION).
Proof.
  intros H0 H1. unfold findIndex. rewrite create_length.
  destruct (turns_spec lastQ) as [_ H2].
  unfold resolutionStep, MIN_RESOLUTION in *.
  set (x := t / (1 # 16)).
  assert (Ex : t == x * (1 # 16)) by (unfold x; field).
  pose proof (Qfloor_le x) as Hf.
  assert (Hx0 : (0 <= Qfloor x)%Z).
  { change 0%Z with (Qfloor 0). apply Qfloor_resp_le. lra. }
  assert (Hlt : (Qfloor x < Z.of_nat (turns lastQ))%Z).
  { rewrite Zlt_Qlt. lra. }
  lia.
Qed.

(** X4.  [findIndex] never leaves the chunk list: when there is a chunk,
    the index is below the number of chunks for every time, also a
    negative one or one after the end; and for a time [t] inside the score
    the chunk at the index is the one that holds [t]. *)
Theorem findIndex_finds_chunk (info : JianpuInfo) (lastQ t : Q) :
  0 < lastQ ->
  let m := create info lastQ in
  (findIndex m t < List.length (measuresInfo m))%nat /\
  (0 <= t -> t < lastQ ->
   exists chunk,
     nth_error (measuresInfo m) (findIndex m t) = Some chunk /\
     mi_start chunk <= t /\ t < mi_start chunk + MIN_RESOLUTION).
Proof.
  intros Hl m.
  pose proof (findIndex_bound m t (create_nonempty info lastQ Hl)) as Hb.
  split; [exact Hb |].
  intros H0 H1.
  destruct (nth_error (measuresInfo m) (findIndex m t)) as [chunk |] eqn:E;
    [| apply nth_error_None in E; lia].
  exists chunk. split; [reflexivity |].
  destruct (create_starts info lastQ _ _ E) as [Hs _].
  pose proof (findIndex_inside info lastQ t H0 H1) as Hi.
  fold m in Hi. rewrite Hi in Hs.
  unfold MIN_RESOLUTION in *.
  set (x := t / (1 # 16)) in *.
  assert (Ex : t == x * (1 # 16)) by (unfold x; field).
  pose proof (Qfloor_le x) as Hf.
  pose proof (Qlt_floor x) as Hf2.
  rewrite inject_Z_plus in Hf2. change (inject_Z 1) with 1 in Hf2.
  split; lra.
Qed.

Lemma findIndex_finds_chunk_witness :
  exists chunk,
    nth_error (measuresInfo (create (mkInfo [] [] [] []) 1))
      (findIndex (create (mkInfo [] [] [] []) 1) (1 # 2)) = Some chunk /\
    mi_start chunk <= 1 # 2 /\ (1 # 2) < mi_start chunk + MIN_RESOLUTION.
Proof.
  destruct (findIndex_finds_chunk (mkInfo [] [] [] []) 1 (1 # 2)) as [_ H];
    [reflexivity |].
  apply H; [discriminate | reflexivity].
Defined.

End ChunkFacts.

(** ** [measure_info.ts]: the tempo and the beats *)

(** [MAX_QUARTER_DIVISION] of [model_constants.ts]. *)
Definition MAX_QUARTER_DIVISION : Q := 16 * 3 * 5.

(** [MeasuresInfo.tempoAtQ]. *)
Definition tempoAtQ (m : MeasuresInfo) (start : Q) (onlyChanges : bool) : Q :=
  match nth_error (measuresInfo m) (findIndex m start) with
  | None => qpm DEFAULT_TEMPO
  | Some chunk =>
      let isExactStart :=
        Qltb (Qabs (mi_start chunk - start)) (MIN_RESOLUTION / 2) in
      if negb onlyChanges || (mi_tempoChange chunk && isExactStart)
      then qpm (mi_tempo chunk) else - (1)
  end.

(** [MeasuresInfo.quartersToTime]. *)
Definition quartersToTime (m : MeasuresInfo) (quarters startTime : Q) : Q :=
  let qpm := tempoAtQ m startTime false in
  if Qleb qpm 0 then 0 else (quarters / qpm) * 60.

(** [MeasuresInfo.timeToQuarters]. *)
Definition timeToQuarters (m : MeasuresInfo) (time startTime : Q) : Q :=
  let qpm := tempoAtQ m startTime false in
  if Qleb qpm 0 then 0
  else
    let q := (time * qpm) / 60 in
    Math_round (q * MAX_QUARTER_DIVISION) / MAX_QUARTER_DIVISION.

(** [MeasuresInfo.isBeatStart]. *)
Definition isBeatStart (m : MeasuresInfo) (time : Q) : bool :=
  match nth_error (measuresInfo m) (findIndex m time) with
  | None => false
  | Some measureInfo =>
      let timeSignature := mi_timeSignature measureInfo in
      let measureStart :=
        mi_start measureInfo
        - (mi_measureNumber measureInfo
           - Math_floor (mi_measureNumber measureInfo))
          * mi_measureLength measureInfo in
      let timeInMeasure := time - measureStart in
      let beatLength := 4 / inject_Z (denominator timeSignature) in
      let beatNumber := timeInMeasure / beatLength in
      Qltb (Qabs (beatNumber - Math_round beatNumber)) (MIN_RESOLUTION / 2)
  end.

Module SignatureFacts.
Import MeasuresInfoBuild.
Import ChunkFacts.

(** What a turn of the loop does with the time signature, when no change
    is due at [quarters]. *)
Lemma step_time_miss (info : JianpuInfo) (quarters : Q) (s : LoopState) :
  match nth_error (timeSignatures info) (timeIndex s) with
  | Some t =>
      Qltb (Qabs (time_start t - quarters)) (resolutionStep / 2) = false
  | None => True
  end ->
  let r := step info quarters s in
  mi_measureNumber (fst r)
  = measureNumberAtCurrentTimeSignature s
    + (quarters - timeOfLastTimeSigChange s) / currentMeasureLength s /\
  mi_measureLength (fst r) = currentMeasureLength s /\
  mi_timeSignature (fst r) = currentTimeSignature s /\
  mi_timeChange (fst r) = false /\
  timeIndex (snd r) = timeIndex s /\
  currentTimeSignature (snd r) = currentTimeSignature s /\
  measureNumberAtCurrentTimeSignature (snd r)
  = measureNumberAtCurrentTimeSignature s /\
  currentMeasureLength (snd r) = currentMeasureLength s /\
  timeOfLastTimeSigChange (snd r) = timeOfLastTimeSigChange s.
Proof.
  intros H. unfold step.
  destruct (nth_error (timeSignatures info) (timeIndex s)) as [t |];
    [rewrite H |];
    repeat match goal with
    | |- context [match ?x with _ => _ end] => destruct x
    end; cbv zeta; repeat split.
Qed.

(** What a turn of the loop does with the time signature that is due at
    [quarters]. *)
Lemma step_time_hit (info : JianpuInfo) (quarters : Q) (s : LoopState)
    (t : TimeSignatureInfo) :
  nth_error (timeSignatures info) (timeIndex s) = Some t ->
  Qltb (Qabs (time_start t - quarters)) (resolutionStep / 2) = true ->
  let r := step info quarters s in
  let number :=
    Math_round
      ((measureNumberAtCurrentTimeSignature s
        + (time_start t - timeOfLastTimeSigChange s) / currentMeasureLength s)
       * 1000) / 1000 in
  mi_measureNumber (fst r) = number /\
  mi_measureLength (fst r) = getMeasureLength t /\
  mi_timeSignature (fst r) = t /\
  mi_timeChange (fst r) = true /\
  timeIndex (snd r) = S (timeIndex s) /\
  currentTimeSignature (snd r) = t /\
  measureNumberAtCurrentTimeSignature (snd r) = number /\
  currentMeasureLength (snd r) = getMeasureLength t /\
  timeOfLastTimeSigChange (snd r) = quarters.
Proof.
  intros H1 H2. unfold step. rewrite H1, H2.
  repeat match goal with
  | |- context [match ?x with _ => _ end] => destruct x
  end; cbv zeta; repeat split.
Qed.

Section OneTimeSignature.
Variable info : JianpuInfo.
Variable lastQ : Q.
Variable ts : TimeSignatureInfo.
Hypothesis one : timeSignatures info = [ts].

(** The state of the loop after the only time signature has come. *)
Definition settled (s : LoopState) : Prop :=
  timeIndex s = 1%nat /\
  currentTimeSignature s = ts /\
  measureNumberAtCurrentTimeSignature s == 1 /\
  currentMeasureLength s = getMeasureLength ts /\
  timeOfLastTimeSigChange s == 0.

Definition chunk_ok (chunk : MeasureInfo) : Prop :=
  mi_measureNumber chunk == 1 + mi_start chunk / getMeasureLength ts /\
  mi_measureLength chunk = getMeasureLength ts /\
  mi_timeSignature chunk = ts.

Lemma loop_settled (n : nat) :
  forall (quarters : Q) (s : LoopState),
  settled s -> Forall chunk_ok (loop n info lastQ quarters s).
Proof.
  induction n as [| n IH]; intros quarters s Hs; cbn [loop]; [constructor |].
  destruct (Qltb quarters lastQ); [| constructor].
  destruct Hs as (S1 & S2 & S3 & S4 & S5).
  pose proof (step_start info quarters s) as Hst.
  pose proof (step_time_miss info quarters s) as Hm.
  rewrite one, S1 in Hm. cbn [nth_error] in Hm. specialize (Hm I).
  cbv zeta in Hm.
  destruct (step info quarters s) as [chunk s']. cbn [fst snd] in *.
  destruct Hm as (M1 & M2 & M3 & _ & M5 & M6 & M7 & M8 & M9).
  constructor.
  - split; [| split; congruence].
    rewrite M1, Hst, S3, S4, S5. unfold Qdiv. ring.
  - apply IH. repeat split; congruence.
Qed.

Lemma create_chunks_ok :
  Qabs (time_start ts) < 1 # 32 ->
  Forall chunk_ok (measuresInfo (create info lastQ)).
Proof.
  intros Hnear. unfold create. cbn [measuresInfo].
  destruct (turns lastQ) as [| n]; cbn [loop]; [constructor |].
  destruct (Qltb 0 lastQ); [| constructor].
  pose proof (step_start info 0 (init info)) as Hst.
  assert (H1 : nth_error (timeSignatures info) (timeIndex (init info))
               = Some ts)
    by (unfold init; cbn [timeIndex]; rewrite one; reflexivity).
  assert (Hq : Qltb (Qabs (time_start ts - 0)) (resolutionStep / 2) = true).
  { apply Qltb_iff.
    assert (E : time_start ts - 0 == time_start ts) by ring.
    rewrite E. exact Hnear. }
  pose proof (step_time_hit info 0 (init info) ts H1 Hq) as Hh.
  cbv zeta in Hh.
  assert (Hnum :
    Math_round
      ((measureNumberAtCurrentTimeSignature (init info)
        + (time_start ts - timeOfLastTimeSigChange (init info))
          / currentMeasureLength (init info)) * 1000) / 1000 == 1).
  { unfold init. rewrite one.
    cbn [nth measureNumberAtCurrentTimeSignature timeOfLastTimeSigChange
         currentMeasureLength].
    unfold Math_round.
    rewrite (Qfloor_comp _ (1000 + (1 # 2))); [reflexivity |].
    unfold Qdiv. ring. }
  destruct (step info 0 (init info)) as [chunk s']. cbn [fst snd] in *.
  destruct Hh as (M1 & M2 & M3 & _ & M5 & M6 & M7 & M8 & M9).
  constructor.
  - split; [| split; assumption].
    rewrite M1, Hst, Hnum. unfold Qdiv. ring.
  - apply loop_settled.
    split; [exact M5 |]. split; [exact M6 |].
    split; [rewrite M7; exact Hnum |]. split; [exact M8 |].
    rewrite M9. reflexivity.
Qed.

End OneTimeSignature.

(** X5.  In a score with one time signature, given at (or within 1/32 of)
    time 0, the measure number at every time [t], also before 0 and after
    the end of the score, is [1 + t / measureLength + 1e-9]: measures count
    from 1, and every measure number is 1e-9 too large; the measure length
    and the time signature found are those of the signature. *)
Theorem one_time_signature_measures (info : JianpuInfo) (lastQ : Q)
    (ts : TimeSignatureInfo) (t : Q) :
  timeSignatures info = [ts] ->
  Qabs (time_start ts) < 1 # 32 ->
  (0 < numerator ts)%Z -> (0 < denominator ts)%Z ->
  0 < lastQ ->
  let m := create info lastQ in
  measureNumberAtQ m t
  == 1 + t / getMeasureLength ts + (1 # 1000000000) /\
  measureLengthAtQ m t = getMeasureLength ts /\
  timeSignatureAtQ m t false = Some ts.
Proof.
  intros Hone Hnear _ _ Hl m.
  pose proof (findIndex_bound m t (create_nonempty info lastQ Hl)) as Hb.
  pose proof (create_chunks_ok info lastQ ts Hone Hnear) as Hall.
  fold m in Hall.
  unfold measureNumberAtQ, measureLengthAtQ, timeSignatureAtQ.
  destruct (nth_error (measuresInfo m) (findIndex m t)) as [chunk |] eqn:E;
    [| apply nth_error_None in E; lia].
  rewrite Forall_forall in Hall.
  destruct (Hall chunk (nth_error_In _ _ E)) as (C1 & C2 & C3).
  split; [rewrite C1, C2; unfold Qdiv; ring |].
  split; [exact C2 |]. cbn [negb orb]. rewrite C3. reflexivity.
Qed.

Lemma one_time_signature_measures_witness :
  measureNumberAtQ (create (mkInfo [] [] [] [mkTime 0 3 4]) 8) 6
  == 3 + (1 # 1000000000).
Proof.
  destruct (one_time_signature_measures
              (mkInfo [] [] [] [mkTime 0 3 4]) 8 (mkTime 0 3 4) 6)
    as (H & _);
    [reflexivity | reflexivity | reflexivity | reflexivity | reflexivity |].
  rewrite H. reflexivity.
Defined.

End SignatureFacts.

Module LookupFacts.
Import MeasuresInfoBuild.
Import ChunkFacts.

(** The tempo, the key signature and the time signature of the loop are
    among those of the score, and so are those of the chunk it makes. *)
Definition from_score (info : JianpuInfo) (tp : TempoInfo)
    (ks : KeySignatureInfo) (ts : TimeSignatureInfo) : Prop :=
  In tp (tempos info) /\ In ks (keySignatures info) /\
  In ts (timeSignatures info).

Lemma step_from_score (info : JianpuInfo) (quarters : Q) (s : LoopState) :
  from_score info (currentTempo s) (currentKeySignature s)
    (currentTimeSignature s) ->
  let r := step info quarters s in
  from_score info (mi_tempo (fst r)) (mi_keySignature (fst r))
    (mi_timeSignature (fst r)) /\
  from_score info (currentTempo (snd r)) (currentKeySignature (snd r))
    (currentTimeSignature (snd r)).
Proof.
  intros (H1 & H2 & H3). unfold step, from_score.
  destruct (nth_error (tempos info) (tempoIndex s)) as [tp |] eqn:E1;
    [apply nth_error_In in E1; destruct (Qltb _ _) |];
    (destruct (nth_error (keySignatures info) (keyIndex s)) as [ks |] eqn:E2;
      [apply nth_error_In in E2; destruct (Qltb _ _) |]);
    (destruct (nth_error (timeSignatures info) (timeIndex s)) as [ts |] eqn:E3;
      [apply nth_error_In in E3; destruct (Qltb _ _) |]);
    cbv zeta; cbn [fst snd mi_tempo mi_keySignature mi_timeSignature
                   currentTempo currentKeySignature currentTimeSignature];
    repeat split; assumption.
Qed.

Lemma loop_from_score (info : JianpuInfo) (lastQ : Q) (n : nat) :
  forall (quarters : Q) (s : LoopState),
  from_score info (currentTempo s) (currentKeySignature s)
    (currentTimeSignature s) ->
  Forall
    (fun chunk =>
       from_score info (mi_tempo chunk) (mi_keySignature chunk)
         (mi_timeSignature chunk))
    (loop n info lastQ quarters s).
Proof.
  induction n as [| n IH]; intros quarters s Hs; cbn [loop]; [constructor |].
  destruct (Qltb quarters lastQ); [| constructor].
  pose proof (step_from_score info quarters s Hs) as H. cbv zeta in H.
  destruct (step info quarters s) as [chunk s']. cbn [fst snd] in H.
  destruct H as [Hc Hs'].
  constructor; [exact Hc | apply IH; exact Hs'].
Qed.

Lemma nth_0_In {A : Type} (l : list A) (d : A) : l <> [] -> In (nth 0 l d) l.
Proof. destruct l; [congruence | left; reflexivity]. Qed.

(** X6.  Built for a score that has a tempo, a key signature and a time
    signature, the lookups at any time (with [onlyChanges] off) return data
    of the score: the tempo of one of its tempos, the key of one of its key
    signatures and one of its time signatures; never the -1 or the [null]
    that stand for a missing change, and never the defaults of an empty
    table. *)
Theorem lookups_return_score_data (info : JianpuInfo) (lastQ t : Q) :
  tempos info <> [] -> keySignatures info <> [] -> timeSignatures info <> [] ->
  0 < lastQ ->
  let m := create info lastQ in
  (exists tp, In tp (tempos info) /\ tempoAtQ m t false = qpm tp) /\
  (exists ks, In ks (keySignatures info) /\
              keySignatureAtQ m t false = key ks) /\
  (exists ts, In ts (timeSignatures info) /\
              timeSignatureAtQ m t false = Some ts).
Proof.
  intros H1 H2 H3 Hl m.
  pose proof (findIndex_bound m t (create_nonempty info lastQ Hl)) as Hb.
  assert (Hall :
    Forall
      (fun chunk =>
         from_score info (mi_tempo chunk) (mi_keySignature chunk)
           (mi_timeSignature chunk)) (measuresInfo m)).
  { unfold m, create. cbn [measuresInfo]. apply loop_from_score.
    unfold init. cbn [currentTempo currentKeySignature currentTimeSignature].
    repeat split; apply nth_0_In; assumption. }
  unfold tempoAtQ, keySignatureAtQ, timeSignatureAtQ.
  destruct (nth_error (measuresInfo m) (findIndex m t)) as [chunk |] eqn:E;
    [| apply nth_error_None in E; lia].
  rewrite Forall_forall in Hall.
  destruct (Hall chunk (nth_error_In _ _ E)) as (C1 & C2 & C3).
  cbn [negb orb]. repeat split; eexists; split; try eassumption; reflexivity.
Qed.

Lemma lookups_return_score_data_witness :
  exists ks,
    In ks [mkKey 0 7; mkKey 2 5] /\
    keySignatureAtQ
      (create (mkInfo [] [mkTempo 0 90] [mkKey 0 7; mkKey 2 5] [mkTime 0 4 4])
         4) 3 false = key ks.
Proof.
  destruct (lookups_return_score_data
              (mkInfo [] [mkTempo 0 90] [mkKey 0 7; mkKey 2 5] [mkTime 0 4 4])
              4 3) as (_ & H & _);
    [discriminate | discriminate | discriminate | reflexivity |].
  exact H.
Defined.

Lemma Math_round_integer (x : Q) (n : Z) :
  x == inject_Z n -> Math_round x = inject_Z n.
Proof.
  intros E. unfold Math_round. f_equal.
  rewrite (Qfloor_comp _ (inject_Z n + (1 # 2))) by (rewrite E; reflexivity).
  pose proof (Qfloor_le (inject_Z n + (1 # 2))) as H1.
  pose proof (Qlt_floor (inject_Z n + (1 # 2))) as H2.
  set (f := Qfloor (inject_Z n + (1 # 2))) in *.
  rewrite inject_Z_plus in H2. change (inject_Z 1) with 1 in H2.
  assert (A : inject_Z f < inject_Z (n + 1))
    by (rewrite inject_Z_plus; change (inject_Z 1) with 1; lra).
  assert (B : inject_Z n < inject_Z (f + 1))
    by (rewrite inject_Z_plus; change (inject_Z 1) with 1; lra).
  rewrite <- Zlt_Qlt in A, B. lia.
Qed.

Lemma Math_round_near (x : Q) :
  x - (1 # 2) < Math_round x /\ Math_round x <= x + (1 # 2).
Proof.
  unfold Math_round.
  pose proof (Qfloor_le (x + (1 # 2))) as H1.
  pose proof (Qlt_floor (x + (1 # 2))) as H2.
  rewrite inject_Z_plus in H2. change (inject_Z 1) with 1 in H2.
  split; lra.
Qed.

(** X7.  Where the tempo is positive, quarters and seconds convert into
    each other: a number of quarters on the grid of 1/240 converted to
    seconds and back is the same number, and a time in seconds converted to
    quarters and back differs by at most 1/8 of a second divided by the
    tempo (quarters are rounded to the grid). *)
Theorem quarters_time_round_trip (m : MeasuresInfo) (startTime : Q) :
  0 < tempoAtQ m startTime false ->
  (forall n : Z,
     timeToQuarters m
       (quartersToTime m (inject_Z n / MAX_QUARTER_DIVISION) startTime)
       startTime
     == inject_Z n / MAX_QUARTER_DIVISION) /\
  (forall time : Q,
     let back :=
       quartersToTime m (timeToQuarters m time startTime) startTime in
     - (1 # 8) < (back - time) * tempoAtQ m startTime false /\
     (back - time) * tempoAtQ m startTime false <= 1 # 8).
Proof.
  intros Hpos. unfold quartersToTime, timeToQuarters, MAX_QUARTER_DIVISION.
  set (tempo := tempoAtQ m startTime false) in *.
  assert (E : Qleb tempo 0 = false) by (apply Qleb_false; exact Hpos).
  rewrite E.
  assert (Hne : ~ tempo == 0) by lra.
  split.
  - intros n.
    rewrite (Math_round_integer _ n); [reflexivity |].
    field. exact Hne.
  - intros time. cbv zeta.
    set (x := time * tempo / 60 * (16 * 3 * 5)).
    pose proof (Math_round_near x) as [R1 R2].
    assert (Eb : (Math_round x / (16 * 3 * 5) / tempo * 60 - time) * tempo
                 == (Math_round x - x) * (1 # 4)).
    { unfold x. field. exact Hne. }
    rewrite Eb. split; lra.
Qed.

Lemma quarters_time_round_trip_witness :
  timeToQuarters (create (mkInfo [] [mkTempo 0 90] [] []) 4)
    (quartersToTime (create (mkInfo [] [mkTempo 0 90] [] []) 4)
       (inject_Z 80 / MAX_QUARTER_DIVISION) 1) 1
  == inject_Z 80 / MAX_QUARTER_DIVISION.
Proof.
  destruct (quarters_time_round_trip
              (create (mkInfo [] [mkTempo 0 90] [] []) 4) 1) as [H _];
    [reflexivity |].
  apply H.
Defined.

End LookupFacts.

(** ** [JianpuBlock.addNote] *)

Lemma In_list_update_set {A : Type} (l : list A) (i : nat) (x : A) :
  (i < List.length l)%nat -> In x (list_update l i (fun _ => x)).
Proof.
  revert i. induction l as [| a l IH]; intros [| i] H; cbn in *; try lia.
  - left. reflexivity.
  - right. apply IH. lia.
Qed.

(** X8.  What the result of [addNote] tells: when it returns [true] the
    note is in the block afterwards; when it returns [false] (the note
    starts 1e-6 or more away from the block, or the block holds a note of
    the same pitch that is not longer) no note of the block and no note of
    the store has changed.  A block that holds notes keeps its start. *)
Theorem addNote_result (st : Store) (b : Block.t) (j : nat)
    (st' : Store) (b' : Block.t) (ok : bool) :
  addNote st b j = (st', b', ok) ->
  (ok = true -> In j (Block.notes b')) /\
  (ok = false -> st' = st /\ Block.notes b' = Block.notes b) /\
  (Block.notes b <> [] -> Block.start b' = Block.start b).
Proof.
  unfold addNote.
  destruct (Block.notes b) as [| r0 l0] eqn:En.
  - intros H. inversion H. subst. cbn.
    split; [intros _; left; reflexivity |].
    split; [discriminate | congruence].
  - rewrite <- En.
    destruct (isSafeZero _); cbn [negb].
    2:{ intros H. inversion H. subst.
        split; [discriminate |]. split; [auto | reflexivity]. }
    destruct (find_pitch st (Block.notes b) _) as [i |] eqn:Ef.
    + destruct (find_pitch_spec _ _ _ _ Ef) as (Hi & _ & _).
      destruct (Qltb _ _).
      * destruct (minLength _ _ _); intros H; inversion H; subst; cbn;
          (split; [intros _; apply In_list_update_set; exact Hi |]);
          (split; [discriminate | reflexivity]).
      * destruct (minLength _ _ _); intros H; inversion H; subst; cbn;
          (split; [discriminate |]); (split; [auto | reflexivity]).
    + destruct (minLength _ _ _); intros H; inversion H; subst; cbn;
        (split; [intros _; apply in_or_app; right; left; reflexivity |]);
        (split; [discriminate | reflexivity]).
Qed.

Lemma addNote_result_witness :
  addNote [Note.mk 0 1 60 100 1 0 0 None None;
           Note.mk 0 2 60 100 1 0 0 None None]
    (Block.create 0 1 [0%nat] 1) 1
  = ([Note.mk 0 1 60 100 1 0 0 None None;
      Note.mk 0 2 60 100 1 0 0 None None],
     Block.set_length 1 (Block.create 0 1 [0%nat] 1), false) /\
  Block.notes (Block.set_length 1 (Block.create 0 1 [0%nat] 1)) = [0%nat].
Proof.
  split; [reflexivity |].
  destruct (addNote_result
              [Note.mk 0 1 60 100 1 0 0 None None;
               Note.mk 0 2 60 100 1 0 0 None None]
              (Block.create 0 1 [0%nat] 1) 1 _ _ false eq_refl)
    as (_ & H & _).
  destruct (H eq_refl) as [_ Hn]. exact Hn.
Defined.

(** The least length is the length of one of the notes. *)
Lemma minLength_attained (st : Store) (l : list nat) :
  forall acc mn,
  minLength st l acc = Some mn ->
  (exists r, In r l /\ mn = Note.length (deref st r)) \/ acc = Some mn.
Proof.
  induction l as [| x l IH]; intros acc mn H; cbn in H; [right; exact H |].
  destruct (IH _ _ H) as [(r & Hr & E) | E].
  - left. exists r. split; [right; exact Hr | exact E].
  - inversion E as [E']. destruct acc as [a |].
    + destruct (Math_min_cases a (Note.length (deref st x))) as [Em | Em];
        rewrite Em in *.
      * right. reflexivity.
      * left. exists x. split; [left; reflexivity | reflexivity].
    + left. exists x. split; [left; reflexivity | reflexivity].
Qed.

(** X9.  After a note has been added to a block that holds notes and
    starts with it (within 1e-6), the length of the block is the least of
    the lengths of its notes: no note of the block is shorter than the
    block, and one of them is exactly as long. *)
Theorem addNote_length_is_least (st : Store) (b : Block.t) (j : nat)
    (st' : Store) (b' : Block.t) (ok : bool) :
  Block.notes b <> [] ->
  isSafeZero (Block.start b - Note.start (deref st j)) = true ->
  addNote st b j = (st', b', ok) ->
  (forall r, In r (Block.notes b') ->
     Block.length b' <= Note.length (deref st' r)) /\
  exists r, In r (Block.notes b') /\
            Block.length b' = Note.length (deref st' r).
Proof.
  intros Hne Hz. unfold addNote.
  destruct (Block.notes b) as [| r0 l0] eqn:En; [congruence |].
  rewrite <- En. rewrite Hz. cbn [negb].
  assert (Hne' : Block.notes b <> []) by (rewrite En; discriminate).
  assert (Hfin : forall st1 notes1 ok1,
             notes1 <> [] ->
             (st1,
              match minLength st1 notes1 None with
              | Some mn => Block.set_length mn (Block.set_notes notes1 b)
              | None => Block.set_notes notes1 b
              end, ok1) = (st', b', ok) ->
             (forall r, In r (Block.notes b') ->
                Block.length b' <= Note.length (deref st' r)) /\
             exists r, In r (Block.notes b') /\
                       Block.length b' = Note.length (deref st' r)).
  { intros st1 notes1 ok1 Hn1 H.
    destruct (minLength_some st1 notes1 None (or_introl Hn1)) as [mn Hmn].
    rewrite Hmn in H. inversion H. subst st' b' ok. cbn.
    split; [apply (minLength_le _ _ _ _ Hmn) |].
    destruct (minLength_attained _ _ _ _ Hmn) as [Hr | Hr];
      [exact Hr | discriminate]. }
  destruct (find_pitch st (Block.notes b) _) as [i |] eqn:Ef.
  - destruct (Qltb _ _).
    + apply Hfin. apply list_update_not_nil. exact Hne'.
    + apply Hfin. exact Hne'.
  - apply Hfin. destruct (Block.notes b); discriminate.
Qed.

Lemma addNote_length_is_least_witness :
  exists st' b' ok,
    addNote [Note.mk 0 2 60 100 1 0 0 None None;
             Note.mk 0 1 64 100 3 0 0 None None]
      (Block.create 0 2 [0%nat] 1) 1 = (st', b', ok) /\
    exists r, In r (Block.notes b') /\
              Block.length b' = Note.length (deref st' r).
Proof.
  eexists _, _, _. split; [reflexivity |].
  eapply (addNote_length_is_least
            [Note.mk 0 2 60 100 1 0 0 None None;
             Note.mk 0 1 64 100 3 0 0 None None]
            (Block.create 0 2 [0%nat] 1) 1);
    [discriminate | reflexivity | reflexivity].
Defined.

Lemma find_pitch_none (st : Store) (l : list nat) (p : Z) :
  find_pitch st l p = None ->
  forall r, In r l -> Note.pitch (deref st r) <> p.
Proof.
  induction l as [| x l IH]; cbn; [intros _ r [] |].
  destruct (Z.eqb (Note.pitch (deref st x)) p) eqn:E; [discriminate |].
  destruct (find_pitch st l p); [discriminate |].
  intros _ r [<- | Hr]; [apply Z.eqb_neq; exact E | apply IH; auto].
Qed.

Lemma map_list_update_same {A B : Type} (g : A -> B) (l : list A) (i : nat)
    (x d : A) :
  g x = g (nth i l d) ->
  List.map g (list_update l i (fun _ => x)) = List.map g l.
Proof.
  revert i. induction l as [| a l IH]; intros [| i] H; cbn in *;
    try reflexivity.
  - rewrite H. reflexivity.
  - rewrite IH by exact H. reflexivity.
Qed.

(** X10.  [addNote] keeps the pitches of a block distinct: when no two
    notes of the block have the same pitch, none do after a note has been
    added; a note whose pitch the block holds replaces the one of that
    pitch or is dropped. *)
Theorem addNote_pitches_distinct (st : Store) (b : Block.t) (j : nat)
    (st' : Store) (b' : Block.t) (ok : bool) :
  NoDup (List.map (fun r => Note.pitch (deref st r)) (Block.notes b)) ->
  addNote st b j = (st', b', ok) ->
  NoDup (List.map (fun r => Note.pitch (deref st' r)) (Block.notes b')).
Proof.
  intros Hnd Ha.
  pose proof (addNote_same_shape _ _ _ _ _ _ Ha) as [_ Hsh].
  assert (Hp : forall l,
             List.map (fun r => Note.pitch (deref st' r)) l
             = List.map (fun r => Note.pitch (deref st r)) l).
  { intros l. apply map_ext. intros r. apply (Hsh r). }
  rewrite Hp. clear Hp Hsh. revert Ha. unfold addNote.
  destruct (Block.notes b) as [| r0 l0] eqn:En.
  - intros H. inversion H. subst. cbn. constructor; [intros [] | constructor].
  - rewrite <- En in *.
    destruct (isSafeZero _); cbn [negb];
      [| intros H; inversion H; subst; exact Hnd].
    destruct (find_pitch st (Block.notes b) _) as [i |] eqn:Ef.
    + destruct (find_pitch_spec _ _ _ _ Ef) as (Hi & _ & Hpi).
      destruct (Qltb _ _).
      * destruct (minLength _ _ _); intros H; inversion H; subst; cbn;
          rewrite (map_list_update_same _ _ _ _ O) by (symmetry; exact Hpi);
          exact Hnd.
      * destruct (minLength _ _ _); intros H; inversion H; subst; cbn;
          exact Hnd.
    + pose proof (find_pitch_none _ _ _ Ef) as Hnone.
      assert (Hnew : NoDup (List.map (fun r => Note.pitch (deref st r))
                              (Block.notes b ++ [j]))).
      { rewrite map_app. cbn. apply NoDup_app; [exact Hnd | | ].
        - constructor; [intros [] | constructor].
        - intros p Hin [<- | []].
          apply in_map_iff in Hin. destruct Hin as (r & E & Hr).
          apply (Hnone r Hr). exact E. }
      destruct (minLength _ _ _); intros H; inversion H; subst; cbn;
        exact Hnew.
Qed.

Lemma addNote_pitches_distinct_witness :
  exists st' b' ok,
    addNote [Note.mk 0 2 60 100 1 0 0 None None;
             Note.mk 0 1 60 100 1 0 0 None None]
      (Block.create 0 2 [0%nat] 1) 1 = (st', b', ok) /\
    NoDup (List.map (fun r => Note.pitch (deref st' r)) (Block.notes b')).
Proof.
  eexists _, _, _. split; [reflexivity |].
  eapply (addNote_pitches_distinct
            [Note.mk 0 2 60 100 1 0 0 None None;
             Note.mk 0 1 60 100 1 0 0 None None]
            (Block.create 0 2 [0%nat] 1) 1); [| reflexivity].
  cbn. constructor; [intros [] | constructor].
Defined.

(** ** [JianpuBlock.split] and the functions that cut with it *)

(** A chain of [addNote] into a block that holds notes keeps its start. *)
Lemma addNotes_start (l : list nat) :
  forall (st st' : Store) (b b' : Block.t),
  Block.notes b <> [] ->
  addNotes st b l = (st', b') ->
  Block.start b' = Block.start b /\ Block.notes b' <> [].
Proof.
  induction l as [| j l IH]; intros st st' b b' Hne H; cbn in H.
  - inversion H. subst. auto.
  - destruct (addNote st b j) as [[st1 b1] ok] eqn:Ea.
    destruct (addNote_nonempty _ _ _ _ _ _ Hne Ea) as (Hs & _ & Hn1 & _).
    destruct (IH _ _ _ _ Hn1 H) as [Hs' Hn']. split; [congruence | exact Hn'].
Qed.

(** X11.  When [split] returns a block, the two blocks cover the span of
    the original one without a gap: the split point lies after the start
    and at least 1e-6 before the end; the head keeps its start and its
    notes, ends at the split point and has lost its render properties; the
    tail starts at the split point and holds only notes that the split has
    made, each starting at the split point. *)
Theorem split_head_and_tail (st : Store) (b : Block.t) (quarters : Q)
    (m : MeasuresInfo) (st' : Store) (h t : Block.t) :
  split st b quarters m = (st', h, Some t) ->
  (Block.start b < quarters /\
   quarters + eps <= Block.start b + Block.length b) /\
  (Block.start h = Block.start b /\
   Block.start h + Block.length h == quarters /\
   Block.notes h = Block.notes b) /\
  (Block.durationLines h = None /\ Block.augmentationDots h = None /\
   Block.augmentationDash h = None) /\
  Block.start t = quarters /\
  forall f, In f (Block.notes t) ->
    (List.length st <= f < List.length st')%nat /\
    Note.start (deref st' f) = quarters.
Proof.
  intros Hs.
  destruct (split_cases _ _ _ _ _ _ _ Hs) as [(Hn & _) | (H1 & H2 & Hx)];
    [discriminate |].
  destruct Hx as (st1 & frags & t0 & t' & Ht & Hsn & Han & Hhs & Hhl & Hhn
                  & Ets & Etl & Etn).
  inversion Ht. subst t'. clear Ht.
  split; [split; assumption |].
  split; [split; [exact Hhs |]; split; [rewrite Hhs, Hhl; ring | exact Hhn] |].
  split.
  { clear - Hs H1 H2. unfold split in Hs.
    destruct (Qleb quarters (Block.start b)); [inversion Hs |].
    destruct (Qleb (Block.start b + Block.length b) quarters); [inversion Hs |].
    destruct (isSafeZero _); [inversion Hs |]. cbn [orb] in Hs.
    destruct (splitNotes st (Block.notes b) quarters) as [st1 frags].
    destruct (addNotes st1 _ frags) as [st2 t0].
    destruct (truthy (Block.beatEnd _)); destruct (truthy (Block.isTieEnd _));
      inversion Hs; subst; cbn; auto. }
  destruct (splitNotes_spec _ _ _ _ _ Hsn) as (_ & _ & Hfr).
  pose proof (addNotes_same_shape _ _ _ _ _ Han) as [Hlen Hsh].
  assert (Hincl : incl (Block.notes t) frags /\ Block.start t = quarters).
  { rewrite Etn, Ets. destruct frags as [| f0 frags].
    - cbn in Han. inversion Han. subst. cbn. split; [apply incl_refl | reflexivity].
    - cbn [addNotes] in Han. rewrite addNote_empty in Han by reflexivity.
      pose proof Han as Han2. pose proof Han as Han3.
      eapply (addNotes_at quarters) in Han2 as (_ & Hin & _).
      * eapply addNotes_start in Han3 as [E _]; [| cbn; discriminate].
        cbn in Hin, E. split; [exact Hin |].
        rewrite E. apply (Hfr f0 (or_introl eq_refl)).
      * intros f Hf. destruct (Hfr f (or_intror Hf)) as [_ ->]. reflexivity.
      * right. cbn. destruct (Hfr f0 (or_introl eq_refl)) as [_ ->]. reflexivity.
      * intros r [<- | []]. cbn. apply Qle_refl. }
  destruct Hincl as [Hincl Hstart].
  split; [exact Hstart |].
  intros f Hf. destruct (Hfr f (Hincl f Hf)) as [Hv Hq].
  split; [lia |]. destruct (Hsh f) as (-> & _). exact Hq.
Qed.

Lemma split_head_and_tail_witness :
  exists st' h t,
    split [Note.mk 0 2 60 100 1 0 0 None None]
      (Block.create 0 2 [0%nat] 1) 1 (mkMeasuresInfo [] true) = (st', h, Some t) /\
    Block.start h + Block.length h == 1 /\ Block.start t = 1.
Proof.
  eexists _, _, _. split; [reflexivity |].
  destruct (split_head_and_tail
              [Note.mk 0 2 60 100 1 0 0 None None]
              (Block.create 0 2 [0%nat] 1) 1 (mkMeasuresInfo [] true)
              _ _ _ eq_refl) as (_ & (_ & H1 & _) & _ & H2 & _).
  split; [exact H1 | exact H2].
Defined.

(** The first standard length that fits is one of the list, when any
    fits. *)
Lemma bestFit_in (l : list Q) (blockLength : Q) :
  bestFit l blockLength = 0 \/ In (bestFit l blockLength) l.
Proof.
  induction l as [| x l IH]; cbn; [left; reflexivity |].
  destruct (Qleb (x - eps) blockLength); [right; left; reflexivity |].
  destruct IH; auto.
Qed.

Lemma standardLengths_has_min (dotted : bool) :
  In MIN_RESOLUTION (standardLengths dotted).
Proof. destruct dotted; cbn; unfold MIN_RESOLUTION; tauto. Qed.

Lemma bestFitLength_in (b : Block.t) (m : MeasuresInfo) :
  In (bestFitLength b m)
    (standardLengths
       (allowDottedRests m || negb (Nat.eqb (List.length (Block.notes b)) 0))).
Proof.
  unfold bestFitLength.
  set (l := standardLengths _).
  destruct (isSafeZero (bestFit l (Block.length b))) eqn:Ez;
    [apply standardLengths_has_min |].
  destruct (bestFit_in l (Block.length b)) as [E | H]; [| exact H].
  rewrite E in Ez. discriminate Ez.
Qed.

(** X12.  [splitToStandardSymbol] leaves a block with the length of a
    standard symbol: for a block of at least 1/16 - 1e-6 quarters, the
    length after the call is one of the standard lengths (dotted ones
    included for a block with notes, or when dotted rests are allowed), the
    longest that exceeds the length before by at most 1e-6; when no
    remainder is returned the length has changed by at most 1e-6, and when
    one is returned it starts where the block now ends. *)
Theorem splitToStandardSymbol_standard_length (st : Store) (c : Block.t)
    (m : MeasuresInfo) (st' : Store) (c' : Block.t) (r : option Block.t) :
  MIN_RESOLUTION - eps <= Block.length c ->
  splitToStandardSymbol st c m = (st', c', r) ->
  exists standardLen,
    In standardLen
      (standardLengths
         (allowDottedRests m || negb (Nat.eqb (List.length (Block.notes c)) 0)))
    /\ Block.length c' == standardLen /\
    standardLen - eps <= Block.length c /\
    Block.start c' = Block.start c /\
    match r with
    | None => Block.length c <= standardLen + eps
    | Some rest =>
        standardLen + eps < Block.length c /\
        Block.start rest == Block.start c + standardLen
    end.
Proof.
  intros Hmin H. pose proof eps_pos as He.
  destruct (bestFitLength_bounds c m Hmin) as [Hb1 Hb2].
  pose proof (bestFitLength_in c m) as Hin.
  exists (bestFitLength c m). split; [exact Hin |].
  destruct r as [rest |].
  - revert H. unfold splitToStandardSymbol. fold (bestFitLength c m).
    destruct (isSafeZero (Block.length c) || Qltb (Block.length c) _)%bool;
      [intros H; inversion H |].
    destruct (Qltb (bestFitLength c m + eps) (Block.length c)) eqn:E1;
      [| intros H; inversion H].
    destruct (split st c _ m) as [[st1 h1] ot] eqn:Es1.
    intros H.
    assert (Hot : ot = Some rest)
      by (destruct (Qeq_bool _ _); inversion H; reflexivity).
    subst ot.
    destruct (split_cases _ _ _ _ _ _ _ Es1) as [(Hn & _) | (_ & _ & Hx)];
      [discriminate |].
    destruct Hx as (st2 & frags & t0 & t' & Ht & Hsn & Han & Hhs & Hhl & Hhn
                    & Ets & _).
    inversion Ht. subst t'. clear Ht.
    assert (Hrs : Block.start rest == Block.start c + bestFitLength c m).
    { rewrite Ets. destruct frags as [| f0 frags].
      - cbn in Han. inversion Han. subst. cbn. reflexivity.
      - destruct (splitNotes_spec _ _ _ _ _ Hsn) as (_ & _ & Hfr).
        cbn [addNotes] in Han. rewrite addNote_empty in Han by reflexivity.
        eapply addNotes_start in Han as [E _]; [| cbn; discriminate].
        rewrite E. cbn.
        destruct (Hfr f0 (or_introl eq_refl)) as [_ ->]. reflexivity. }
    qprop.
    destruct (Qeq_bool (Block.length h1) (bestFitLength c m)) eqn:Eq;
      inversion H; subst; cbn [Block.length Block.start Block.set_length].
    + apply Qeq_bool_eq in Eq.
      split; [exact Eq |]. split; [exact Hb2 |]. split; [exact Hhs |].
      split; [exact E1 | exact Hrs].
    + split; [reflexivity |]. split; [exact Hb2 |]. split; [exact Hhs |].
      split; [exact E1 | exact Hrs].
  - revert H. unfold splitToStandardSymbol. fold (bestFitLength c m).
    destruct (isSafeZero (Block.length c) || Qltb (Block.length c) _)%bool
      eqn:E0.
    { exfalso. qprop.
      destruct E0 as [E0 | E0]; qprop; [destruct E0 |];
        unfold MIN_RESOLUTION, eps in *; lra. }
    destruct (Qltb (bestFitLength c m + eps) (Block.length c)) eqn:E1.
    + destruct (split st c _ m) as [[st1 h1] ot] eqn:Es1.
      intros H.
      assert (Hot : ot = None)
        by (destruct (Qeq_bool _ _); inversion H; reflexivity).
      subst ot. exfalso. qprop.
      unfold split in Es1.
      destruct (Qleb _ (Block.start c)) eqn:G1;
        [qprop; unfold MIN_RESOLUTION in *; lra |].
      destruct (Qleb (Block.start c + Block.length c) _) eqn:G2;
        [qprop; lra |].
      destruct (isSafeZero _) eqn:G3; [qprop; destruct G3; lra |].
      cbn [orb] in Es1.
      destruct (splitNotes _ _ _), (addNotes _ _ _).
      destruct (truthy _), (truthy _); inversion Es1.
    + intros H. inversion H. subst. cbn. qprop.
      split; [reflexivity |]. split; [exact Hb2 |].
      split; [reflexivity | exact E1].
Qed.

Lemma splitToStandardSymbol_standard_length_witness :
  exists st' c' r standardLen,
    splitToStandardSymbol [] (Block.create 0 (5 # 2) [] 1)
      (mkMeasuresInfo [] true) = (st', c', r) /\
    In standardLen (standardLengths true) /\
    Block.length c' == standardLen /\
    standardLen - eps <= 5 # 2.
Proof.
  destruct (splitToStandardSymbol_standard_length
              [] (Block.create 0 (5 # 2) [] 1) (mkMeasuresInfo [] true)
              _ _ _ ltac:(discriminate) eq_refl)
    as (len & Hin & H1 & H2 & _).
  eexists _, _, _, len. split; [reflexivity |].
  split; [exact Hin |]. split; [exact H1 | exact H2].
Defined.

(** ** [JianpuBlock.splitToBeat] *)

Lemma timeSignatureAtQ_always (m : MeasuresInfo) (t : Q) :
  exists ts, timeSignatureAtQ m t false = Some ts.
Proof.
  unfold timeSignatureAtQ.
  destruct (nth_error (measuresInfo m) (findIndex m t)); cbn; eauto.
Qed.

Lemma split_keeps_beatBegin (st : Store) (b : Block.t) (quarters : Q)
    (m : MeasuresInfo) (st' : Store) (h : Block.t) (o : option Block.t) :
  split st b quarters m = (st', h, o) ->
  Block.beatBegin h = Block.beatBegin b.
Proof.
  unfold split.
  destruct (Qleb quarters (Block.start b) || _ || _)%bool;
    [intros H; inversion H; reflexivity |].
  destruct (splitNotes st (Block.notes b) quarters) as [st1 frags].
  destruct (addNotes st1 _ frags) as [st2 t0].
  destruct (truthy (Block.beatEnd _)); destruct (truthy (Block.isTieEnd _));
    intros H; inversion H; reflexivity.
Qed.

Lemma split_tail_start (st : Store) (b : Block.t) (quarters : Q)
    (m : MeasuresInfo) (st' : Store) (h t : Block.t) :
  split st b quarters m = (st', h, Some t) -> Block.start t = quarters.
Proof.
  intros Hs.
  destruct (split_cases _ _ _ _ _ _ _ Hs) as [(Hn & _) | (_ & _ & Hx)];
    [discriminate |].
  destruct Hx as (st1 & frags & t0 & t' & Ht & Hsn & Han & _ & _ & _
                  & Ets & _).
  inversion Ht. subst t'. rewrite Ets.
  destruct frags as [| f0 frags].
  - cbn in Han. inversion Han. reflexivity.
  - destruct (splitNotes_spec _ _ _ _ _ Hsn) as (_ & _ & Hfr).
    cbn [addNotes] in Han. rewrite addNote_empty in Han by reflexivity.
    eapply addNotes_start in Han as [E _]; [| cbn; discriminate].
    rewrite E. cbn. apply (Hfr f0 (or_introl eq_refl)).
Qed.

(** X13.  [splitToBeat] always marks the block: the early return for a
    missing time signature is never taken, [beatBegin], [beatEnd] and
    [isTieStart] are set after every call.  When a remainder is returned,
    the block ends where the remainder starts, at a point more than 1e-6
    inside the span it had, it is marked as ending on a beat, and the
    remainder carries its tie marks; when none is returned the notes are
    untouched and the block keeps its length. *)
Theorem splitToBeat_marks (st : Store) (c : Block.t) (m : MeasuresInfo)
    (st' : Store) (c' : Block.t) (r : option Block.t) :
  splitToBeat st c m = (st', c', r) ->
  (exists onBeat, Block.beatBegin c' = Some onBeat) /\
  Block.isTieStart c' = Some (some_tiedFrom st' (Block.notes c')) /\
  match r with
  | Some rest =>
      Block.beatEnd c' = Some true /\
      Block.start c + eps < Block.start rest /\
      Block.start rest < Block.start c + Block.length c - eps /\
      Block.start c' + Block.length c' == Block.start rest /\
      Block.isTieStart rest = Some (some_tiedFrom st' (Block.notes rest)) /\
      Block.isTieEnd rest = Some (some_tiedTo st' (Block.notes rest))
  | None =>
      st' = st /\
      (exists atBeat, Block.beatEnd c' = Some atBeat) /\
      Block.isTieEnd c' = Some (some_tiedTo st (Block.notes c)) /\
      Block.length c' = Block.length c
  end.
Proof.
  unfold splitToBeat.
  destruct (timeSignatureAtQ_always m (Block.start c)) as [ts ->].
  destruct (splitTime (beatContext c m ts)) as [t |] eqn:Et.
  - destruct (beatContext_splitTime _ _ _ _ Et) as [Ht1 Ht2].
    destruct (split st _ t m) as [[st1 h] ot] eqn:Es.
    pose proof (split_keeps_beatBegin _ _ _ _ _ _ _ Es) as Hbb.
    destruct ot as [tl |].
    + pose proof (split_tail_start _ _ _ _ _ _ _ Es) as Hts.
      destruct (split_cases _ _ _ _ _ _ _ Es) as [(Hn & _) | (_ & _ & Hx)];
        [discriminate |].
      destruct Hx as (_ & _ & _ & _ & _ & _ & _ & Hhs & Hhl & _).
      cbn [Block.start Block.set_beatBegin] in Hhs, Hhl.
      destruct (existsb _ _); intros H; inversion H; subst;
        cbn [Block.beatBegin Block.beatEnd Block.isTieStart Block.isTieEnd
             Block.start Block.length Block.notes Block.set_isTieEnd
             Block.set_isTieStart Block.set_beatEnd] in *;
        (split; [rewrite Hbb; eexists; reflexivity |]);
        (split; [reflexivity |]);
        (split; [reflexivity |]);
        (split; [exact Ht1 |]); (split; [exact Ht2 |]);
        (split; [rewrite Hhs, Hhl; ring |]);
        split; reflexivity.
    + destruct (split_cases _ _ _ _ _ _ _ Es) as [(_ & -> & ->) | (_ & _ & Hx)].
      * intros H. inversion H. subst. cbn.
        split; [eexists; reflexivity |]. split; [reflexivity |].
        exfalso. clear - Es Ht1 Ht2. unfold split in Es. pose proof eps_pos.
        cbn [Block.start Block.length Block.set_beatBegin] in Es.
        destruct (Qleb t (Block.start c)) eqn:G1; [qprop; lra |].
        destruct (Qleb (Block.start c + Block.length c) t) eqn:G2;
          [qprop; lra |].
        destruct (isSafeZero _) eqn:G3; [qprop; destruct G3; lra |].
        cbn [orb] in Es.
        destruct (splitNotes _ _ _), (addNotes _ _ _).
        destruct (truthy _), (truthy _); inversion Es.
      * destruct Hx as (? & ? & ? & ? & Hx & _). discriminate Hx.
  - intros H. inversion H. subst. cbn.
    split; [eexists; reflexivity |]. split; [reflexivity |].
    split; [reflexivity |]. split; [eexists; reflexivity |].
    split; reflexivity.
Qed.

Lemma splitToBeat_marks_witness :
  exists st' c' rest,
    splitToBeat [Note.mk 0 2 60 100 1 0 0 None None]
      (Block.create 0 2 [0%nat] 1)
      (MeasuresInfoBuild.create (mkInfo [] [] [] [mkTime 0 4 4]) 2)
    = (st', c', Some rest) /\
    Block.beatEnd c' = Some true /\
    Block.start c' + Block.length c' == Block.start rest.
Proof.
  destruct (splitToBeat [Note.mk 0 2 60 100 1 0 0 None None]
              (Block.create 0 2 [0%nat] 1)
              (MeasuresInfoBuild.create (mkInfo [] [] [] [mkTime 0 4 4]) 2))
    as [[st' c'] [rest |]] eqn:E; [| vm_compute in E; discriminate E].
  exists st', c', rest. split; [reflexivity |].
  destruct (splitToBeat_marks _ _ _ _ _ _ E) as (_ & _ & H1 & _ & _ & H2 & _).
  split; [exact H1 | exact H2].
Defined.

(** ** [JianpuBlock.mergeToMap] *)





(** ** [JianpuBlock.calculateRenderProperties] *)

(** The function writes the three render properties and nothing else. *)
Lemma calculateRenderProperties_form (st : Store) (b : Block.t)
    (m : MeasuresInfo) :
  exists lines dots dash,
    calculateRenderProperties st b m = Block.set_render lines dots dash b.
Proof.
  unfold calculateRenderProperties.
  repeat match goal with
  | |- context [if ?c then _ else _] => destruct c
  | |- context [match Block.notes b with _ => _ end] =>
      destruct (Block.notes b) as [| ? [| ? ?]]
  | |- context [match timeSignatureAtQ ?x ?y ?z with _ => _ end] =>
      destruct (timeSignatureAtQ x y z)
  end; eexists _, _, _; reflexivity.
Qed.

(** X15.  [calculateRenderProperties] can be called again at any time: a
    second call gives the same block as the first (the properties are
    reset, not accumulated), and the call changes nothing but the three
    render properties: the start, the length, the notes, the measure number
    and the beat and tie marks stay. *)
Theorem calculateRenderProperties_idempotent (st : Store) (b : Block.t)
    (m : MeasuresInfo) :
  let b' := calculateRenderProperties st b m in
  calculateRenderProperties st b' m = b' /\
  Block.start b' = Block.start b /\
  Block.length b' = Block.length b /\
  Block.notes b' = Block.notes b /\
  Block.measureNumber b' = Block.measureNumber b /\
  Block.beatBegin b' = Block.beatBegin b /\
  Block.beatEnd b' = Block.beatEnd b /\
  Block.isTieStart b' = Block.isTieStart b /\
  Block.isTieEnd b' = Block.isTieEnd b.
Proof.
  cbv zeta.
  destruct (calculateRenderProperties_form st b m) as (l & d & a & E).
  rewrite E.
  split; [| cbn; repeat split].
  transitivity (calculateRenderProperties st b m); [reflexivity | exact E].
Qed.

(** X16.  The underlines of a block tell whether it is shorter than a
    quarter: a block shorter than 1e-6 gets no render property at all; a
    block of at least 1e-6 and less than 1 - 1e-6 quarters gets between one
    and four underlines; a block of 1 - 1e-6 quarters or more gets none
    (the property is 0, or unset for a dotted quarter). *)
Theorem durationLines_by_length (st : Store) (b : Block.t) (m : MeasuresInfo) :
  let b' := calculateRenderProperties st b m in
  (Block.length b < eps ->
   Block.durationLines b' = None /\ Block.augmentationDots b' = None /\
   Block.augmentationDash b' = None) /\
  (eps <= Block.length b -> Block.length b < 1 - eps ->
   exists n, Block.durationLines b' = Some n /\ (1 <= n <= 4)%Z) /\
  (1 - eps <= Block.length b ->
   Block.durationLines b' = None \/ Block.durationLines b' = Some 0%Z).
Proof.
  cbv zeta. unfold calculateRenderProperties.
  destruct (isSafeZero (Block.length b) || Qltb (Block.length b) 0)%bool eqn:E0.
  { cbn. split; [auto |]. qprop.
    split; intros H1; exfalso; unfold eps in *;
      (destruct E0 as [E0 | E0]; qprop; [destruct E0 |]; unfold eps in *; lra). }
  assert (Hlen : eps <= Block.length b).
  { qprop. unfold eps in *. destruct H; lra. }
  split; [intros Hc; lra |].
  set (dotted := (allowDottedRests m || _)%bool).
  destruct (dotted && isSafeZero (Block.length b - (3 # 2)))%bool eqn:E1.
  { cbn. qprop. destruct H2. unfold eps in *.
    split; [intros _ Hc; lra | intros _; left; reflexivity]. }
  destruct (dotted && isSafeZero (Block.length b - (3 # 4)))%bool eqn:E2.
  { cbn. qprop. destruct H2. unfold eps in *.
    split; [intros _ _; exists 1%Z; split; [reflexivity | lia] | intros Hc; lra]. }
  destruct (dotted && isSafeZero (Block.length b - (3 # 8)))%bool eqn:E3.
  { cbn. qprop. destruct H2. unfold eps in *.
    split; [intros _ _; exists 2%Z; split; [reflexivity | lia] | intros Hc; lra]. }
  assert (Hl : forall dots dash,
             Block.durationLines
               (Block.set_render (Some (durationLinesOf (Block.length b)))
                  dots dash (Block.set_render None None None b))
             = Some (durationLinesOf (Block.length b))) by reflexivity.
  assert (Hres :
    Block.durationLines
      (match Block.notes b with
       | [r] =>
           match timeSignatureAtQ m (Block.start b) false with
           | Some timeSignature =>
               Block.set_render (Some (durationLinesOf (Block.length b)))
                 (if (dotted && isSafeZero (Block.length b - 3))%bool
                  then Some 1%Z else None)
                 (Some (continuationDash st b m timeSignature r))
                 (Block.set_render None None None b)
           | None =>
               Block.set_render (Some (durationLinesOf (Block.length b)))
                 (if (dotted && isSafeZero (Block.length b - 3))%bool
                  then Some 1%Z else None)
                 (Some false) (Block.set_render None None None b)
           end
       | _ =>
           Block.set_render (Some (durationLinesOf (Block.length b)))
             (if (dotted && isSafeZero (Block.length b - 3))%bool
              then Some 1%Z else None)
             (Some false) (Block.set_render None None None b)
       end) = Some (durationLinesOf (Block.length b))).
  { destruct (Block.notes b) as [| ? [| ? ?]];
      [| destruct (timeSignatureAtQ m (Block.start b) false) |]; reflexivity. }
  rewrite Hres. clear Hres Hl E1 E2 E3 E0.
  unfold durationLinesOf.
  repeat match goal with
  | |- context [if Qleb ?x ?y then _ else _] => destruct (Qleb x y) eqn:?
  end; qprop; unfold eps in *;
    (split;
      [intros _ Hc; first [lra | eexists; split; [reflexivity | lia]]
      | intros Hc; first [lra | left; reflexivity | right; reflexivity]]).
Qed.

Lemma continuationDash_true (st : Store) (b : Block.t) (m : MeasuresInfo)
    (ts : TimeSignatureInfo) (r : nat) :
  continuationDash st b m ts r = true ->
  exists prev,
    Note.tiedFrom (deref st r) = Some prev /\
    Note.pitch (deref st prev) = Note.pitch (deref st r) /\
    1 <= Note.length (deref st r) /\
    eps < rem1 (Block.measureNumber b) /\
    forall next, Note.tiedTo (deref st r) = Some next ->
                 1 <= Note.length (deref st next).
Proof.
  unfold continuationDash. intros Hd.
  destruct (Note.tiedFrom (deref st r)) as [prev |]; [| discriminate].
  destruct (negb _ && _ && _ && _)%bool eqn:E; [| discriminate].
  apply andb_true_iff in E. destruct E as [E E4].
  apply andb_true_iff in E. destruct E as [E E3].
  apply andb_true_iff in E. destruct E as [E1 E2].
  apply negb_true_iff in E1. apply Z.eqb_eq in E3. qprop.
  exists prev. repeat (split; [first [reflexivity | assumption] |]).
  intros next Hn. rewrite Hn in Hd.
  apply andb_true_iff in Hd. destruct Hd as [_ Hd]. qprop. exact Hd.
Qed.

(** X17.  The continuation dash is drawn only after a tied note: when
    [calculateRenderProperties] sets [augmentationDash], the block holds
    exactly one note, that note is tied from a note of the same pitch and
    lasts at least a quarter, the block is not the first of its measure,
    and a note that it is tied to lasts at least a quarter too.  A rest or
    a chord never gets the dash. *)
Theorem augmentationDash_only_after_tie (st : Store) (b : Block.t)
    (m : MeasuresInfo) :
  Block.augmentationDash (calculateRenderProperties st b m) = Some true ->
  exists r prev,
    Block.notes b = [r] /\
    Note.tiedFrom (deref st r) = Some prev /\
    Note.pitch (deref st prev) = Note.pitch (deref st r) /\
    1 <= Note.length (deref st r) /\
    eps < rem1 (Block.measureNumber b) /\
    forall next, Note.tiedTo (deref st r) = Some next ->
                 1 <= Note.length (deref st next).
Proof.
  unfold calculateRenderProperties.
  repeat match goal with
  | |- context [if ?c then _ else _] => destruct c
  end; try (cbn; discriminate);
  (destruct (Block.notes b) as [| r [| ? ?]]; try (cbn; discriminate);
   destruct (timeSignatureAtQ m (Block.start b) false) as [ts |];
     [| cbn; discriminate];
   cbn [Block.augmentationDash Block.set_render];
   intros H; inversion H as [Hd];
   destruct (continuationDash_true _ _ _ _ _ Hd) as (prev & Hx);
   exists r, prev; split; [reflexivity | exact Hx]).
Qed.

Lemma augmentationDash_only_after_tie_witness :
  exists r prev,
    Block.notes (Block.create 1 1 [1%nat] (5 # 4)) = [r] /\
    Note.tiedFrom
      (deref [Note.mk 0 1 60 100 1 0 0 None (Some 1%nat);
              Note.mk 1 1 60 100 1 0 0 (Some 0%nat) None] r) = Some prev.
Proof.
  destruct (augmentationDash_only_after_tie
              [Note.mk 0 1 60 100 1 0 0 None (Some 1%nat);
               Note.mk 1 1 60 100 1 0 0 (Some 0%nat) None]
              (Block.create 1 1 [1%nat] (5 # 4))
              (MeasuresInfoBuild.create (mkInfo [] [] [] [mkTime 0 4 4]) 2))
    as (r & prev & H1 & H2 & _).
  - vm_compute. reflexivity.
  - exists r, prev. split; [exact H1 | exact H2].
Defined.

(** ** [JianpuModel]: what a build returns *)

(** [JianpuModel.isLastMeasureAtQ]. *)
Definition isLastMeasureAtQ (model : JianpuModel) (q : Q) : bool :=
  Qleb (lastQ model - eps) q.

(** The key that [update] starts from. *)
Definition startingKey (defaultKey : option Z) : KeySignatureInfo :=
  match defaultKey with
  | Some k => mkKey 0 k
  | None => DEFAULT_KEY_SIGNATURE
  end.

(** The parts of the model that [update] returns. *)
Lemma update_unfold (fuel : nat) (info : JianpuInfo) (defaultKey : option Z)
    (model : JianpuModel) :
  update fuel info defaultKey = Some model ->
  let sorted := sort_by ni_start (notes info) in
  let info1 :=
    mkInfo sorted
      (normalize tempo_start DEFAULT_TEMPO (tempos info))
      (normalize key_start (startingKey defaultKey) (keySignatures info))
      (normalize time_start DEFAULT_TIME_SIGNATURE (timeSignatures info)) in
  let m := MeasuresInfoBuild.create info1 (scoreEnd sorted) in
  jianpuInfo model = info1 /\
  model_measuresInfo model = m /\
  lastQ model = scoreEnd sorted /\
  exists st map,
    processQueue fuel m (g_store (grouped m sorted)) []
      (blockProcessingQueue (finalRest m (scoreEnd sorted) (grouped m sorted)))
    = Some (st, map) /\
    store model = st /\
    jianpuBlockMap model
    = List.map (fun kb => (fst kb, calculateRenderProperties st (snd kb) m))
        map.
Proof.
  intros H. cbv zeta. unfold update, infoToBlocks in H.
  fold (startingKey defaultKey) in H.
  set (sorted := sort_by ni_start (notes info)) in *.
  match type of H with
  | context [MeasuresInfoBuild.create ?i ?l] =>
      set (m := MeasuresInfoBuild.create i l) in *
  end.
  fold (grouped m sorted) in H.
  destruct (processQueue _ m _ _ _) as [[st1 map1] |] eqn:E; [| discriminate].
  injection H as <-. cbn.
  repeat (split; [reflexivity |]).
  exists st1, map1. repeat split.
Qed.

Lemma fold_max_attained (l : list NoteInfo) :
  forall acc,
  let r := fold_left (fun a n => Math_max a (ni_start n + ni_length n)) l acc in
  r = acc \/ exists note, In note l /\ r = ni_start note + ni_length note.
Proof.
  induction l as [| x l IH]; intros acc; cbn; [left; reflexivity |].
  destruct (IH (Math_max acc (ni_start x + ni_length x)))
    as [E | (note & Hn & E)].
  - rewrite E.
    destruct (Math_max_cases acc (ni_start x + ni_length x))
      as [[_ ->] | [_ ->]]; [right; exists x | left]; auto.
  - right. exists note. auto.
Qed.

Lemma maxEnd_le (l : list NoteInfo) (q : Q) :
  maxEnd l <= q <->
  0 <= q /\ forall note, In note l -> ni_start note + ni_length note <= q.
Proof.
  unfold maxEnd. destruct (fold_max_ge l 0) as [H1 H2].
  split.
  - intros H. split; [lra |]. intros note Hn. specialize (H2 note Hn). lra.
  - intros [H0 Hall].
    destruct (fold_max_attained l 0) as [E | (note & Hn & E)]; cbv zeta in E;
      rewrite E; [exact H0 | apply Hall; exact Hn].
Qed.

(** X18.  The total duration of a built model is the end of the note that
    ends last plus 1e-6: it is at least 1e-6, it exceeds the end of every
    note of the score by at least 1e-6, and it is either [0 + 1e-6] (no
    note ends after time 0) or the end of one of the notes plus 1e-6. *)
Theorem total_duration_is_last_end (fuel : nat) (info : JianpuInfo)
    (defaultKey : option Z) (model : JianpuModel) :
  update fuel info defaultKey = Some model ->
  eps <= getTotalDuration model /\
  (forall note, In note (notes info) ->
     ni_start note + ni_length note + eps <= getTotalDuration model) /\
  (getTotalDuration model = 0 + eps \/
   exists note, In note (notes info) /\
     getTotalDuration model = ni_start note + ni_length note + eps).
Proof.
  intros H. destruct (update_unfold _ _ _ _ H) as (_ & _ & E & _).
  unfold getTotalDuration. rewrite E. unfold scoreEnd.
  set (sorted := sort_by ni_start (notes info)).
  destruct (fold_max_ge sorted 0) as [H1 H2].
  split; [lra |]. split.
  - intros note Hn. apply (In_sort_by ni_start) in Hn. specialize (H2 note Hn).
    lra.
  - destruct (fold_max_attained sorted 0) as [E' | (note & Hn & E')];
      cbv zeta in E'; rewrite E'; [left; reflexivity |].
    right. exists note. split; [apply In_sort_by in Hn; exact Hn | reflexivity].
Qed.

Lemma total_duration_is_last_end_witness :
  exists model,
    update 50 dotted_half_score None = Some model /\
    (3 + (3 # 4)) + (1 # 4) + eps <= getTotalDuration model.
Proof.
  destruct (update 50 dotted_half_score None) as [model |] eqn:E;
    [| vm_compute in E; discriminate E].
  exists model. split; [reflexivity |].
  destruct (total_duration_is_last_end 50 dotted_half_score None model E)
    as (_ & H & _).
  apply (H (mkNoteInfo (3 + (3 # 4)) (1 # 4) 67 127)).
  right. left. reflexivity.
Defined.

(** X19.  [isLastMeasureAtQ] tells whether the score is over: on a built
    model it holds at a time [q] exactly when [q] is not negative and no
    note of the score ends after [q]; where a measure begins plays no
    part. *)
Theorem isLastMeasureAtQ_after_last_note (fuel : nat) (info : JianpuInfo)
    (defaultKey : option Z) (model : JianpuModel) (q : Q) :
  update fuel info defaultKey = Some model ->
  (isLastMeasureAtQ model q = true <->
   0 <= q /\
   forall note, In note (notes info) -> ni_start note + ni_length note <= q).
Proof.
  intros H. destruct (update_unfold _ _ _ _ H) as (_ & _ & E & _).
  unfold isLastMeasureAtQ. rewrite E, scoreEnd_maxEnd, Qleb_iff.
  assert (Em : maxEnd (sort_by ni_start (notes info)) + eps - eps
               == maxEnd (sort_by ni_start (notes info))) by ring.
  rewrite Em, maxEnd_le.
  split; intros [H0 Hall]; (split; [exact H0 |]); intros note Hn;
    apply Hall; apply (In_sort_by ni_start); exact Hn.
Qed.

Lemma isLastMeasureAtQ_after_last_note_witness :
  exists model,
    update 50 dotted_half_score None = Some model /\
    isLastMeasureAtQ model 4 = true.
Proof.
  destruct (update 50 dotted_half_score None) as [model |] eqn:E;
    [| vm_compute in E; discriminate E].
  exists model. split; [reflexivity |].
  apply (isLastMeasureAtQ_after_last_note 50 dotted_half_score None model 4 E).
  split; [discriminate |].
  intros note [<- | [<- | []]]; discriminate.
Defined.

(** X20.  A score without notes builds at once: whatever its tempos, key
    and time signatures, [update] returns a model with no block (no rest is
    made for an empty score), an empty store and a total duration of
    1e-6. *)
Theorem empty_score_builds_no_block (info : JianpuInfo)
    (defaultKey : option Z) :
  notes info = [] ->
  exists model,
    update 1 info defaultKey = Some model /\
    blocks model = [] /\ store model = [] /\
    getTotalDuration model = 0 + eps.
Proof.
  intros Hn. unfold update, infoToBlocks. rewrite Hn.
  eexists. split; [reflexivity |]. repeat split.
Qed.

Lemma empty_score_builds_no_block_witness :
  exists model,
    update 1 (mkInfo [] [] [mkKey 0 7] [mkTime 0 3 4]) None = Some model /\
    blocks model = [].
Proof.
  destruct (empty_score_builds_no_block
              (mkInfo [] [] [mkKey 0 7] [mkTime 0 3 4]) None eq_refl)
    as (model & H1 & H2 & _).
  exists model. split; assumption.
Defined.

(** X21.  In the model built for a well-formed score, every block is
    filed under its own start time, and every note a block holds is a note
    of the store of the model that starts when the block starts. *)
Theorem blocks_hold_simultaneous_notes (fuel : nat) (info : JianpuInfo)
    (defaultKey : option Z) (model : JianpuModel) :
  wf_score info ->
  update fuel info defaultKey = Some model ->
  forall k b, In (k, b) (jianpuBlockMap model) ->
    k == Block.start b /\
    forall r, In r (Block.notes b) ->
      (r < List.length (store model))%nat /\
      Note.start (deref (store model) r) == Block.start b.
Proof.
  intros Hw H k b Hin.
  destruct (update_pass_ok _ _ _ _ Hw H) as [(_ & _ & Hm) _].
  unfold map_ok, entries_ok in Hm. rewrite Forall_forall in Hm.
  destruct (Hm (k, b) Hin) as [Hk Hb]. cbn [fst snd] in Hk, Hb.
  split; [exact Hk | exact Hb].
Qed.

Lemma blocks_hold_simultaneous_notes_witness :
  exists model,
    update 50 chords_score None = Some model /\
    forall k b, In (k, b) (jianpuBlockMap model) -> k == Block.start b.
Proof.
  destruct (update 50 chords_score None) as [model |] eqn:E;
    [| vm_compute in E; discriminate E].
  exists model. split; [reflexivity |].
  intros k b Hin.
  apply (blocks_hold_simultaneous_notes 50 chords_score None model
           chords_score_wf E k b Hin).
Defined.

(** X22.  Every note of the model built for a well-formed score is a piece
    of a note of the score: it has the pitch of that note and a positive
    length, and it starts and ends within the span of that note.  Nothing
    sounds in the model that the score does not hold, and the tie links of
    every note point at notes of the store. *)
Theorem notes_are_pieces_of_score_notes (fuel : nat) (info : JianpuInfo)
    (defaultKey : option Z) (model : JianpuModel) :
  wf_score info ->
  update fuel info defaultKey = Some model ->
  forall r, (r < List.length (store model))%nat ->
    (exists note,
       In note (notes info) /\
       Note.pitch (deref (store model) r) = ni_pitch note /\
       ni_start note <= Note.start (deref (store model) r) /\
       Note.start (deref (store model) r) + Note.length (deref (store model) r)
       <= ni_start note + ni_length note /\
       0 < Note.length (deref (store model) r)) /\
    forall x,
      Note.tiedFrom (deref (store model) r) = Some x \/
      Note.tiedTo (deref (store model) r) = Some x ->
      (x < List.length (store model))%nat.
Proof.
  intros Hw H r Hr.
  destruct (update_pass_ok _ _ _ _ Hw H) as [([org HI] & _) _].
  set (sorted := sort_by ni_start (notes info)) in *.
  destruct (c_org _ _ _ HI r Hr) as (Ho & Hp & Hs & He & Hl).
  split.
  - exists (orig sorted (org r)).
    split; [| repeat split; assumption].
    apply (In_sort_by ni_start). unfold orig. apply nth_In. exact Ho.
  - intros x Hx. apply (c_valid _ _ _ HI r x Hr Hx).
Qed.

Lemma notes_are_pieces_of_score_notes_witness :
  exists model note,
    update 50 dotted_half_score None = Some model /\
    In note (notes dotted_half_score) /\
    Note.pitch (deref (store model) 2) = ni_pitch note /\
    ni_start note <= Note.start (deref (store model) 2).
Proof.
  destruct (update 50 dotted_half_score None) as [model |] eqn:E;
    [| vm_compute in E; discriminate E].
  assert (Hr : (2 < List.length (store model))%nat).
  { assert (Hc : option_map (fun md => Nat.ltb 2 (List.length (store md)))
                   (update 50 dotted_half_score None) = Some true)
      by (vm_compute; reflexivity).
    rewrite E in Hc. cbn in Hc. injection Hc as Hc.
    apply Nat.ltb_lt. exact Hc. }
  destruct (notes_are_pieces_of_score_notes 50 dotted_half_score None model
              dotted_half_score_wf E 2%nat Hr)
    as [(note & H1 & H2 & H3 & _) _].
  exists model, note. split; [reflexivity |].
  split; [exact H1 |]. split; [exact H2 | exact H3].
Defined.

(** ** What the build keeps of every note *)

Lemma Forall_list_update {A : Type} (P : A -> Prop) (l : list A) (i : nat)
    (f : A -> A) :
  (forall x, P x -> P (f x)) -> Forall P l -> Forall P (list_update l i f).
Proof.
  intros Hf. revert i.
  induction l as [| a l IH]; intros [| i] H; cbn; try exact H;
    inversion H; subst; constructor; auto.
Qed.

(** A property of notes that neither a change of length nor a tie link
    breaks, and that a piece cut off a note has with the note, holds of
    all notes of the store through the second pass. *)
Section StoreInvariant.
Variable P : Note.t -> Prop.
Hypothesis P_length : forall v n, P n -> P (Note.set_length v n).
Hypothesis P_from : forall v n, P n -> P (Note.set_tiedFrom v n).
Hypothesis P_to : forall v n, P n -> P (Note.set_tiedTo v n).
Hypothesis P_piece :
  forall n quarters len r,
  P n ->
  P (Note.mk quarters len (Note.pitch n) (Note.intensity n)
       (Note.jianpuNumber n) (Note.octaveDot n) 0 (Some r) None).

Lemma splitJianpuNote_inv (st : Store) (r : nat) (quarters : Q)
    (st' : Store) (o : option nat) :
  Forall P st -> splitJianpuNote st r quarters = (st', o) -> Forall P st'.
Proof.
  intros Hst. unfold splitJianpuNote.
  destruct (Qleb quarters (Note.start (deref st r))) eqn:E1;
    [intros H; inversion H; subst; exact Hst |].
  destruct (Qleb (Note.start (deref st r) + Note.length (deref st r)) quarters)
    eqn:E2; [intros H; inversion H; subst; exact Hst |].
  destruct (isSafeZero _); [intros H; inversion H; subst; exact Hst |].
  cbn [orb]. qprop.
  assert (Hr : (r < List.length st)%nat)
    by (apply deref_positive_in_store; lra).
  assert (Hn : P (deref st r)).
  { rewrite Forall_forall in Hst. apply Hst. unfold deref. apply nth_In.
    exact Hr. }
  unfold alloc.
  set (st2 := list_update st r _ ++ [_]).
  assert (H2 : Forall P st2).
  { unfold st2. apply Forall_app. split.
    - apply Forall_list_update; [apply P_length | exact Hst].
    - constructor; [apply P_piece; exact Hn | constructor]. }
  intros H. inversion H. subst st' o. clear H.
  apply Forall_list_update; [apply P_to |].
  destruct (Note.tiedTo (deref st2 r)); [| exact H2].
  apply Forall_list_update; [apply P_from |].
  apply Forall_list_update; [apply P_to | exact H2].
Qed.

Lemma splitNotes_inv (l : list nat) (quarters : Q) :
  forall (st st' : Store) (frags : list nat),
  Forall P st -> splitNotes st l quarters = (st', frags) -> Forall P st'.
Proof.
  induction l as [| r l IH]; intros st st' frags Hst H; cbn in H.
  - inversion H. subst. exact Hst.
  - destruct (Qltb _ _).
    + destruct (splitJianpuNote st r quarters) as [st1 part] eqn:Es.
      destruct (splitNotes st1 l quarters) as [st2 parts] eqn:E2.
      inversion H. subst.
      apply (IH _ _ _ (splitJianpuNote_inv _ _ _ _ _ Hst Es) E2).
    + destruct (splitNotes st l quarters) as [st2 parts] eqn:E2.
      inversion H. subst. apply (IH _ _ _ Hst E2).
Qed.

Lemma relink_inv (st : Store) (old new : nat) :
  Forall P st -> Forall P (relink st old new).
Proof.
  intros Hst. unfold relink.
  assert (Hto : forall s, Forall P s ->
            Forall P
              (match Note.tiedTo (deref s old) with
               | Some next =>
                   list_update
                     (list_update s new (Note.set_tiedTo (Some next)))
                     next (Note.set_tiedFrom (Some new))
               | None => s
               end)).
  { intros s Hs. destruct (Note.tiedTo (deref s old)); [| exact Hs].
    apply Forall_list_update; [apply P_from |].
    apply Forall_list_update; [apply P_to | exact Hs]. }
  apply Hto.
  destruct (Note.tiedFrom (deref st old)); [| exact Hst].
  apply Forall_list_update; [apply P_to |].
  apply Forall_list_update; [apply P_from | exact Hst].
Qed.

Lemma addNotes_inv (l : list nat) :
  forall (st st' : Store) (b b' : Block.t),
  Forall P st -> addNotes st b l = (st', b') -> Forall P st'.
Proof.
  induction l as [| j l IH]; intros st st' b b' Hst H; cbn in H.
  - inversion H. subst. exact Hst.
  - destruct (addNote st b j) as [[st1 b1] ok] eqn:Ea.
    apply (IH st1 st' b1 b'); [| exact H].
    destruct (addNote_store _ _ _ _ _ _ Ea) as [-> | (old & _ & _ & _ & _ & ->)];
      [exact Hst | apply relink_inv; exact Hst].
Qed.

Lemma split_inv (st : Store) (b : Block.t) (quarters : Q) (m : MeasuresInfo)
    (st' : Store) (h : Block.t) (o : option Block.t) :
  Forall P st -> split st b quarters m = (st', h, o) -> Forall P st'.
Proof.
  intros Hst Hs.
  destruct (split_cases _ _ _ _ _ _ _ Hs) as [(_ & -> & _) | (_ & _ & Hx)];
    [exact Hst |].
  destruct Hx as (st1 & frags & t0 & t & _ & Hsn & Han & _).
  apply (addNotes_inv _ _ _ _ _ (splitNotes_inv _ _ _ _ _ Hst Hsn) Han).
Qed.

Lemma mergeToMap_inv (st : Store) (b : Block.t) (map : JianpuBlockMap)
    (st' : Store) (map' : JianpuBlockMap) :
  Forall P st -> mergeToMap st b map = (st', map') -> Forall P st'.
Proof.
  intros Hst. unfold mergeToMap.
  destruct (NumMap.get map (Block.start b)) as [existing |].
  - destruct (addNotes st existing (Block.notes b)) as [st1 e1] eqn:Ea.
    intros H. inversion H. subst. apply (addNotes_inv _ _ _ _ _ Hst Ea).
  - intros H. inversion H. subst. exact Hst.
Qed.

Lemma processQueue_store_inv (m : MeasuresInfo) (fuel : nat) (st : Store)
    (map : JianpuBlockMap) (queue : list Block.t) (st' : Store)
    (map' : JianpuBlockMap) :
  Forall P st ->
  processQueue fuel m st map queue = Some (st', map') ->
  Forall P st'.
Proof.
  apply (processQueue_invariant m (fun s _ _ => Forall P s)
           (fun s _ _ => Forall P s)).
  - intros st0 map0 c q st1 c1 r st2 map2 HI Hb Hmg.
    destruct (splitToBeat_some _ _ _ _ _ _ Hb)
      as (qs & c0 & h & t & _ & _ & _ & _ & _ & Hs & _).
    apply (mergeToMap_inv _ _ _ _ _ (split_inv _ _ _ _ _ _ _ HI Hs) Hmg).
  - intros st0 map0 c q st1 c1 HI Hb.
    destruct (splitToBeat_none _ _ _ _ _ Hb) as (-> & _). exact HI.
  - intros st0 map0 c q st1 c1 r st2 map2 HI Hb Hmg.
    destruct (splitToStandardSymbol_some _ _ _ _ _ _ Hb)
      as (qs & h & _ & _ & Hs & _).
    apply (mergeToMap_inv _ _ _ _ _ (split_inv _ _ _ _ _ _ _ HI Hs) Hmg).
  - intros st0 map0 c q st1 c1 st2 map2 HI Hb Hmg.
    destruct (splitToStandardSymbol_none _ _ _ _ _ Hb) as (-> & _).
    apply (mergeToMap_inv _ _ _ _ _ HI Hmg).
Qed.

End StoreInvariant.

Lemma sort_by_nonempty {A : Type} (key : A -> Q) (l : list A) :
  l <> [] -> sort_by key l <> [].
Proof.
  destruct l as [| a l]; [congruence |]. intros _ E.
  assert (H : In a (sort_by key (a :: l)))
    by (apply In_sort_by; left; reflexivity).
  rewrite E in H. exact H.
Qed.

Lemma normalize_nonempty {A : Type} (start : A -> Q) (d : A) (l : list A) :
  normalize start d l <> [].
Proof.
  unfold normalize.
  set (l1 := match l with [] => [d] | _ => l end).
  assert (H1 : l1 <> []) by (unfold l1; destruct l; discriminate).
  pose proof (sort_by_nonempty start l1 H1) as H2.
  destruct (sort_by start l1) as [| first rest]; [congruence |].
  destruct (Qltb eps (start first)); discriminate.
Qed.

Lemma In_normalize {A : Type} (start : A -> Q) (d : A) (l : list A) (x : A) :
  In x (normalize start d l) -> x = d \/ In x l.
Proof.
  unfold normalize.
  set (l1 := match l with [] => [d] | _ => l end).
  assert (H1 : forall y, In y l1 -> y = d \/ In y l).
  { unfold l1. destruct l; [intros y [<- | []]; auto | auto]. }
  assert (H2 : forall y, In y (sort_by start l1) -> y = d \/ In y l).
  { intros y Hy. apply In_sort_by in Hy. auto. }
  destruct (sort_by start l1) as [| first rest]; [intros [] |].
  destruct (Qltb eps (start first)); [intros [<- | H]; auto | auto].
Qed.

Lemma scoreEnd_pos (sorted : list NoteInfo) : 0 < scoreEnd sorted.
Proof.
  rewrite scoreEnd_maxEnd. unfold maxEnd.
  destruct (fold_max_ge sorted 0) as [H _]. pose proof eps_pos. lra.
Qed.

(** The key that [createJianpuNote] gets for a note of a build. *)
Lemma built_key (info : JianpuInfo) (defaultKey : option Z) (t : Q) :
  let sorted := sort_by ni_start (notes info) in
  let info1 :=
    mkInfo sorted
      (normalize tempo_start DEFAULT_TEMPO (tempos info))
      (normalize key_start (startingKey defaultKey) (keySignatures info))
      (normalize time_start DEFAULT_TIME_SIGNATURE (timeSignatures info)) in
  let m := MeasuresInfoBuild.create info1 (scoreEnd sorted) in
  exists ks,
    (ks = startingKey defaultKey \/ In ks (keySignatures info)) /\
    keySignatureAtQ m t false = key ks.
Proof.
  cbv zeta.
  set (sorted := sort_by ni_start (notes info)).
  set (info1 := mkInfo _ _ _ _).
  set (m := MeasuresInfoBuild.create info1 (scoreEnd sorted)).
  pose proof (ChunkFacts.findIndex_bound m t
                (ChunkFacts.create_nonempty info1 _ (scoreEnd_pos sorted)))
    as Hb.
  assert (Hall :
    Forall
      (fun chunk =>
         LookupFacts.from_score info1 (mi_tempo chunk) (mi_keySignature chunk)
           (mi_timeSignature chunk)) (measuresInfo m)).
  { unfold m, MeasuresInfoBuild.create. cbn [measuresInfo].
    apply LookupFacts.loop_from_score.
    unfold MeasuresInfoBuild.init.
    cbn [MeasuresInfoBuild.currentTempo MeasuresInfoBuild.currentKeySignature
         MeasuresInfoBuild.currentTimeSignature].
    repeat split; apply LookupFacts.nth_0_In; apply normalize_nonempty. }
  unfold keySignatureAtQ.
  destruct (nth_error (measuresInfo m) (findIndex m t)) as [chunk |] eqn:E;
    [| apply nth_error_None in E; lia].
  rewrite Forall_forall in Hall.
  destruct (Hall chunk (nth_error_In _ _ E)) as (_ & C2 & _).
  cbn [keySignatures info1] in C2. apply In_normalize in C2.
  exists (mi_keySignature chunk). split; [exact C2 | reflexivity].
Qed.

(** The degree and the octave dots of a note are those of its pitch in the
    key [k]; its accidental is that of its pitch, or none. *)
Definition spelled_in (k : Z) (n : Note.t) : Prop :=
  Note.jianpuNumber n
  = Pitch.jianpuNumber (Pitch.mapMidiToJianpu (Note.pitch n) k) /\
  Note.octaveDot n = Pitch.octaveDot (Pitch.mapMidiToJianpu (Note.pitch n) k) /\
  (Note.accidental n
   = Pitch.accidental (Pitch.mapMidiToJianpu (Note.pitch n) k) \/
   Note.accidental n = 0%Z).

(** X23.  Cutting and tying never change how a note is written: every
    note of a built model, the pieces made by the splits included, has the
    degree and the octave dots that [mapMidiToJianpu] gives its pitch in a
    key of the score (the key of one of its key signatures, or the starting
    key: the default key given, else C), and its accidental is the one of
    [mapMidiToJianpu] or 0. *)
Theorem notes_keep_their_spelling (fuel : nat) (info : JianpuInfo)
    (defaultKey : option Z) (model : JianpuModel) :
  update fuel info defaultKey = Some model ->
  Forall
    (fun n =>
       exists ks,
         (ks = startingKey defaultKey \/ In ks (keySignatures info)) /\
         spelled_in (key ks) n)
    (store model).
Proof.
  intros H.
  destruct (update_unfold _ _ _ _ H) as (_ & _ & _ & st & map & Hp & -> & _).
  revert Hp.
  apply processQueue_store_inv.
  - intros v n (ks & Hk & Hs). exists ks. split; [exact Hk | exact Hs].
  - intros v n (ks & Hk & Hs). exists ks. split; [exact Hk | exact Hs].
  - intros v n (ks & Hk & Hs). exists ks. split; [exact Hk | exact Hs].
  - intros n q len r (ks & Hk & H1 & H2 & _). exists ks.
    split; [exact Hk |]. split; [exact H1 |]. split; [exact H2 |].
    right. reflexivity.
  - rewrite grouped_store. rewrite Forall_map, Forall_forall.
    intros note _.
    destruct (built_key info defaultKey (ni_start note)) as (ks & Hk & E).
    exists ks. split; [exact Hk |].
    unfold note_of, spelled_in. cbn [Note.jianpuNumber Note.octaveDot
                                      Note.accidental Note.pitch].
    rewrite E. split; [reflexivity |]. split; [reflexivity |].
    left. reflexivity.
Qed.

Lemma notes_keep_their_spelling_witness :
  exists model,
    update 50 dotted_half_score None = Some model /\
    Forall (fun n => exists ks, (ks = startingKey None \/ In ks []) /\
                                spelled_in (key ks) n) (store model).
Proof.
  destruct (update 50 dotted_half_score None) as [model |] eqn:E;
    [| vm_compute in E; discriminate E].
  exists model. split; [reflexivity |].
  apply (notes_keep_their_spelling 50 dotted_half_score None model E).
Defined.

(** ** Beats and measure beginnings in a score with one time signature *)


Lemma Qfloor_unique (x : Q) (f : Z) :
  inject_Z f <= x -> x < inject_Z (f + 1) -> Qfloor x = f.
Proof.
  intros H1 H2.
  pose proof (Qfloor_le x) as F1. pose proof (Qlt_floor x) as F2.
  assert (A : inject_Z f < inject_Z (Qfloor x + 1)) by lra.
  assert (B : inject_Z (Qfloor x) < inject_Z (f + 1)) by lra.
  rewrite <- Zlt_Qlt in A, B. lia.
Qed.

Lemma Qfloor_plus_int (x : Q) (k : Z) :
  Qfloor (x + inject_Z k) = (Qfloor x + k)%Z.
Proof.
  apply Qfloor_unique.
  - rewrite inject_Z_plus. pose proof (Qfloor_le x). lra.
  - pose proof (Qlt_floor x) as H.
    rewrite !inject_Z_plus in *. lra.
Qed.

Lemma Math_round_minus_int (x : Q) (k : Z) :
  Math_round (x - inject_Z k) == Math_round x - inject_Z k.
Proof.
  unfold Math_round.
  rewrite (Qfloor_comp _ (x + (1 # 2) + inject_Z (- k)))
    by (rewrite inject_Z_opp; ring).
  rewrite Qfloor_plus_int, inject_Z_plus, inject_Z_opp. ring.
Qed.

Lemma Qltb_comp (x x' y : Q) : x == x' -> Qltb x y = Qltb x' y.
Proof.
  intros E. destruct (Qltb x' y) eqn:H.
  - apply Qltb_iff. apply Qltb_iff in H. rewrite E. exact H.
  - apply Qltb_false. apply Qltb_false in H. rewrite E. exact H.
Qed.

Lemma getMeasureLength_beats (ts : TimeSignatureInfo) :
  (0 < denominator ts)%Z ->
  getMeasureLength ts
  == inject_Z (numerator ts) * (4 / inject_Z (denominator ts)) /\
  0 < 4 / inject_Z (denominator ts).
Proof.
  intros Hd. split; [reflexivity |].
  assert (H : 0 < inject_Z (denominator ts))
    by (change 0 with (inject_Z 0); rewrite <- Zlt_Qlt; exact Hd).
  apply Qlt_shift_div_l; [exact H | lra].
Qed.

(** X24.  In a score with one time signature [n/d], given less than 1/32
    of a quarter from time 0, [isBeatStart] holds at a time [t] exactly
    when [t], counted in beats of [4/d] quarters from time 0, is less than
    1/32 of a beat away from a whole number: every measure is a whole
    number of beats, so that the measure in which [t] lies plays no part. *)
Theorem isBeatStart_in_one_time_signature (info : JianpuInfo) (lastQ : Q)
    (ts : TimeSignatureInfo) (t : Q) :
  timeSignatures info = [ts] ->
  Qabs (time_start ts) < 1 # 32 ->
  (0 < numerator ts)%Z -> (0 < denominator ts)%Z ->
  0 < lastQ ->
  let beatLength := 4 / inject_Z (denominator ts) in
  isBeatStart (MeasuresInfoBuild.create info lastQ) t
  = Qltb (Qabs (t / beatLength - Math_round (t / beatLength)))
      (MIN_RESOLUTION / 2).
Proof.
  intros Hone Hnear Hn Hd Hl beatLength.
  set (m := MeasuresInfoBuild.create info lastQ).
  pose proof (ChunkFacts.findIndex_bound m t
                (ChunkFacts.create_nonempty info lastQ Hl)) as Hb.
  pose proof (SignatureFacts.create_chunks_ok info lastQ ts Hone Hnear) as Hall.
  fold m in Hall.
  unfold isBeatStart.
  destruct (nth_error (measuresInfo m) (findIndex m t)) as [chunk |] eqn:E;
    [| apply nth_error_None in E; lia].
  rewrite Forall_forall in Hall.
  destruct (Hall chunk (nth_error_In _ _ E)) as (C1 & C2 & C3).
  rewrite C2, C3. fold beatLength.
  destruct (getMeasureLength_beats ts Hd) as [Hlen Hbl]. fold beatLength in Hlen, Hbl.
  assert (Hlpos : 0 < getMeasureLength ts).
  { rewrite Hlen. apply Qmult_lt_0_compat; [| exact Hbl].
    change 0 with (inject_Z 0). rewrite <- Zlt_Qlt. exact Hn. }
  set (len := getMeasureLength ts) in *.
  set (x := mi_start chunk / len).
  assert (Hfl : Math_floor (mi_measureNumber chunk)
                == 1 + inject_Z (Qfloor x)).
  { unfold Math_floor.
    rewrite (Qfloor_comp _ (x + inject_Z 1))
      by (rewrite C1; unfold x; change (inject_Z 1) with 1; ring).
    rewrite Qfloor_plus_int, inject_Z_plus. change (inject_Z 1) with 1. ring. }
  set (K := (Qfloor x * numerator ts)%Z).
  assert (Hbn :
    (t - (mi_start chunk
          - (mi_measureNumber chunk - Math_floor (mi_measureNumber chunk))
            * len)) / beatLength
    == t / beatLength - inject_Z K).
  { rewrite Hfl, C1. unfold K. rewrite inject_Z_mult. fold x.
    assert (Ex : mi_start chunk == x * len) by (unfold x; field; lra).
    rewrite Ex at 1. rewrite Hlen. field. lra. }
  apply Qltb_comp.
  set (bn := (t - _) / beatLength) in *.
  rewrite (Qabs_wd _ (t / beatLength - Math_round (t / beatLength)));
    [reflexivity |].
  unfold Math_round at 1.
  rewrite (Qfloor_comp _ (t / beatLength - inject_Z K + (1 # 2)))
    by (rewrite Hbn; reflexivity).
  fold (Math_round (t / beatLength - inject_Z K)).
  rewrite Math_round_minus_int, Hbn. ring.
Qed.

Lemma isBeatStart_in_one_time_signature_witness :
  isBeatStart
    (MeasuresInfoBuild.create (mkInfo [] [] [] [mkTime 0 3 8]) 4) (5 # 2)
  = true.
Proof.
  rewrite (isBeatStart_in_one_time_signature
             (mkInfo [] [] [] [mkTime 0 3 8]) 4 (mkTime 0 3 8) (5 # 2));
    reflexivity.
Defined.


